(** * Data_Robotics: the NumPy notebooks

    A shallow embedding of the two notebooks of the repository:

    - [filter_and_replace], the conditional in-place replacement over an
      array (first notebook);
    - the Monte Carlo demo (second notebook): [SimulationConfig],
      [OptimizedNormalDistribution] with its sample cache,
      [MemoryAwareMonteCarloEngine] and [MemoryEfficientAnalyzer].

    Floating-point numbers are IEEE-754 values ([spec_float] of the
    Standard Library, which is parameterised by precision and exponent
    range, so both binary64 -- Python's [float] -- and binary32 --
    [np.float32] -- are covered).  The pseudo-random generator is an
    interface ([Generator]); Python objects that are shared and mutated
    (the generator, the distributions, an array passed to a function) live
    in an explicit state. *)

From Stdlib Require Import ZArith QArith Qpower Qabs List Bool Lia Lqa.
From Stdlib Require Import Floats.SpecFloat.
From stdpp Require Import base gmap strings list.

Local Open Scope nat_scope.

(** ** Python exceptions raised on the modelled paths *)

Inductive exn : Type :=
| ZeroDivisionError
| ValueError
| IndexError
| KeyError (key : string)
| NameError.

(** What a call yields: the value returned, or the exception raised. *)
Inductive result (A : Type) : Type :=
| Ok (a : A)
| Error (e : exn).
Arguments Ok {A} a.
Arguments Error {A} e.

(** ** Floating-point values *)

Inductive dtype : Type := float32 | float64.

#[global] Instance dtype_eq_dec : EqDecision dtype.
Proof. solve_decision. Defined.

Module Float.

(** A Python [float] or a NumPy scalar: sign, mantissa and exponent
    denote the number [(-1)^s * m * 2^e]. *)
Definition float : Type := spec_float.

Definition prec (d : dtype) : Z :=
  match d with float32 => 24%Z | float64 => 53%Z end.

Definition emax (d : dtype) : Z :=
  match d with float32 => 128%Z | float64 => 1024%Z end.

(** Rounding (to nearest, ties to even) of a value into the format [d]:
    [x.astype(d)], [np.array(..., dtype=d)], [d(x)]. *)
Definition round_to (d : dtype) (x : float) : float :=
  match x with
  | S754_finite s m e =>
      binary_normalize (prec d) (emax d) (cond_Zopp s (Zpos m)) e s
  | _ => x
  end.

(** [float(x)] of a NumPy scalar: widening to binary64 is exact, the
    number denoted does not change. *)
Definition py_float (x : float) : float := x.

(** An integer as a float of format [d]. *)
Definition of_Z (d : dtype) (n : Z) : float :=
  binary_normalize (prec d) (emax d) n 0 false.

Definition add (d : dtype) : float -> float -> float := SFadd (prec d) (emax d).

Definition sub (d : dtype) : float -> float -> float := SFsub (prec d) (emax d).

Definition mul (d : dtype) : float -> float -> float := SFmul (prec d) (emax d).

Definition div (d : dtype) : float -> float -> float := SFdiv (prec d) (emax d).

Definition sqrt (d : dtype) : float -> float := SFsqrt (prec d) (emax d).

Definition isnan (x : float) : bool :=
  match x with S754_nan => true | _ => false end.

Definition isfinite (x : float) : bool :=
  match x with S754_zero _ | S754_finite _ _ _ => true | _ => false end.

(** The rational number a finite float denotes (0 for the others). *)
Definition to_Q (x : float) : Q :=
  match x with
  | S754_finite s m e => inject_Z (cond_Zopp s (Zpos m)) * Qpower 2 e
  | _ => 0
  end.

(** [x <= y] and [x < y] of IEEE-754: false as soon as an operand is a
    NaN, by the values denoted otherwise (so the two zeros are equal). *)
Definition leb (x y : float) : bool :=
  match x, y with
  | S754_nan, _ | _, S754_nan => false
  | S754_infinity true, _ => true
  | _, S754_infinity false => true
  | S754_infinity false, _ => false
  | _, S754_infinity true => false
  | _, _ => Qle_bool (to_Q x) (to_Q y)
  end.

Definition ltb (x y : float) : bool :=
  negb (isnan x) && negb (isnan y) && negb (leb y x).

Definition neg_zero : float := S754_zero true.

Definition pos_zero : float := S754_zero false.

End Float.

Abbreviation float := Float.float.

(** ** Arrays

    An [ndarray] is its shape and its entries in row-major order. *)

Record ndarray (A : Type) : Type := mk_ndarray {
  shape : list nat;
  data : list A
}.
Arguments mk_ndarray {A} shape data.
Arguments shape {A} _.
Arguments data {A} _.

Definition size_of (sh : list nat) : nat := fold_right Nat.mul 1 sh.

(** Python's slice bound: a negative bound counts from the end, and the
    bound is clipped to the length. *)
Definition slice_index (len : nat) (i : Z) : nat :=
  if (i <? 0)%Z then Z.to_nat (Z.of_nat len + i) else Nat.min (Z.to_nat i) len.

(** [a[:i]] *)
Definition slice_to {A} (a : list A) (i : Z) : list A :=
  take (slice_index (length a) i) a.

(** [a[i:]] *)
Definition slice_from {A} (a : list A) (i : Z) : list A :=
  drop (slice_index (length a) i) a.

Module np.

(** [np.zeros(shape, dtype)] *)
Definition zeros (sh : list nat) : ndarray float :=
  mk_ndarray sh (replicate (size_of sh) Float.pos_zero).

(** [np.array(values, dtype=d)] of a list of Python floats *)
Definition array (d : dtype) (values : list float) : list float :=
  Float.round_to d <$> values.

(** [a.astype(d)] *)
Definition astype (d : dtype) (a : list float) : list float :=
  Float.round_to d <$> a.

(** [arr[mask] = v] for a boolean [mask]: the shape of the mask has to
    be a prefix of the shape of the array (else IndexError); entry [k] of
    the array is replaced when the mask holds True at the position of the
    block it belongs to.  With equal shapes the blocks are single
    entries. *)
Definition setitem_mask {A} (arr : ndarray A) (mask : ndarray bool) (v : A)
  : option (ndarray A) :=
  let rest := drop (length (shape mask)) (shape arr) in
  if decide (shape arr = shape mask ++ rest) then
    let blk := size_of rest in
    Some (mk_ndarray (shape arr)
            (imap (fun k x =>
                     if default false (data mask !! (k / blk)) then v else x)
                  (data arr)))
  else None.

(** [m[:, i] = v] on a two-dimensional array: [v] must have one entry
    per row, or a single entry that is broadcast (else ValueError). *)
Definition setitem_column {A} (m : ndarray A) (i : nat) (v : list A)
  : option (ndarray A) :=
  match shape m with
  | [rows; cols] =>
      if decide (length v = rows \/ length v = 1) then
        Some (mk_ndarray (shape m)
                (imap (fun k x =>
                         if decide (k mod cols = i) then
                           default x (v !! (if decide (length v = 1) then 0 else k / cols))
                         else x)
                      (data m)))
      else None
  | _ => None
  end.

Section Reductions.
Variable d : dtype.

(** The sum of a contiguous vector as NumPy computes it (pairwise
    summation): a plain loop below 8 entries, eight running sums up to
    128 entries, halves (cut at a multiple of 8) above. *)
Definition sum_loop (acc : float) (a : list float) : float :=
  fold_left (Float.add d) a acc.

Fixpoint unrolled (r : list float) (a : list float) (n : nat) : list float :=
  match n with
  | O => r
  | S n' => unrolled (zip_with (Float.add d) r (take 8 a)) (drop 8 a) n'
  end.

Definition sum_block (a : list float) : float :=
  let n := length a in
  let r := unrolled (take 8 a) (drop 8 a) (n / 8 - 1) in
  let r_ i := default Float.pos_zero (r !! i) in
  let res :=
    Float.add d (Float.add d (Float.add d (r_ 0) (r_ 1)) (Float.add d (r_ 2) (r_ 3)))
                (Float.add d (Float.add d (r_ 4) (r_ 5)) (Float.add d (r_ 6) (r_ 7))) in
  sum_loop res (drop (n - n mod 8) a).

Fixpoint pairwise_sum (fuel : nat) (a : list float) : float :=
  let n := length a in
  if n <? 8 then sum_loop Float.neg_zero a
  else if n <=? 128 then sum_block a
  else
    match fuel with
    | O => sum_block a
    | S fuel' =>
        let n2 := n / 2 - (n / 2) mod 8 in
        Float.add d (pairwise_sum fuel' (take n2 a)) (pairwise_sum fuel' (drop n2 a))
    end.

(** [np.add.reduce]: the result starts as the identity of the sum, [0.0],
    and the pairwise sum is added to it (the length of the array is fuel
    enough: the halves get shorter).  So the sum of negative zeros is
    [0.0]. *)
Definition add_reduce (a : list float) : float :=
  Float.add d Float.pos_zero (pairwise_sum (length a) a).

(** Division of a reduction by the count of items: NumPy divides the
    scalar by the integer count and converts the quotient back to the
    dtype of the array. *)
Definition div_count (ret : float) (rcount : nat) : float :=
  Float.round_to d
    (Float.div float64 (Float.round_to float64 ret) (Float.of_Z float64 (Z.of_nat rcount))).

(** [np.mean(a)] over all entries *)
Definition mean (a : list float) : float :=
  div_count (add_reduce a) (length a).

(** [np.var(a)]: the mean of the squared deviations from the mean *)
Definition var (a : list float) : float :=
  let arrmean := div_count (add_reduce a) (length a) in
  let x := (fun v => Float.sub d v arrmean) <$> a in
  let x := (fun v => Float.mul d v v) <$> x in
  div_count (add_reduce x) (length a).

(** [np.std(a)] *)
Definition std (a : list float) : float := Float.sqrt d (var a).

(** [np.minimum] of two scalars: a NaN wins. *)
Definition minimum (a b : float) : float :=
  if Float.isnan a then a else if Float.ltb a b then a else b.

(** [np.maximum] of two scalars: a NaN wins. *)
Definition maximum (a b : float) : float :=
  if Float.isnan a then a else if Float.ltb b a then a else b.

(** [np.min(a)]: no identity, an empty array raises ValueError. *)
Definition amin (a : list float) : option float :=
  match a with
  | [] => None
  | x :: a' => Some (fold_left minimum a' x)
  end.

(** [np.max(a)] *)
Definition amax (a : list float) : option float :=
  match a with
  | [] => None
  | x :: a' => Some (fold_left maximum a' x)
  end.

End Reductions.

End np.

(** ** First notebook: [filter_and_replace]

    The function receives a reference to an array object; [heap] maps the
    references to the arrays they hold.  [condition] is the callable that
    maps the array to its boolean mask (such as [lambda x: x < 0]). *)

Definition loc : Type := positive.

Definition filter_and_replace {A} (arr : loc)
    (condition : ndarray A -> ndarray bool) (new_value : A)
    (heap : gmap loc (ndarray A)) : result loc * gmap loc (ndarray A) :=
  match heap !! arr with
  | None => (Error NameError, heap)
  | Some a =>
      (* arr[condition(arr)] = new_value *)
      match np.setitem_mask a (condition a) new_value with
      | None => (Error IndexError, heap)
      | Some a' =>
          (* return arr *)
          (Ok arr, <[arr := a']> heap)
      end
  end.

(** The mask an entry-wise predicate yields: same shape, the predicate at
    every entry. *)
Definition elementwise {A} (p : A -> bool) (a : ndarray A) : ndarray bool :=
  mk_ndarray (shape a) (p <$> data a).

(** ** Second notebook: the Monte Carlo demo *)

(** *** The pseudo-random generator

    [np.random.Generator] as the program uses it: a state, and draws that
    advance it.  [normal mu sigma n] is [rng.normal(mu, sigma, n)], an array
    of [n] draws; [normal1] and [uniform] are the scalar draws
    [rng.normal(mu, sigma)] and [rng.uniform(low, high)]; [default_rng] is
    [np.random.default_rng(seed=...)]. *)
Class Generator (G : Type) : Type := {
  default_rng : Z -> G;
  normal : float -> float -> nat -> G -> list float * G;
  normal1 : float -> float -> G -> float * G;
  uniform : float -> float -> G -> float * G;
  normal_length : forall mu sigma n g, length (fst (normal mu sigma n g)) = n
}.

(** *** [SimulationConfig] *)

Record SimulationConfig : Type := mk_SimulationConfig {
  n_simulations : Z;
  batch_size : Z;
  n_variables : Z;
  confidence_level : float;
  optimization_target : float;
  max_memory_usage : Z;
  config_dtype : dtype
}.

(** [SimulationConfig()] *)
Definition SimulationConfig_init : SimulationConfig := {|
  n_simulations := 40000;
  batch_size := 1000;
  n_variables := 4;
  confidence_level :=
    Float.div float64 (Float.of_Z float64 95) (Float.of_Z float64 100);
  optimization_target := Float.of_Z float64 1;
  max_memory_usage := 14 * 1024 * 1024 * 1024;
  config_dtype := float32
|}.

(** *** [OptimizedNormalDistribution]

    The fields of the object, except [rng]: the generator is the one object
    the engine and all its distributions share, so its state is kept once,
    next to the distributions, and threaded through every call. *)
Record OptimizedNormalDistribution : Type := mk_OptimizedNormalDistribution {
  mu : float;
  sigma : float;
  dist_dtype : dtype;
  _cached_samples : option (list float);
  _cache_size : Z
}.

(** [OptimizedNormalDistribution(mu, sigma, rng, dtype)] *)
Definition OptimizedNormalDistribution_init (mu sigma : float) (dtype : dtype)
  : OptimizedNormalDistribution := {|
  mu := mu;
  sigma := sigma;
  dist_dtype := dtype;
  _cached_samples := None;
  _cache_size := 5000
|}.

Section Sampling.
Context {G : Type} `{Generator G}.

(** Does [sample] refill the cache?
    [self._cached_samples is None or len(self._cached_samples) < size] *)
Definition needs_refill (self : OptimizedNormalDistribution) (size : Z) : bool :=
  match _cached_samples self with
  | None => true
  | Some c => (Z.of_nat (length c) <? size)%Z
  end.

(** The block the refill draws:
    [self.rng.normal(self.mu, self.sigma, self._cache_size).astype(self.dtype)] *)
Definition fresh_block (self : OptimizedNormalDistribution) (rng : G) : list float * G :=
  let '(draws, rng') := normal (mu self) (sigma self) (Z.to_nat (_cache_size self)) rng in
  (np.astype (dist_dtype self) draws, rng').

(** The cache [sample] slices, after the refill if there is one, and the
    state of the generator then. *)
Definition refilled (self : OptimizedNormalDistribution) (size : Z) (rng : G)
  : list float * G :=
  if needs_refill self size then fresh_block self rng
  else (default [] (_cached_samples self), rng).

(** [OptimizedNormalDistribution.sample(size)]: the array returned, the
    object and the generator after the call. *)
Definition sample (self : OptimizedNormalDistribution) (size : Z) (rng : G)
  : list float * OptimizedNormalDistribution * G :=
  let '(cache, rng') := refilled self size rng in
  let result := slice_to cache size in
  let self' := {|
    mu := mu self; sigma := sigma self; dist_dtype := dist_dtype self;
    _cached_samples := Some (slice_from cache size);
    _cache_size := _cache_size self |} in
  (result, self', rng').

End Sampling.

(** *** What a run leaves outside the engine: log lines and the pool

    [logger.info] appends a line to the log; entering and leaving the
    [with ThreadPoolExecutor(...)] block creates the pool and shuts it down;
    [ExecutorSubmit] is a task handed to the pool ([executor.submit] or
    [executor.map]). *)
Inductive log_message : Type :=
| Iniciando
| Processando (lote n_batches : Z).

Inductive event : Type :=
| LogInfo (msg : log_message)
| ExecutorEnter (max_workers : Z)
| ExecutorSubmit (task : nat)
| ExecutorExit.

Definition is_submit (ev : event) : bool :=
  match ev with ExecutorSubmit _ => true | _ => false end.

Definition is_pool_event (ev : event) : bool :=
  match ev with LogInfo _ => false | _ => true end.

(** *** [MemoryAwareMonteCarloEngine] *)

Record MemoryAwareMonteCarloEngine (G : Type) : Type := mk_Engine {
  config : SimulationConfig;
  rng : G;
  results_queue_maxsize : Z;
  distributions : list OptimizedNormalDistribution
}.
Arguments mk_Engine {G} config rng results_queue_maxsize distributions.
Arguments config {G} _.
Arguments rng {G} _.
Arguments results_queue_maxsize {G} _.
Arguments distributions {G} _.

(** A method of the engine: from the object before the call to the events
    emitted, the result and the object after the call. *)
Definition M (G A : Type) : Type :=
  MemoryAwareMonteCarloEngine G -> list event * result A * MemoryAwareMonteCarloEngine G.

Definition ret {G A} (a : A) : M G A := fun self => ([], Ok a, self).

Definition bind {G A B} (c : M G A) (k : A -> M G B) : M G B :=
  fun self =>
    match c self with
    | (evs, Ok a, self') =>
        let '(evs', r, self'') := k a self' in (evs ++ evs', r, self'')
    | (evs, Error e, self') => (evs, Error e, self')
    end.

Definition raise {G A} (e : exn) : M G A := fun self => ([], Error e, self).

Definition emit {G} (ev : event) : M G unit := fun self => ([ev], Ok tt, self).

Definition get {G} : M G (MemoryAwareMonteCarloEngine G) := fun self => ([], Ok self, self).

Declare Scope engine_scope.
Delimit Scope engine_scope with engine.
Notation "x <- c ;; k" := (bind c (fun x => k))
  (at level 100, c at next level, right associativity) : engine_scope.
Notation "c ;;; k" := (bind c (fun _ => k))
  (at level 100, right associativity) : engine_scope.

(** [for x in l: acc = body(x, acc)] *)
Fixpoint for_in {G A B} (l : list A) (body : A -> B -> M G B) (acc : B) : M G B :=
  match l with
  | [] => ret acc
  | x :: l' => bind (body x acc) (for_in l' body)
  end.

(** [with ThreadPoolExecutor(max_workers=n) as executor: body]: the pool is
    shut down when the block is left, by a return or by an exception. *)
Definition with_ThreadPoolExecutor {G A} (max_workers : Z) (body : M G A) : M G A :=
  fun self =>
    let '(evs, r, self') := body self in
    (ExecutorEnter max_workers :: evs ++ [ExecutorExit], r, self').

(** [logger.info(msg)] *)
Definition logger_info {G} (msg : log_message) : M G unit := emit (LogInfo msg).

(** A batch's metrics and the aggregate metrics are Python dicts from
    strings to floats. *)
Abbreviation dict := (gmap string float).

Section Engine.
Context {G : Type} `{Generator G}.

Local Open Scope engine_scope.

(** [_initialize_distributions]: [n] more turns of the loop
    [for _ in range(self.config.n_variables)]. *)
Fixpoint initialize_loop (n : nat) (self : MemoryAwareMonteCarloEngine G)
  : MemoryAwareMonteCarloEngine G :=
  match n with
  | O => self
  | S n' =>
      let '(mu, rng1) :=
        normal1 (Float.of_Z float64 0) (Float.of_Z float64 1) (rng self) in
      let '(sigma, rng2) :=
        uniform (Float.div float64 (Float.of_Z float64 1) (Float.of_Z float64 2))
                (Float.of_Z float64 2) rng1 in
      initialize_loop n'
        (mk_Engine (config self) rng2 (results_queue_maxsize self)
           (distributions self ++
              [OptimizedNormalDistribution_init mu sigma (config_dtype (config self))]))
  end.

Definition _initialize_distributions (self : MemoryAwareMonteCarloEngine G)
  : MemoryAwareMonteCarloEngine G :=
  initialize_loop (Z.to_nat (n_variables (config self))) self.

(** [MemoryAwareMonteCarloEngine(config)] *)
Definition MemoryAwareMonteCarloEngine_init (config : SimulationConfig)
  : MemoryAwareMonteCarloEngine G :=
  _initialize_distributions (mk_Engine config (default_rng 42) 100 []).

(** [self.distributions[i].sample(size)]: the call mutates the
    distribution and the generator all of them share.  The array comes
    with its dtype. *)
Definition dist_sample (i : nat) (size : Z) : M G (dtype * list float) :=
  fun self =>
    match distributions self !! i with
    | None => ([], Error IndexError, self)
    | Some dist =>
        let '(result, dist', rng') := sample dist size (rng self) in
        ([], Ok (dist_dtype dist, result),
         mk_Engine (config self) rng' (results_queue_maxsize self)
           (<[i := dist']> (distributions self)))
    end.

(** [results[:, i] = values]: values of another dtype are converted to
    the dtype of [results]. *)
Definition assign_column (d : dtype) (results : ndarray float) (i : nat)
    (values : dtype * list float) : M G (ndarray float) :=
  let v := if decide (values.1 = d) then values.2 else np.astype d values.2 in
  match np.setitem_column results i v with
  | Some results' => ret results'
  | None => raise ValueError
  end.

(** [_simulate_batch(batch_size)] *)
Definition _simulate_batch (batch_size : Z) : M G (ndarray float) :=
  self <- get ;;
  let d := config_dtype (config self) in
  let n := length (distributions self) in
  if (batch_size <? 0)%Z then raise ValueError
  else
    let results := np.zeros [Z.to_nat batch_size; n] in
    for_in (seq 0 n)
      (fun i results =>
         values <- dist_sample i batch_size ;;
         assign_column d results i values)
      results.

(** [_process_batch(batch_data)] *)
Definition _process_batch (d : dtype) (batch_data : ndarray float) : dict :=
  <["mean" := Float.py_float (np.mean d (data batch_data))]>
    (<["std" := Float.py_float (np.std d (data batch_data))]>
       (<["var" := Float.py_float (np.var d (data batch_data))]> ∅)).

(** [a // b] on Python integers *)
Definition floordiv (a b : Z) : M G Z :=
  if (b =? 0)%Z then raise ZeroDivisionError else ret (a / b)%Z.

(** One turn of the loop over [batch_idx] in [run_simulation]. *)
Definition batch_turn (n_batches : Z) (batch_idx : nat) (results : list dict)
  : M G (list dict) :=
  (if (Z.of_nat batch_idx mod 10 =? 0)%Z
   then logger_info (Processando (Z.of_nat batch_idx + 1) n_batches)
   else ret tt) ;;;
  self <- get ;;
  batch_data <- _simulate_batch (batch_size (config self)) ;;
  let metrics := _process_batch (config_dtype (config self)) batch_data in
  ret (results ++ [metrics]).

(** [run_simulation()] *)
Definition run_simulation : M G (list dict) :=
  logger_info Iniciando ;;;
  self <- get ;;
  let results := [] in
  n_batches <- floordiv (n_simulations (config self)) (batch_size (config self)) ;;
  with_ThreadPoolExecutor 4
    (for_in (seq 0 (Z.to_nat n_batches)) (batch_turn n_batches) results).

(** The same loop as a plain sequential loop, the executor removed. *)
Definition run_simulation_sequential : M G (list dict) :=
  logger_info Iniciando ;;;
  self <- get ;;
  let results := [] in
  n_batches <- floordiv (n_simulations (config self)) (batch_size (config self)) ;;
  for_in (seq 0 (Z.to_nat n_batches)) (batch_turn n_batches) results.

(** The batches of [n] consecutive calls of [_simulate_batch], in the order
    of the calls (up to the first call that raises). *)
Fixpoint batches_from (n : nat) (batch_size : Z) (self : MemoryAwareMonteCarloEngine G)
  : list (ndarray float) :=
  match n with
  | O => []
  | S n' =>
      match _simulate_batch batch_size self with
      | (_, Ok batch_data, self') => batch_data :: batches_from n' batch_size self'
      | (_, Error _, _) => []
      end
  end.

(** A sequence of calls [self.distributions[i].sample(size)], and the
    arrays they return. *)
Fixpoint sample_calls (calls : list (nat * Z)) : M G (list (list float)) :=
  match calls with
  | [] => ret []
  | (i, size) :: calls' =>
      values <- dist_sample i size ;;
      rest <- sample_calls calls' ;;
      ret (values.2 :: rest)
  end.

End Engine.

(** *** [MemoryEfficientAnalyzer] *)

Record MemoryEfficientAnalyzer : Type := mk_Analyzer {
  results : list dict;
  analyzer_config : SimulationConfig
}.

(** [r[key]] *)
Definition getitem (r : dict) (key : string) : result float :=
  match r !! key with
  | Some v => Ok v
  | None => Error (KeyError key)
  end.

(** [[r[key] for r in results]] *)
Fixpoint comprehension (key : string) (results : list dict) : result (list float) :=
  match results with
  | [] => Ok []
  | r :: rest =>
      match getitem r key with
      | Error e => Error e
      | Ok v =>
          match comprehension key rest with
          | Error e => Error e
          | Ok vs => Ok (v :: vs)
          end
      end
  end.

(** [compute_aggregate_metrics()] *)
Definition compute_aggregate_metrics (self : MemoryEfficientAnalyzer) : result dict :=
  let d := config_dtype (analyzer_config self) in
  match comprehension "mean" (results self) with
  | Error e => Error e
  | Ok means_list =>
      let means := np.array d means_list in
      match comprehension "std" (results self) with
      | Error e => Error e
      | Ok stds_list =>
          let stds := np.array d stds_list in
          let overall_mean := Float.py_float (np.mean d means) in
          let overall_std := Float.py_float (np.mean d stds) in
          match np.amin means with
          | None => Error ValueError
          | Some mn =>
              match np.amax means with
              | None => Error ValueError
              | Some mx =>
                  Ok (<["overall_mean" := overall_mean]>
                        (<["overall_std" := overall_std]>
                           (<["min_value" := Float.py_float mn]>
                              (<["max_value" := Float.py_float mx]> ∅))))
              end
          end
      end
  end.

(** A BatchMetrics record, and the dict [_process_batch] builds for it. *)
Record BatchMetrics : Type := mk_BatchMetrics {
  bm_mean : float;
  bm_std : float;
  bm_var : float
}.

Definition BatchMetrics_dict (b : BatchMetrics) : dict :=
  <["mean" := bm_mean b]> (<["std" := bm_std b]> (<["var" := bm_var b]> ∅)).

(** The dict [compute_aggregate_metrics] builds: [np.mean] of the array of
    means, [np.mean] of the array of standard deviations, and the minimum
    and the maximum found in the array of means. *)
Definition aggregate_metrics_spec (d : dtype) (means stds : list float) (mn mx : float) : dict :=
  <["overall_mean" := np.mean d means]>
    (<["overall_std" := np.mean d stds]>
       (<["min_value" := mn]>
          (<["max_value" := mx]> ∅))).

(** [min_value <= overall_mean <= max_value] on a dict of aggregate
    metrics. *)
Definition mean_within_min_max (metrics : dict) : Prop :=
  exists mn m mx,
    metrics !! "min_value" = Some mn /\
    metrics !! "overall_mean" = Some m /\
    metrics !! "max_value" = Some mx /\
    Float.leb mn m = true /\ Float.leb m mx = true.

(** The sum of the rationals a list of floats denotes. *)
Definition exact_sum (l : list float) : Q :=
  fold_right (fun x acc => Qplus (Float.to_Q x) acc) 0%Q l.

(** The mean, std and var of a batch's metrics are all finite. *)
Definition finite_metrics (metrics : dict) : Prop :=
  forall key, key ∈ ["mean"; "std"; "var"] ->
    exists v, metrics !! key = Some v /\ Float.isfinite v = true.

(** ** A small generator to run the model on examples

    The state is a counter; draw [k] is [mu + sigma * z] with [z] cycling
    through -1, -1/2, 0, 1/2, 1; a uniform draw is the middle of the range. *)
Module CounterRng.

Definition table_draw (k : Z) : float :=
  Float.div float64 (Float.of_Z float64 (k mod 5 - 2)) (Float.of_Z float64 2).

Definition draw (mu sigma : float) (k : Z) : float :=
  Float.add float64 mu (Float.mul float64 sigma (table_draw k)).

Definition draws (mu sigma : float) (n : nat) (g : Z) : list float * Z :=
  ((fun k => draw mu sigma (g + Z.of_nat k)) <$> seq 0 n, (g + Z.of_nat n)%Z).

#[global] Instance counter_rng : Generator Z := {|
  default_rng seed := seed;
  normal := draws;
  normal1 mu sigma g := (draw mu sigma g, (g + 1)%Z);
  uniform low high g :=
    (Float.div float64 (Float.add float64 low high) (Float.of_Z float64 2), (g + 1)%Z);
  normal_length mu sigma n g := eq_trans (length_fmap _ _) (length_seq _ _)
|}.

End CounterRng.

(** ** Invariants of a run *)

(** A computation is quiet when the events it emits are log lines only. *)
Definition quiet {G A} (c : M G A) : Prop :=
  forall self, Forall (fun ev => is_pool_event ev = false) (c self).1.1.

(** What a run keeps true of a distribution of an engine configured by
    [cfg]: blocks of 5000 draws, the dtype of the configuration, parameters
    that satisfy [R] (a property of the parameters the constructor draws)
    and cached entries that all satisfy [P] (a property of the generator's
    draws for such parameters). *)
Definition dist_inv (cfg : SimulationConfig) (R : float -> float -> Prop)
    (P : float -> Prop) (dist : OptimizedNormalDistribution) : Prop :=
  _cache_size dist = 5000%Z /\
  dist_dtype dist = config_dtype cfg /\
  R (mu dist) (sigma dist) /\
  forall c, _cached_samples dist = Some c -> Forall P c.

Definition engine_inv {G} (cfg : SimulationConfig) (R : float -> float -> Prop)
    (P : float -> Prop) (n : nat) (self : MemoryAwareMonteCarloEngine G) : Prop :=
  config self = cfg /\
  length (distributions self) = n /\
  Forall (dist_inv cfg R P) (distributions self).

(** The batch under construction: its shape, and the columns already
    assigned hold draws. *)
Definition batch_inv (P : float -> Prop) (rows cols : nat) (filled : list nat)
    (m : ndarray float) : Prop :=
  shape m = [rows; cols] /\
  length (data m) = rows * cols /\
  forall k x, data m !! k = Some x -> k mod cols ∈ filled -> P x.

(** A finished batch: [rows * cols] entries, all of them draws. *)
Definition batch_ok (P : float -> Prop) (rows cols : nat) (m : ndarray float) : Prop :=
  shape m = [rows; cols] /\ length (data m) = rows * cols /\ Forall P (data m).

(** ** Statements and inputs the theorems refer to *)

(** [run_simulation] on the engine of [cfg] returns
    [floor(n_simulations / batch_size)] entries, all finite. *)
Definition run_simulation_claim (G : Type) `{Generator G} (cfg : SimulationConfig) : Prop :=
  exists evs metrics self',
    run_simulation (MemoryAwareMonteCarloEngine_init (G := G) cfg) = (evs, Ok metrics, self') /\
    Z.of_nat (length metrics) = (n_simulations cfg / batch_size cfg)%Z /\
    Forall finite_metrics metrics.

(** The configuration of [SimulationConfig()] with other sizes. *)
Definition config_with (n_simulations batch_size n_variables : Z) : SimulationConfig :=
  mk_SimulationConfig n_simulations batch_size n_variables
    (confidence_level SimulationConfig_init) (optimization_target SimulationConfig_init)
    (max_memory_usage SimulationConfig_init) float32.

(** The float32 number 14680066 * 2^-23 = 1.7500002384185791015625, and
    three batches that all have it as their mean. *)
Definition mean_1_75 : float := S754_finite false 14680066 (-23).

Definition three_equal_batches : list BatchMetrics :=
  [mk_BatchMetrics mean_1_75 Float.pos_zero Float.pos_zero;
   mk_BatchMetrics mean_1_75 Float.pos_zero Float.pos_zero;
   mk_BatchMetrics mean_1_75 Float.pos_zero Float.pos_zero].

(** A heap with one 2 x 2 array of integers at reference 1. *)
Definition example_array : ndarray Z := mk_ndarray [2; 2] [3; -1; -4; 5]%Z.

Definition example_heap : gmap loc (ndarray Z) := {[ 1%positive := example_array ]}.

Definition negative (x : Z) : bool := (x <? 0)%Z.

(** The log line of turn [batch_idx] of the loop of [run_simulation]: every
    tenth batch is announced. *)
Definition progress_line (n_batches : Z) (batch_idx : nat) : list event :=
  if (Z.of_nat batch_idx mod 10 =? 0)%Z
  then [LogInfo (Processando (Z.of_nat batch_idx + 1) n_batches)]
  else [].

Fixpoint progress_lines (n_batches : Z) (l : list nat) : list event :=
  match l with
  | [] => []
  | batch_idx :: l' => progress_line n_batches batch_idx ++ progress_lines n_batches l'
  end.

(** ** More of the notebooks *)

(** [k] consecutive calls [self.sample(size)] on one distribution: the
    arrays returned, the distribution and the generator after the last
    call. *)
Fixpoint sample_times {G : Type} `{Generator G} (k : nat) (size : Z)
    (self : OptimizedNormalDistribution) (rng : G)
  : list (list float) * OptimizedNormalDistribution * G :=
  match k with
  | O => ([], self, rng)
  | S k' =>
      let '(result, self', rng') := sample self size rng in
      let '(rest, self'', rng'') := sample_times k' size self' rng' in
      (result :: rest, self'', rng'')
  end.

(** The generator after [j] blocks [rng.normal(mu, sigma, n)] were drawn. *)
Definition draw_blocks {G : Type} `{Generator G} (mu sigma : float) (n j : nat) (rng : G) : G :=
  Nat.iter j (fun g => (normal mu sigma n g).2) rng.

(** [m[:, i]]: column [i] of a two-dimensional array. *)
Definition column {A} (m : ndarray A) (i : nat) : list A :=
  match shape m with
  | [rows; cols] => omap (fun r => data m !! (r * cols + i)) (seq 0 rows)
  | _ => []
  end.

(** The number of draws of a block: [_cache_size], as the constructor sets
    it. *)
Definition block : nat := Z.to_nat 5000.

(** Where a distribution stands when every call asks for [s] values:
    [t] calls have been served from the current block ([1 <= t <= q], with
    [q] the number of calls a block serves); a cache that is absent counts
    as a block that is used up. *)
Definition phase (s q t : nat) (mu0 sigma0 : float) (d : dtype)
    (self : OptimizedNormalDistribution) : Prop :=
  mu self = mu0 /\ sigma self = sigma0 /\ dist_dtype self = d /\
  _cache_size self = 5000%Z /\
  1 <= t <= q /\
  ((t = q /\ _cached_samples self = None) \/
   exists c, _cached_samples self = Some c /\ length c = block - s * t).

(** The distributions of the engine have the block size and the dtype the
    constructor gives them. *)
Definition distributions_ok {G : Type} (self : MemoryAwareMonteCarloEngine G) : Prop :=
  Forall (fun dist => _cache_size dist = 5000%Z /\
                      dist_dtype dist = config_dtype (config self))
         (distributions self).

(** Two engines in the same state, but for the settings no method reads:
    the same generator and distributions, and configurations with the same
    number of simulations, batch size and dtype. *)
Definition same_state {G : Type} (e1 e2 : MemoryAwareMonteCarloEngine G) : Prop :=
  rng e1 = rng e2 /\
  distributions e1 = distributions e2 /\
  n_simulations (config e1) = n_simulations (config e2) /\
  batch_size (config e1) = batch_size (config e2) /\
  config_dtype (config e1) = config_dtype (config e2).

(** Two computations that do the same on engines in the same state. *)
Definition agree {G A : Type} (c1 c2 : M G A) : Prop :=
  forall e1 e2, same_state e1 e2 ->
    (c1 e1).1 = (c2 e2).1 /\ same_state (c1 e1).2 (c2 e2).2.

(** [lambda x: x < 0], the condition of the notebook's call of
    [filter_and_replace], on one entry. *)
Definition below_zero (x : float) : bool := Float.ltb x (Float.of_Z float64 0).

(** A distribution with three values left in its cache. *)
Definition example_distribution : OptimizedNormalDistribution :=
  mk_OptimizedNormalDistribution (Float.of_Z float64 0) (Float.of_Z float64 1) float32
    (Some [Float.of_Z float32 1; Float.of_Z float32 2; Float.of_Z float32 3]) 5000.

(** An engine with one distribution and batches of 6000 rows. *)
Definition example_engine : MemoryAwareMonteCarloEngine Z :=
  mk_Engine (config_with 12000 6000 2) (default_rng 42) 100
    [OptimizedNormalDistribution_init (Float.of_Z float64 0) (Float.of_Z float64 1) float32].

(** The configuration of the notebook with no memory to use at all. *)
Definition config_without_memory : SimulationConfig :=
  mk_SimulationConfig 40000 1000 4
    (confidence_level SimulationConfig_init) (optimization_target SimulationConfig_init)
    0 float32.

(** A heap with one array of two floats, -1 and 2, at reference 1. *)
Definition example_float_heap : gmap loc (ndarray float) :=
  {[ 1%positive := mk_ndarray [2] [Float.of_Z float64 (-1); Float.of_Z float64 2] ]}.

(** *** [plot_results]

    The calls the method makes on [matplotlib.pyplot], with their
    arguments, in order. *)
Inductive plt_call : Type :=
| plt_figure (figsize : Z * Z)
| plt_hist (x : list float) (bins : Z) (density : bool) (alpha : float)
| plt_title (label : string)
| plt_xlabel (label : string)
| plt_ylabel (label : string)
| plt_grid (visible : bool) (alpha : float)
| plt_show.

(** What [pyplot] does with a call is matplotlib's behaviour (and, for the
    bins of a histogram, NumPy's), not code of the notebooks.  [plt.hist]
    takes the range of its bins from the data, leaving the NaN entries out:
    an infinite entry makes the range infinite, data that are all NaN give
    no range at all, and in both cases [np.histogram] raises ValueError;
    empty data get the range (0, 1).  The other calls return. *)
Definition is_infinite (x : float) : bool :=
  match x with S754_infinity _ => true | _ => false end.

Definition hist_range_error (x : list float) : bool :=
  existsb is_infinite x ||
  match x with
  | [] => false
  | _ => forallb Float.isnan x
  end.

Definition plt_raises (call : plt_call) : option exn :=
  match call with
  | plt_hist x _ _ _ => if hist_range_error x then Some ValueError else None
  | _ => None
  end.

(** Statements that are calls on [pyplot], one after the other: the calls
    made, up to and including the first one that raises, and the outcome. *)
Fixpoint pyplot (calls : list plt_call) : list plt_call * result unit :=
  match calls with
  | [] => ([], Ok tt)
  | call :: rest =>
      match plt_raises call with
      | Some e => ([call], Error e)
      | None => let '(made, r) := pyplot rest in (call :: made, r)
      end
  end.

(** The calls of [plot_results] for the array [means]. *)
Definition plot_calls (means : list float) : list plt_call :=
  [plt_figure (10, 6)%Z;
   plt_hist means 50 true
     (Float.div float64 (Float.of_Z float64 7) (Float.of_Z float64 10));
   plt_title "Distribuição das Médias";
   plt_xlabel "Valor";
   plt_ylabel "Densidade";
   plt_grid true
     (Float.div float64 (Float.of_Z float64 3) (Float.of_Z float64 10));
   plt_show].

(** [plot_results()]: the calls made on [pyplot] and the outcome. *)
Definition plot_results (self : MemoryEfficientAnalyzer) : list plt_call * result unit :=
  let d := config_dtype (analyzer_config self) in
  match comprehension "mean" (results self) with
  | Error e => ([], Error e)
  | Ok means_list =>
      let means := np.array d means_list in
      pyplot (plot_calls means)
  end.

(** *** [main]

    What [main] leaves behind: the events of the run, the log lines of the
    summary (the message with the elapsed time, the heading, one line per
    metric) and the calls of the plot. *)
Inductive main_event : Type :=
| RunEvent (ev : event)
| LogConcluida (total_time : float)
| LogMetricasFinais
| LogMetric (key : string) (value : float)
| Plt (call : plt_call).

(** The keys of the dict [compute_aggregate_metrics] builds, in the order
    of its literal, which is the order in which a Python dict is iterated. *)
Definition aggregate_keys : list string :=
  ["overall_mean"; "overall_std"; "min_value"; "max_value"].

(** [metrics.items()] *)
Definition items (keys : list string) (metrics : dict) : list (string * float) :=
  omap (fun key => (fun value => (key, value)) <$> metrics !! key) keys.

(** [main()]; [start_time] and [end_time] are the two readings of the
    clock ([time.time()]), before the run and after the analysis. *)
Definition main {G : Type} `{Generator G} (start_time end_time : float)
  : list main_event * result unit :=
  let config := SimulationConfig_init in
  let engine := MemoryAwareMonteCarloEngine_init (G := G) config in
  let '(evs, r, _) := run_simulation engine in
  match r with
  | Error e => (RunEvent <$> evs, Error e)
  | Ok results =>
      let analyzer := mk_Analyzer results config in
      match compute_aggregate_metrics analyzer with
      | Error e => (RunEvent <$> evs, Error e)
      | Ok metrics =>
          let total_time := Float.sub float64 end_time start_time in
          let summary :=
            [LogConcluida total_time; LogMetricasFinais] ++
            ((fun kv => LogMetric kv.1 kv.2) <$> items aggregate_keys metrics) in
          let '(calls, outcome) := plot_results analyzer in
          ((RunEvent <$> evs) ++ summary ++ (Plt <$> calls), outcome)
      end
  end.

(** The sign bit of a float; a NaN counts as unsigned. *)
Definition sign_bit (x : float) : bool :=
  match x with
  | S754_zero s | S754_infinity s | S754_finite s _ _ => s
  | S754_nan => false
  end.

(** ** Rounding

    The finite numbers of a format, and the bound of the error of one
    rounding to nearest: the relative spacing of the format times the
    magnitude of the number rounded, plus the least positive number (which
    covers the numbers below the normal range). *)

Definition representable (d : dtype) (x : float) : bool :=
  Float.isfinite x && valid_binary (Float.prec d) (Float.emax d) x.

Definition spacing (d : dtype) : Q := 2 ^ (1 - Float.prec d).

Definition tiny (d : dtype) : Q := 2 ^ emin (Float.prec d) (Float.emax d).

Definition half_range (d : dtype) : Q := 2 ^ (Float.emax d - 1).

Definition rounding_error (d : dtype) (v : Q) : Q := spacing d * Qabs v + tiny d.

(** The sum of the magnitudes of the numbers a list of floats denotes. *)
Definition abs_sum (l : list float) : Q :=
  fold_right (fun x acc => Qplus (Qabs (Float.to_Q x)) acc) 0%Q l.

(** [summed d k X T s]: the float [s] is the result of [k] additions of
    the format [d] that add up numbers of the format, each taken once,
    whose exact sum is [X] and whose magnitudes sum to [T]. *)
Inductive summed (d : dtype) : nat -> Q -> Q -> float -> Prop :=
| summed_leaf (x : float) :
    representable d x = true ->
    summed d 0 (Float.to_Q x) (Qabs (Float.to_Q x)) x
| summed_add (k1 k2 : nat) (S1 T1 S2 T2 : Q) (s1 s2 : float) :
    summed d k1 S1 T1 s1 -> summed d k2 S2 T2 s2 ->
    summed d (S (k1 + k2)) (S1 + S2) (T1 + T2) (Float.add d s1 s2)
| summed_eq (k : nat) (X T X' T' : Q) (s : float) :
    X == X' -> T == T' -> summed d k X T s -> summed d k X' T' s.

(** The same for a list of running sums: the additions, the exact sums and
    the magnitudes are totalled over the list. *)
Inductive summed_all (d : dtype) : list float -> nat -> Q -> Q -> Prop :=
| summed_all_nil : summed_all d [] 0 0 0
| summed_all_cons (s : float) (rs : list float) (k K : nat) (X T X' T' : Q) :
    summed d k X T s -> summed_all d rs K X' T' ->
    summed_all d (s :: rs) (k + K) (X + X') (T + T')
| summed_all_eq (rs : list float) (K : nat) (X T X' T' : Q) :
    X == X' -> T == T' -> summed_all d rs K X T -> summed_all d rs K X' T'.

(** A bound of the distance between [np.mean] of [n] numbers of magnitude
    [A] at most and their exact average: [n + 5] roundings at magnitude
    [2 A] (one per addition and a few for the division), not the least
    bound. *)
Definition mean_error (d : dtype) (n : nat) (A : Q) : Q :=
  (inject_Z (Z.of_nat n) + 5) * spacing d * (2 * A + 4 * tiny d) + 6 * tiny d.

(** The arrays the bound is proved for: few enough entries for the
    roundings of the sum to stay small, and magnitudes far enough below
    the top of the range of [d]. *)
Definition mean_in_range (d : dtype) (n : nat) (A : Q) : Prop :=
  (0 <= A)%Q /\
  ((inject_Z (Z.of_nat n) + 1) * spacing d <= 1 # 2)%Q /\
  (4 * inject_Z (Z.of_nat n) * (A + 3 * tiny d) <= half_range d)%Q.

(** The batches the finiteness of the metrics is proved for: entries of
    magnitude [A] at most ([A] at least 1), few enough of them for the
    roundings of the sums to stay small, and the sum of their squares far
    enough below the top of the range of [d]. *)
Definition batch_in_range (d : dtype) (n : nat) (A : Q) : Prop :=
  (1 <= A)%Q /\
  ((inject_Z (Z.of_nat n) + 5) * spacing d <= 1 # 2)%Q /\
  (4096 * inject_Z (Z.of_nat n) * (A * A) <= half_range d)%Q.

(** A number of the format [d] of magnitude [A] at most. *)
Definition within (d : dtype) (A : Q) (x : float) : Prop :=
  representable d x = true /\ (Qabs (Float.to_Q x) <= A)%Q.

(** The arithmetic mean of the numbers a list of floats denotes. *)
Definition arithmetic_mean (l : list float) : Q :=
  exact_sum l / inject_Z (Z.of_nat (length l)).

(** The least and the greatest entry of a list of floats. *)
Definition is_minimum (mn : float) (l : list float) : Prop :=
  mn ∈ l /\ Forall (fun x => Float.leb mn x = true) l.

Definition is_maximum (mx : float) (l : list float) : Prop :=
  mx ∈ l /\ Forall (fun x => Float.leb x mx = true) l.

(** A dict of aggregate metrics. *)
Definition aggregate_dict (overall_mean overall_std min_value max_value : float) : dict :=
  <["overall_mean" := overall_mean]>
    (<["overall_std" := overall_std]>
       (<["min_value" := min_value]>
          (<["max_value" := max_value]> ∅))).

(** [compute_aggregate_metrics] on a list of BatchMetrics returns the mean
    of the per-batch means, the mean of the per-batch standard deviations,
    the minimum and the maximum of the per-batch means. *)
Definition aggregate_metrics_claim (cfg : SimulationConfig) (batches : list BatchMetrics) : Prop :=
  exists overall_mean overall_std min_value max_value,
    compute_aggregate_metrics (mk_Analyzer (BatchMetrics_dict <$> batches) cfg) =
      Ok (aggregate_dict overall_mean overall_std min_value max_value) /\
    Float.isfinite overall_mean = true /\
    Float.to_Q overall_mean == arithmetic_mean (bm_mean <$> batches) /\
    Float.isfinite overall_std = true /\
    Float.to_Q overall_std == arithmetic_mean (bm_std <$> batches) /\
    is_minimum min_value (bm_mean <$> batches) /\
    is_maximum max_value (bm_mean <$> batches).

(** The parameters the constructor draws from the small generator: a mean
    out of five and the standard deviation 1.25. *)
Definition counter_parameters (mu sigma : float) : Prop :=
  (exists k : Z, (0 <= k < 5)%Z /\
     mu = CounterRng.draw (Float.of_Z float64 0) (Float.of_Z float64 1) k) /\
  sigma = Float.div float64
            (Float.add float64
               (Float.div float64 (Float.of_Z float64 1) (Float.of_Z float64 2))
               (Float.of_Z float64 2))
            (Float.of_Z float64 2).

(** ** A generator of huge draws

    Every draw of an array is 2^127, a finite number of float32 and of
    float64; the scalar draws are 0 and 1. *)
Module HugeRng.

Definition huge : float := S754_finite false 8388608 104.

#[global] Instance huge_rng : Generator unit := {|
  default_rng seed := tt;
  normal mu sigma n g := (replicate n huge, g);
  normal1 mu sigma g := (Float.pos_zero, g);
  uniform low high g := (Float.of_Z float64 1, g);
  normal_length mu sigma n g := length_replicate n huge
|}.

End HugeRng.

(** * Properties *)

(** ** Slices *)

Lemma slice_to_from {A} (a : list A) (i : Z) : slice_to a i ++ slice_from a i = a.
Proof. apply take_drop. Qed.

Lemma slice_to_nonneg {A} (a : list A) (i : Z) :
  (0 <= i)%Z -> slice_to a i = take (Z.to_nat i) a.
Proof.
  intros Hi. unfold slice_to, slice_index.
  destruct (Z.ltb_spec i 0) as [Hneg|_]; [lia|].
  destruct (Nat.le_ge_cases (Z.to_nat i) (length a)) as [Hle|Hge].
  - by rewrite Nat.min_l.
  - rewrite Nat.min_r by done. by rewrite !take_ge.
Qed.

Lemma slice_from_nonneg {A} (a : list A) (i : Z) :
  (0 <= i)%Z -> slice_from a i = drop (Z.to_nat i) a.
Proof.
  intros Hi. unfold slice_from, slice_index.
  destruct (Z.ltb_spec i 0) as [Hneg|_]; [lia|].
  destruct (Nat.le_ge_cases (Z.to_nat i) (length a)) as [Hle|Hge].
  - by rewrite Nat.min_l.
  - rewrite Nat.min_r by done. by rewrite !drop_ge.
Qed.

Lemma slice_to_length {A} (a : list A) (i : Z) :
  (0 <= i <= Z.of_nat (length a))%Z -> length (slice_to a i) = Z.to_nat i.
Proof.
  intros Hi. rewrite slice_to_nonneg by lia. rewrite length_take. lia.
Qed.

Lemma slice_from_length {A} (a : list A) (i : Z) :
  length (slice_from a i) <= length a.
Proof. unfold slice_from. rewrite length_drop. lia. Qed.

(** [a[:-1]] and [a[-1:]]; a bound beyond either end is clipped. *)
Example slice_negative_bound :
  slice_to [1; 2; 3] (-1)%Z = [1; 2] /\ slice_from [1; 2; 3] (-1)%Z = [3] /\
  slice_to [1; 2; 3] 5%Z = [1; 2; 3] /\ slice_to [1; 2; 3] (-7)%Z = [].
Proof. repeat split; reflexivity. Qed.

(** ** The sample cache *)

Section SamplingFacts.
Context {G : Type} `{Generator G}.

Lemma fresh_block_length (self : OptimizedNormalDistribution) (rng : G) :
  length (fresh_block self rng).1 = Z.to_nat (_cache_size self).
Proof.
  unfold fresh_block.
  pose proof (normal_length (mu self) (sigma self) (Z.to_nat (_cache_size self)) rng) as Hn.
  destruct (normal _ _ _ rng) as [draws rng']. simpl in *.
  unfold np.astype. by rewrite length_fmap.
Qed.

Lemma sample_unfold (self : OptimizedNormalDistribution) (size : Z) (rng : G) :
  sample self size rng =
    (slice_to (refilled self size rng).1 size,
     mk_OptimizedNormalDistribution (mu self) (sigma self) (dist_dtype self)
       (Some (slice_from (refilled self size rng).1 size)) (_cache_size self),
     (refilled self size rng).2).
Proof. unfold sample. by destruct (refilled self size rng). Qed.

(** An absent or too short cache is replaced by a fresh block. *)
Lemma refilled_short (self : OptimizedNormalDistribution) (size : Z) (rng : G) :
  (_cached_samples self = None \/
   exists c, _cached_samples self = Some c /\ (Z.of_nat (length c) < size)%Z) ->
  refilled self size rng = fresh_block self rng.
Proof.
  intros Hshort. unfold refilled, needs_refill.
  destruct Hshort as [->|(c & -> & Hc)]; [done|].
  by destruct (Z.ltb_spec (Z.of_nat (length c)) size); [|lia].
Qed.

(** A cache that is long enough is kept, and nothing is drawn. *)
Lemma refilled_long (self : OptimizedNormalDistribution) (size : Z) (rng : G)
    (c : list float) :
  _cached_samples self = Some c -> (size <= Z.of_nat (length c))%Z ->
  refilled self size rng = (c, rng).
Proof.
  intros Hc Hsize. unfold refilled, needs_refill. rewrite Hc.
  by destruct (Z.ltb_spec (Z.of_nat (length c)) size); [lia|].
Qed.

(** The cache [sample] slices holds at least [size] entries when the request
    does not exceed the size of a block. *)
Lemma refilled_enough (self : OptimizedNormalDistribution) (size : Z) (rng : G) :
  (size <= _cache_size self)%Z ->
  (size <= Z.of_nat (length (refilled self size rng).1))%Z.
Proof.
  intros Hsize. unfold refilled, needs_refill.
  destruct (_cached_samples self) as [c|]; simpl.
  - destruct (Z.ltb_spec (Z.of_nat (length c)) size); simpl; [|lia].
    rewrite fresh_block_length. lia.
  - rewrite fresh_block_length. lia.
Qed.

Lemma sample_length (self : OptimizedNormalDistribution) (size : Z) (rng : G) :
  (0 <= size <= _cache_size self)%Z ->
  length (sample self size rng).1.1 = Z.to_nat size.
Proof.
  intros Hsize. rewrite sample_unfold. simpl.
  apply slice_to_length. split; [lia|]. apply refilled_enough. lia.
Qed.

(** C1.  For every call [sample(size)]: when the cached block is absent or
    shorter than [size], the cache is first replaced by a fresh block of
    exactly [_cache_size] draws (5000 for a distribution built by the
    constructor), whatever [size] is; otherwise the cache is kept and the
    generator is not used.  The value returned is the slice [cache[:size]]
    of that cache, the cache left is [cache[size:]]: the returned prefix
    followed by the new cache is the old one, so the cache only shrinks.
    For [0 <= size] the slice is the first [size] entries. *)
Theorem sample_cache_policy (self : OptimizedNormalDistribution) (size : Z) (rng : G) :
  let cache := (refilled self size rng).1 in
  let result := (sample self size rng).1.1 in
  let self' := (sample self size rng).1.2 in
  ((_cached_samples self = None \/
    exists c, _cached_samples self = Some c /\ (Z.of_nat (length c) < size)%Z) ->
   refilled self size rng = fresh_block self rng /\
   cache = np.astype (dist_dtype self)
             (normal (mu self) (sigma self) (Z.to_nat (_cache_size self)) rng).1 /\
   length cache = Z.to_nat (_cache_size self) /\
   (_cache_size self = 5000%Z -> length cache = 5000)) /\
  (forall c, _cached_samples self = Some c -> (size <= Z.of_nat (length c))%Z ->
     refilled self size rng = (c, rng)) /\
  (sample self size rng).2 = (refilled self size rng).2 /\
  result = slice_to cache size /\
  _cached_samples self' = Some (slice_from cache size) /\
  result ++ slice_from cache size = cache /\
  ((0 <= size)%Z ->
     result = take (Z.to_nat size) cache /\
     _cached_samples self' = Some (drop (Z.to_nat size) cache)) /\
  length (slice_from cache size) <= length cache /\
  _cache_size self' = _cache_size self.
Proof.
  intros cache result self'. subst cache result self'.
  rewrite sample_unfold. cbn [fst snd _cached_samples _cache_size].
  split; [|split; [|repeat split]].
  - intros Hshort. rewrite (refilled_short self size rng Hshort).
    split; [done|]. split; [|split].
    + unfold fresh_block. by destruct (normal _ _ _ rng).
    + apply fresh_block_length.
    + intros Hsize. by rewrite fresh_block_length, Hsize.
  - intros c. apply refilled_long.
  - apply slice_to_from.
  - by apply slice_to_nonneg.
  - by rewrite slice_from_nonneg.
  - apply slice_from_length.
Qed.

(** C5.  The first [sample(n)] on a freshly constructed distribution
    returns exactly [n] values when [0 <= n <= 5000]. *)
Theorem fresh_sample_returns_n (mu sigma : float) (dtype : dtype) (rng : G) (n : Z) :
  (0 <= n <= 5000)%Z ->
  length (sample (OptimizedNormalDistribution_init mu sigma dtype) n rng).1.1 = Z.to_nat n.
Proof. intros Hn. by apply sample_length. Qed.

(** *** Determinism *)

(** The distributions the constructor builds and the generator it leaves
    depend on the generator, the distributions so far and the dtype only. *)
Lemma initialize_loop_congr (n : nat) (e1 e2 : MemoryAwareMonteCarloEngine G) :
  rng e1 = rng e2 -> distributions e1 = distributions e2 ->
  config_dtype (config e1) = config_dtype (config e2) ->
  rng (initialize_loop n e1) = rng (initialize_loop n e2) /\
  distributions (initialize_loop n e1) = distributions (initialize_loop n e2).
Proof.
  revert e1 e2. induction n as [|n IH]; intros e1 e2 Hr Hd Ht; simpl; [done|].
  rewrite Hr.
  destruct (normal1 _ _ (rng e2)) as [m g1].
  destruct (uniform _ _ g1) as [s g2].
  apply IH; simpl; [done| |done]. by rewrite Hd, Ht.
Qed.

(** The arrays a sequence of calls returns, and the generator and the
    distributions it leaves, depend on the generator and the distributions
    only. *)
Lemma sample_calls_congr (calls : list (nat * Z)) (e1 e2 : MemoryAwareMonteCarloEngine G) :
  rng e1 = rng e2 -> distributions e1 = distributions e2 ->
  (sample_calls calls e1).1.2 = (sample_calls calls e2).1.2 /\
  rng (sample_calls calls e1).2 = rng (sample_calls calls e2).2 /\
  distributions (sample_calls calls e1).2 = distributions (sample_calls calls e2).2.
Proof.
  revert e1 e2. induction calls as [|[i size] calls IH]; intros e1 e2 Hr Hd; simpl; [done|].
  unfold bind, dist_sample. rewrite Hr, Hd.
  destruct (distributions e2 !! i) as [dist|]; [|done].
  destruct (sample dist size (rng e2)) as [[res dist'] g'].
  pose proof (IH (mk_Engine (config e1) g' (results_queue_maxsize e1)
                    (<[i := dist']> (distributions e2)))
                 (mk_Engine (config e2) g' (results_queue_maxsize e2)
                    (<[i := dist']> (distributions e2))) eq_refl eq_refl) as IH'.
  do 2 destruct (sample_calls calls _) as [[? [?|?]] ?]; simpl in *;
    destruct IH' as (? & ? & ?); simplify_eq; done.
Qed.

(** C7.  Two runs that build their engine with the fixed seed 42 (for the
    same number of variables and dtype; the other settings may differ) and
    make the same sequence of [sample] calls get the same arrays, and end
    with the same generator and distributions. *)
Theorem sampling_deterministic (cfg1 cfg2 : SimulationConfig) (calls : list (nat * Z)) :
  n_variables cfg1 = n_variables cfg2 ->
  config_dtype cfg1 = config_dtype cfg2 ->
  let run1 := sample_calls calls (MemoryAwareMonteCarloEngine_init cfg1) in
  let run2 := sample_calls calls (MemoryAwareMonteCarloEngine_init cfg2) in
  run1.1.2 = run2.1.2 /\
  rng run1.2 = rng run2.2 /\
  distributions run1.2 = distributions run2.2.
Proof.
  intros Hn Ht run1 run2. subst run1 run2.
  unfold MemoryAwareMonteCarloEngine_init, _initialize_distributions. simpl. rewrite Hn.
  edestruct (initialize_loop_congr (Z.to_nat (n_variables cfg2))
              (mk_Engine cfg1 (default_rng 42) 100 [])
              (mk_Engine cfg2 (default_rng 42) 100 [])) as [Hr Hd]; [done..|].
  by apply sample_calls_congr.
Qed.

End SamplingFacts.

Lemma fresh_sample_returns_n_witness :
  length (sample (G := Z)
            (OptimizedNormalDistribution_init (Float.of_Z float64 0) (Float.of_Z float64 1) float32)
            3 0%Z).1.1 = 3.
Proof. apply (fresh_sample_returns_n (G := Z)). lia. Defined.

Lemma sampling_deterministic_witness :
  (sample_calls (G := Z) [(0, 3%Z); (1, 2%Z); (0, 5000%Z)]
     (MemoryAwareMonteCarloEngine_init (config_with 40000 1000 2))).1.2 =
  (sample_calls (G := Z) [(0, 3%Z); (1, 2%Z); (0, 5000%Z)]
     (MemoryAwareMonteCarloEngine_init (config_with 6 2 2))).1.2.
Proof.
  apply (sampling_deterministic (G := Z) (config_with 40000 1000 2) (config_with 6 2 2)
           [(0, 3%Z); (1, 2%Z); (0, 5000%Z)]); reflexivity.
Defined.

(** ** [filter_and_replace] *)

Section FilterFacts.
Context {A : Type}.

Lemma setitem_mask_elementwise (p : A -> bool) (a : ndarray A) (v : A) :
  np.setitem_mask a (elementwise p a) v =
    Some (mk_ndarray (shape a) ((fun x => if p x then v else x) <$> data a)).
Proof.
  unfold np.setitem_mask, elementwise. cbn [shape data].
  rewrite drop_all. rewrite decide_True by (by rewrite app_nil_r).
  do 2 f_equal. rewrite <- (imap_const (fun x => if p x then v else x)).
  apply imap_ext. intros k x Hk. cbn [size_of fold_right].
  rewrite Nat.div_1_r, list_lookup_fmap, Hk. done.
Qed.

(** C4.  With an entry-wise predicate, [filter_and_replace] returns, and in
    the array it leaves every entry that satisfied the predicate is the new
    value and every other entry is unchanged (same shape, same number of
    entries); when no entry satisfies the predicate the array, and the whole
    heap, are as before. *)
Theorem filter_and_replace_entries (p : A -> bool) (v : A) (arr : loc)
    (a : ndarray A) (heap : gmap loc (ndarray A)) :
  heap !! arr = Some a ->
  exists a',
    filter_and_replace arr (elementwise p) v heap = (Ok arr, <[arr := a']> heap) /\
    shape a' = shape a /\
    length (data a') = length (data a) /\
    (forall k x, data a !! k = Some x -> p x = true -> data a' !! k = Some v) /\
    (forall k x, data a !! k = Some x -> p x = false -> data a' !! k = Some x) /\
    ((forall x, x ∈ data a -> p x = false) -> a' = a /\ <[arr := a']> heap = heap).
Proof.
  intros Harr. eexists. unfold filter_and_replace. rewrite Harr, setitem_mask_elementwise.
  split; [reflexivity|]. cbn [shape data].
  split; [done|]. split; [by rewrite length_fmap|].
  split; [|split].
  - intros k x Hk Hp. by rewrite list_lookup_fmap, Hk; simpl; rewrite Hp.
  - intros k x Hk Hp. by rewrite list_lookup_fmap, Hk; simpl; rewrite Hp.
  - intros Hnone.
    assert ((fun x => if p x then v else x) <$> data a = data a) as ->.
    { rewrite <- (list_fmap_id (data a)) at 2. apply list_fmap_ext.
      intros k x Hk. rewrite (Hnone x); [done|]. by eapply list_elem_of_lookup_2. }
    destruct a as [sh da]; cbn [shape data]. split; [done|]. by apply insert_id.
Qed.

(** C9.  [filter_and_replace] works in place: when the mask fits, the
    reference returned is the reference received, the array that reference
    holds afterwards is the one with the replacements, no other object
    changes and none is created; when the mask does not fit, IndexError is
    raised and the heap is unchanged. *)
Theorem filter_and_replace_in_place (condition : ndarray A -> ndarray bool) (v : A)
    (arr : loc) (a : ndarray A) (heap : gmap loc (ndarray A)) :
  heap !! arr = Some a ->
  match np.setitem_mask a (condition a) v with
  | Some a' =>
      exists heap',
        filter_and_replace arr condition v heap = (Ok arr, heap') /\
        heap' !! arr = Some a' /\
        (forall l, l <> arr -> heap' !! l = heap !! l) /\
        dom heap' = dom heap
  | None => filter_and_replace arr condition v heap = (Error IndexError, heap)
  end.
Proof.
  intros Harr. unfold filter_and_replace. rewrite Harr.
  destruct (np.setitem_mask a (condition a) v) as [a'|]; [|done].
  eexists. split; [reflexivity|]. split; [apply lookup_insert_eq|]. split.
  - intros l Hl. by rewrite lookup_insert_ne.
  - rewrite dom_insert_L. assert (arr ∈ dom heap) as Hdom by (by eapply elem_of_dom_2).
    apply leibniz_equiv. intros l. rewrite elem_of_union, elem_of_singleton.
    split; [by intros [->|]|by right].
Qed.

End FilterFacts.

(** A mask over the rows of a 2 x 2 array replaces whole rows, a scalar
    mask the whole array, and a mask of another length is refused. *)
Example setitem_mask_shapes :
  np.setitem_mask (mk_ndarray [2; 2] [1; 2; 3; 4]) (mk_ndarray [2] [true; false]) 0
    = Some (mk_ndarray [2; 2] [0; 0; 3; 4]) /\
  np.setitem_mask (mk_ndarray [2; 2] [1; 2; 3; 4]) (mk_ndarray [] [true]) 0
    = Some (mk_ndarray [2; 2] [0; 0; 0; 0]) /\
  np.setitem_mask (mk_ndarray [2; 2] [1; 2; 3; 4]) (mk_ndarray [3] [true; false; true]) 0
    = None.
Proof. repeat split; reflexivity. Qed.

Lemma filter_and_replace_entries_witness :
  exists a',
    filter_and_replace 1%positive (elementwise negative) 0%Z example_heap
      = (Ok 1%positive, <[1%positive := a']> example_heap) /\
    data a' !! 1 = Some 0%Z /\ data a' !! 3 = Some 5%Z.
Proof.
  destruct (filter_and_replace_entries negative 0%Z 1%positive example_array example_heap)
    as (a' & Hcall & _ & _ & Hhit & Hmiss & _); [reflexivity|].
  exists a'. split; [exact Hcall|]. split.
  - apply (Hhit 1 (-1)%Z); reflexivity.
  - apply (Hmiss 3 5%Z); reflexivity.
Defined.

Lemma filter_and_replace_in_place_witness :
  exists heap',
    filter_and_replace 1%positive (elementwise negative) 0%Z example_heap = (Ok 1%positive, heap') /\
    heap' !! 1%positive = Some (mk_ndarray [2; 2] [3; 0; 0; 5]%Z).
Proof.
  destruct (filter_and_replace_in_place (elementwise negative) 0%Z 1%positive
              example_array example_heap eq_refl)
    as (heap' & Hcall & Hnew & _).
  exists heap'. split; [exact Hcall|exact Hnew].
Defined.

(** ** Order on floats *)

Lemma Qle_bool_false (a b : Q) : Qle_bool a b = false -> (b <= a)%Q.
Proof.
  intros Hab. destruct (Qlt_le_dec b a) as [Hlt|Hle]; [by apply Qlt_le_weak|].
  apply Qle_bool_iff in Hle. congruence.
Qed.

Lemma leb_refl (x : float) : Float.isnan x = false -> Float.leb x x = true.
Proof.
  destruct x as [s|[]| |s m e]; cbn [Float.leb Float.isnan]; try done; intros _.
  all: apply Qle_bool_iff, Qle_refl.
Qed.

Lemma leb_trans (x y z : float) :
  Float.leb x y = true -> Float.leb y z = true -> Float.leb x z = true.
Proof.
  destruct x as [sx|[]| |sx mx ex], y as [sy|[]| |sy my ey], z as [sz|[]| |sz mz ez];
    cbn [Float.leb]; try done.
  all: rewrite !Qle_bool_iff; apply Qle_trans.
Qed.

Lemma leb_total (x y : float) :
  Float.isnan x = false -> Float.isnan y = false ->
  Float.leb x y = false -> Float.leb y x = true.
Proof.
  destruct x as [sx|[]| |sx mx ex], y as [sy|[]| |sy my ey];
    cbn [Float.leb Float.isnan]; try done.
  all: intros _ _ Hxy; by apply Qle_bool_iff, Qle_bool_false.
Qed.

Lemma ltb_leb (x y : float) : Float.ltb x y = true -> Float.leb x y = true.
Proof.
  unfold Float.ltb. intros Hlt.
  apply andb_true_iff in Hlt as [Hnan Hle]. apply andb_true_iff in Hnan as [Hx Hy].
  apply negb_true_iff in Hx, Hy, Hle. by apply leb_total.
Qed.

Lemma not_ltb_leb (x y : float) :
  Float.isnan x = false -> Float.isnan y = false ->
  Float.ltb x y = false -> Float.leb y x = true.
Proof.
  unfold Float.ltb. intros -> -> Hlt. simpl in Hlt. by apply negb_false_iff in Hlt.
Qed.

Lemma leb_to_Q (x y : float) :
  Float.isfinite x = true -> Float.isfinite y = true ->
  Float.leb x y = true -> (Float.to_Q x <= Float.to_Q y)%Q.
Proof.
  destruct x as [sx|[]| |sx mx ex], y as [sy|[]| |sy my ey];
    cbn [Float.leb Float.isfinite]; try done.
  all: intros _ _; apply Qle_bool_iff.
Qed.

(** ** Rounding never yields a NaN *)

Lemma shr_1_nonneg (mrs : shr_record) : (0 <= shr_m mrs)%Z -> (0 <= shr_m (shr_1 mrs))%Z.
Proof. destruct mrs as [[|[p|p|]|p] r s]; simpl; lia. Qed.

Lemma iter_pos_shr_1_nonneg (p : positive) (mrs : shr_record) :
  (0 <= shr_m mrs)%Z -> (0 <= shr_m (@SpecFloat.iter_pos shr_record shr_1 p mrs))%Z.
Proof.
  revert mrs. induction p as [p IH|p IH|]; intros mrs Hm; simpl.
  - apply IH, IH. by apply shr_1_nonneg.
  - by apply IH, IH.
  - by apply shr_1_nonneg.
Qed.

Lemma shr_fexp_nonneg (prec emax m e : Z) (l : location) :
  (0 <= m)%Z -> (0 <= shr_m (shr_fexp prec emax m e l).1)%Z.
Proof.
  intros Hm. unfold shr_fexp, shr.
  assert (0 <= shr_m (shr_record_of_loc m l))%Z as Hrec.
  { by destruct l as [|[]]. }
  destruct (fexp prec emax (Zdigits2 m + e) - e)%Z; simpl; try done.
  by apply iter_pos_shr_1_nonneg.
Qed.

Lemma binary_round_aux_not_nan (prec emax : Z) (sx : bool) (mx ex : Z) (lx : location) :
  (0 <= mx)%Z -> Float.isnan (binary_round_aux prec emax sx mx ex lx) = false.
Proof.
  intros Hm. unfold binary_round_aux.
  pose proof (shr_fexp_nonneg prec emax mx ex lx Hm) as H1.
  destruct (shr_fexp prec emax mx ex lx) as [mrs' e']. simpl in H1.
  assert (0 <= round_nearest_even (shr_m mrs') (loc_of_shr_record mrs'))%Z as H2.
  { unfold round_nearest_even. destruct (loc_of_shr_record mrs') as [|[]]; try lia.
    destruct (Z.even (shr_m mrs')); lia. }
  pose proof (shr_fexp_nonneg prec emax _ e' loc_Exact H2) as H3.
  destruct (shr_fexp prec emax _ e' loc_Exact) as [mrs'' e'']. simpl in H3.
  destruct (shr_m mrs'') as [|m|m]; [done| |lia].
  by destruct (e'' <=? emax - prec)%Z.
Qed.

Lemma round_to_not_nan (d : dtype) (x : float) :
  Float.isnan x = false -> Float.isnan (Float.round_to d x) = false.
Proof.
  destruct x as [s|s| |s m e]; simpl; try done. intros _.
  unfold binary_normalize.
  destruct s; simpl; unfold binary_round;
    destruct (shl_align _ _ _) as [mz ez]; by apply binary_round_aux_not_nan.
Qed.

(** ** Minimum and maximum of an array without NaN *)

Lemma minimum_spec (x b : float) :
  Float.isnan x = false -> Float.isnan b = false ->
  (np.minimum x b = x \/ np.minimum x b = b) /\
  Float.isnan (np.minimum x b) = false /\
  Float.leb (np.minimum x b) x = true /\ Float.leb (np.minimum x b) b = true.
Proof.
  intros Hx Hb. unfold np.minimum. rewrite Hx.
  destruct (Float.ltb x b) eqn:Hlt.
  - split; [by left|]. split; [done|]. split; [by apply leb_refl|by apply ltb_leb].
  - split; [by right|]. split; [done|]. split; [by apply not_ltb_leb|by apply leb_refl].
Qed.

Lemma maximum_spec (x b : float) :
  Float.isnan x = false -> Float.isnan b = false ->
  (np.maximum x b = x \/ np.maximum x b = b) /\
  Float.isnan (np.maximum x b) = false /\
  Float.leb x (np.maximum x b) = true /\ Float.leb b (np.maximum x b) = true.
Proof.
  intros Hx Hb. unfold np.maximum. rewrite Hx.
  destruct (Float.ltb b x) eqn:Hlt.
  - split; [by left|]. split; [done|]. split; [by apply leb_refl|by apply ltb_leb].
  - split; [by right|]. split; [done|]. split; [by apply not_ltb_leb|by apply leb_refl].
Qed.

Lemma fold_minimum_spec (l : list float) (x : float) :
  Forall (fun y => Float.isnan y = false) (x :: l) ->
  fold_left np.minimum l x ∈ x :: l /\
  Float.isnan (fold_left np.minimum l x) = false /\
  Forall (fun y => Float.leb (fold_left np.minimum l x) y = true) (x :: l).
Proof.
  revert x. induction l as [|b l IH]; intros x Hnan; simpl.
  - apply Forall_cons in Hnan as [Hx _].
    split; [apply list_elem_of_here|]. split; [done|].
    constructor; [by apply leb_refl|constructor].
  - apply Forall_cons in Hnan as [Hx Hl]. pose proof Hl as Hl'.
    apply Forall_cons in Hl' as [Hb Hl'].
    destruct (minimum_spec x b Hx Hb) as (Hin & Hm & Hmx & Hmb).
    destruct (IH (np.minimum x b)) as (Hr & Hrn & Hall).
    { by constructor. }
    apply Forall_cons in Hall as [Hrm Hall].
    split; [|split; [done|]].
    + apply elem_of_cons in Hr as [Hr|Hr].
      * rewrite Hr. destruct Hin as [->| ->].
        -- apply list_elem_of_here.
        -- apply list_elem_of_further, list_elem_of_here.
      * by do 2 apply list_elem_of_further.
    + constructor; [by eapply leb_trans|]. constructor; [by eapply leb_trans|done].
Qed.

Lemma fold_maximum_spec (l : list float) (x : float) :
  Forall (fun y => Float.isnan y = false) (x :: l) ->
  fold_left np.maximum l x ∈ x :: l /\
  Float.isnan (fold_left np.maximum l x) = false /\
  Forall (fun y => Float.leb y (fold_left np.maximum l x) = true) (x :: l).
Proof.
  revert x. induction l as [|b l IH]; intros x Hnan; simpl.
  - apply Forall_cons in Hnan as [Hx _].
    split; [apply list_elem_of_here|]. split; [done|].
    constructor; [by apply leb_refl|constructor].
  - apply Forall_cons in Hnan as [Hx Hl]. pose proof Hl as Hl'.
    apply Forall_cons in Hl' as [Hb Hl'].
    destruct (maximum_spec x b Hx Hb) as (Hin & Hm & Hmx & Hmb).
    destruct (IH (np.maximum x b)) as (Hr & Hrn & Hall).
    { by constructor. }
    apply Forall_cons in Hall as [Hrm Hall].
    split; [|split; [done|]].
    + apply elem_of_cons in Hr as [Hr|Hr].
      * rewrite Hr. destruct Hin as [->| ->].
        -- apply list_elem_of_here.
        -- apply list_elem_of_further, list_elem_of_here.
      * by do 2 apply list_elem_of_further.
    + constructor; [by eapply leb_trans|]. constructor; [by eapply leb_trans|done].
Qed.

(** ** Exact sums *)

Lemma exact_sum_lower (l : list float) (q : Q) :
  Forall (fun x => (q <= Float.to_Q x)%Q) l ->
  (inject_Z (Z.of_nat (length l)) * q <= exact_sum l)%Q.
Proof.
  induction 1 as [|x l Hx Hl IH]; simpl exact_sum; simpl length.
  - change (inject_Z (Z.of_nat 0)) with 0%Q. lra.
  - rewrite Nat2Z.inj_succ. unfold Z.succ. rewrite inject_Z_plus.
    change (inject_Z 1) with 1%Q. lra.
Qed.

Lemma exact_sum_upper (l : list float) (q : Q) :
  Forall (fun x => (Float.to_Q x <= q)%Q) l ->
  (exact_sum l <= inject_Z (Z.of_nat (length l)) * q)%Q.
Proof.
  induction 1 as [|x l Hx Hl IH]; simpl exact_sum; simpl length.
  - change (inject_Z (Z.of_nat 0)) with 0%Q. lra.
  - rewrite Nat2Z.inj_succ. unfold Z.succ. rewrite inject_Z_plus.
    change (inject_Z 1) with 1%Q. lra.
Qed.

(** ** [compute_aggregate_metrics] *)

Lemma BatchMetrics_dict_mean (b : BatchMetrics) :
  BatchMetrics_dict b !! "mean" = Some (bm_mean b).
Proof. apply lookup_insert_eq. Qed.

Lemma BatchMetrics_dict_std (b : BatchMetrics) :
  BatchMetrics_dict b !! "std" = Some (bm_std b).
Proof. unfold BatchMetrics_dict. rewrite lookup_insert_ne by done. apply lookup_insert_eq. Qed.

Lemma comprehension_mean (bs : list BatchMetrics) :
  comprehension "mean" (BatchMetrics_dict <$> bs) = Ok (bm_mean <$> bs).
Proof.
  induction bs as [|b bs IH]; [done|].
  cbn [fmap list_fmap comprehension]. unfold getitem.
  rewrite BatchMetrics_dict_mean. cbn [fmap list_fmap] in IH. by rewrite IH.
Qed.

Lemma comprehension_std (bs : list BatchMetrics) :
  comprehension "std" (BatchMetrics_dict <$> bs) = Ok (bm_std <$> bs).
Proof.
  induction bs as [|b bs IH]; [done|].
  cbn [fmap list_fmap comprehension]. unfold getitem.
  rewrite BatchMetrics_dict_std. cbn [fmap list_fmap] in IH. by rewrite IH.
Qed.

(** On a list of BatchMetrics the two comprehensions succeed; what is left
    is the minimum and the maximum, which need a non-empty array. *)
Lemma compute_aggregate_metrics_BatchMetrics (cfg : SimulationConfig)
    (batches : list BatchMetrics) :
  let d := config_dtype cfg in
  let means := np.array d (bm_mean <$> batches) in
  let stds := np.array d (bm_std <$> batches) in
  compute_aggregate_metrics (mk_Analyzer (BatchMetrics_dict <$> batches) cfg) =
    match np.amin means, np.amax means with
    | Some mn, Some mx => Ok (aggregate_metrics_spec d means stds mn mx)
    | _, _ => Error ValueError
    end.
Proof.
  intros d means stds. unfold compute_aggregate_metrics. cbn [results analyzer_config].
  rewrite comprehension_mean, comprehension_std. fold d. fold means. fold stds.
  by destruct (np.amin means), (np.amax means).
Qed.

Lemma comprehension_ext (key : string) (rs1 rs2 : list dict) :
  Forall2 (fun r1 r2 : dict => r1 !! key = r2 !! key) rs1 rs2 ->
  comprehension key rs1 = comprehension key rs2.
Proof.
  induction 1 as [|r1 r2 rs1 rs2 Hr Hrs IH]; [done|].
  cbn [comprehension]. unfold getitem. by rewrite Hr, IH.
Qed.

(** C10.  Two lists of dicts that agree, entry by entry, on ['mean'] and
    ['std'] get the same outcome from [compute_aggregate_metrics] (the same
    metrics or the same exception), whatever their ['var'] entries are. *)
Theorem aggregate_metrics_ignore_var (cfg : SimulationConfig) (rs1 rs2 : list dict) :
  Forall2 (fun r1 r2 : dict => r1 !! "mean" = r2 !! "mean" /\ r1 !! "std" = r2 !! "std")
    rs1 rs2 ->
  compute_aggregate_metrics (mk_Analyzer rs1 cfg) =
  compute_aggregate_metrics (mk_Analyzer rs2 cfg).
Proof.
  intros Hagree. unfold compute_aggregate_metrics. cbn [results analyzer_config].
  rewrite (comprehension_ext "mean" rs1 rs2), (comprehension_ext "std" rs1 rs2); [done|..].
  - eapply Forall2_impl; [exact Hagree|]. by intros r1 r2 [_ ?].
  - eapply Forall2_impl; [exact Hagree|]. by intros r1 r2 [? _].
Qed.

Lemma aggregate_metrics_ignore_var_witness :
  compute_aggregate_metrics
    (mk_Analyzer [BatchMetrics_dict (mk_BatchMetrics mean_1_75 Float.pos_zero Float.pos_zero)]
       SimulationConfig_init) =
  compute_aggregate_metrics
    (mk_Analyzer [BatchMetrics_dict (mk_BatchMetrics mean_1_75 Float.pos_zero S754_nan)]
       SimulationConfig_init).
Proof.
  apply aggregate_metrics_ignore_var.
  constructor; [|constructor]. split; reflexivity.
Defined.

(** C6, as stated, fails: for three batches whose mean is the float32
    number 1.7500002384185791015625, the float32 sum of the means rounds up
    and [overall_mean] is 1.75000035762786865234375, above [max_value]. *)
Lemma overall_mean_above_max :
  ~ (forall (self : MemoryEfficientAnalyzer) (metrics : dict),
       compute_aggregate_metrics self = Ok metrics -> mean_within_min_max metrics).
Proof.
  intros Hclaim.
  pose proof (compute_aggregate_metrics_BatchMetrics SimulationConfig_init
                three_equal_batches) as Hrun.
  cbv zeta in Hrun. change (config_dtype SimulationConfig_init) with float32 in Hrun.
  set (means := np.array float32 (bm_mean <$> three_equal_batches)) in Hrun.
  set (stds := np.array float32 (bm_std <$> three_equal_batches)) in Hrun.
  assert (np.amin means = Some mean_1_75) as Hmin by (vm_compute; reflexivity).
  assert (np.amax means = Some mean_1_75) as Hmax by (vm_compute; reflexivity).
  assert (np.mean float32 means = S754_finite false 14680067 (-23)) as Hmean
    by (vm_compute; reflexivity).
  clearbody means stds. rewrite Hmin, Hmax in Hrun.
  destruct (Hclaim _ _ Hrun) as (mn & m & mx & _ & Hm & Hmx & _ & Hle).
  clear Hclaim Hrun. unfold aggregate_metrics_spec in Hm, Hmx.
  rewrite lookup_insert_eq, Hmean in Hm. injection Hm as <-.
  do 3 rewrite lookup_insert_ne in Hmx by discriminate.
  rewrite lookup_insert_eq in Hmx. injection Hmx as <-.
  vm_compute in Hle. discriminate.
Qed.

Lemma inject_Z_length_pos {A} (x : A) (l : list A) :
  (0 < inject_Z (Z.of_nat (length (x :: l))))%Q.
Proof. unfold Qlt. simpl. lia. Qed.

(** ** The events of a run *)

Section EngineEvents.
Context {G : Type} `{Generator G}.

Lemma quiet_ret {A} (a : A) : quiet (G := G) (ret a).
Proof. intros self. constructor. Qed.

Lemma quiet_raise {A} (e : exn) : quiet (@raise G A e).
Proof. intros self. constructor. Qed.

Lemma quiet_get : quiet (@get G).
Proof. intros self. constructor. Qed.

Lemma quiet_logger_info (msg : log_message) : quiet (@logger_info G msg).
Proof. intros self. by repeat constructor. Qed.

Lemma quiet_bind {A B} (c : M G A) (k : A -> M G B) :
  quiet c -> (forall a, quiet (k a)) -> quiet (bind c k).
Proof.
  intros Hc Hk self. unfold bind. specialize (Hc self).
  destruct (c self) as [[evs [a|e]] self']; simpl in *; [|done].
  specialize (Hk a self'). destruct (k a self') as [[evs' r] self'']; simpl in *.
  by apply Forall_app.
Qed.

Lemma quiet_for_in {A B} (l : list A) (body : A -> B -> M G B) (acc : B) :
  (forall x b, quiet (body x b)) -> quiet (for_in l body acc).
Proof.
  intros Hbody. revert acc. induction l as [|x l IH]; intros acc; simpl.
  - apply quiet_ret.
  - apply quiet_bind; [apply Hbody|apply IH].
Qed.

Lemma quiet_dist_sample (i : nat) (size : Z) : quiet (dist_sample i size).
Proof.
  intros self. unfold dist_sample.
  destruct (distributions self !! i) as [dist|]; [|constructor].
  destruct (sample dist size (rng self)) as [[res dist'] g']. constructor.
Qed.

Lemma quiet_assign_column (d : dtype) (results : ndarray float) (i : nat)
    (values : dtype * list float) :
  quiet (G := G) (assign_column d results i values).
Proof.
  unfold assign_column. destruct (np.setitem_column _ _ _); [apply quiet_ret|apply quiet_raise].
Qed.

Lemma quiet_simulate_batch (batch_size : Z) : quiet (_simulate_batch batch_size).
Proof.
  unfold _simulate_batch. apply quiet_bind; [apply quiet_get|]. intros self.
  destruct (batch_size <? 0)%Z; [apply quiet_raise|].
  apply quiet_for_in. intros i results.
  apply quiet_bind; [apply quiet_dist_sample|]. intros values. apply quiet_assign_column.
Qed.

Lemma quiet_batch_turn (n_batches : Z) (batch_idx : nat) (results : list dict) :
  quiet (batch_turn n_batches batch_idx results).
Proof.
  unfold batch_turn. apply quiet_bind.
  { destruct (_ =? 0)%Z; [apply quiet_logger_info|apply quiet_ret]. }
  intros _. apply quiet_bind; [apply quiet_get|]. intros self.
  apply quiet_bind; [apply quiet_simulate_batch|]. intros batch. apply quiet_ret.
Qed.

Lemma filter_quiet (evs : list event) :
  Forall (fun ev => is_pool_event ev = false) evs ->
  List.filter (fun ev => negb (is_pool_event ev)) evs = evs.
Proof.
  induction 1 as [|ev evs Hev Hevs IH]; simpl; [done|]. by rewrite Hev, IH.
Qed.

Lemma quiet_no_submit (evs : list event) :
  Forall (fun ev => is_pool_event ev = false) evs ->
  Forall (fun ev => is_submit ev = false) evs.
Proof. intros Hq. eapply Forall_impl; [exact Hq|]. by intros []. Qed.

(** C8.  No event of a run of [run_simulation] is a task submitted to the
    pool; and the run yields what the same loop yields as a plain sequential
    loop: the same result (or exception), the same engine afterwards, and the
    same log lines -- the events of the run without the creation and the
    shutdown of the pool. *)
Theorem run_simulation_pool_unused (self : MemoryAwareMonteCarloEngine G) :
  let '(evs, r, self') := run_simulation self in
  Forall (fun ev => is_submit ev = false) evs /\
  run_simulation_sequential self =
    (List.filter (fun ev => negb (is_pool_event ev)) evs, r, self').
Proof.
  unfold run_simulation, run_simulation_sequential, bind, logger_info, emit, get, floordiv.
  destruct (batch_size (config self) =? 0)%Z.
  { simpl. split; [by repeat constructor|done]. }
  cbn [ret]. unfold with_ThreadPoolExecutor.
  set (n_batches := (n_simulations (config self) / batch_size (config self))%Z).
  pose proof (quiet_for_in (seq 0 (Z.to_nat n_batches)) (batch_turn n_batches) []
                (quiet_batch_turn n_batches) self) as Hquiet.
  destruct (for_in _ _ _ self) as [[evs r] self']. cbn [fst snd] in Hquiet.
  cbn [app]. split.
  - constructor; [done|]. constructor; [done|].
    apply Forall_app. split; [by apply quiet_no_submit|by repeat constructor].
  - cbn [List.filter is_pool_event negb]. rewrite List.filter_app.
    cbn [List.filter is_pool_event negb].
    by rewrite filter_quiet, app_nil_r.
Qed.

End EngineEvents.

(** ** The batches of a run *)

Section EngineRun.
Context {G : Type} `{Generator G}.
Variable cfg : SimulationConfig.
Variable R : float -> float -> Prop.
Variable P : float -> Prop.
Hypothesis init_R :
  forall g g',
    R (normal1 (Float.of_Z float64 0) (Float.of_Z float64 1) g).1
      (uniform (Float.div float64 (Float.of_Z float64 1) (Float.of_Z float64 2))
         (Float.of_Z float64 2) g').1.
Hypothesis draws_P :
  forall mu sigma n g,
    R mu sigma -> Forall P (np.astype (config_dtype cfg) (normal mu sigma n g).1).

Lemma refilled_P (dist : OptimizedNormalDistribution) (size : Z) (g : G) :
  dist_inv cfg R P dist -> Forall P (refilled dist size g).1.
Proof.
  intros (Hsize & Hdtype & HR & Hcache). unfold refilled.
  destruct (needs_refill dist size) eqn:Hrefill.
  - unfold fresh_block.
    pose proof (draws_P (mu dist) (sigma dist) (Z.to_nat (_cache_size dist)) g HR) as HP.
    destruct (normal _ _ _ g) as [draws g']. simpl in *. by rewrite Hdtype.
  - unfold needs_refill in Hrefill. destruct (_cached_samples dist) as [c|]; [|done].
    simpl. by apply Hcache.
Qed.

Lemma sample_inv (dist : OptimizedNormalDistribution) (size : Z) (g : G) :
  dist_inv cfg R P dist -> (0 <= size <= 5000)%Z ->
  length (sample dist size g).1.1 = Z.to_nat size /\
  Forall P (sample dist size g).1.1 /\
  dist_inv cfg R P (sample dist size g).1.2.
Proof.
  intros Hinv Hsize. pose proof Hinv as (Hcs & Hdtype & HR & Hcache).
  split; [apply sample_length; lia|].
  rewrite sample_unfold. cbn [fst snd].
  pose proof (refilled_P dist size g Hinv) as HP.
  split; [by apply Forall_take|].
  split; [done|]. split; [done|]. split; [done|].
  cbn [_cached_samples]. intros c [= <-]. by apply Forall_drop.
Qed.

Lemma dist_sample_inv (n i : nat) (size : Z) (self : MemoryAwareMonteCarloEngine G) :
  engine_inv cfg R P n self -> i < n -> (0 <= size <= 5000)%Z ->
  exists v self',
    dist_sample i size self = ([], Ok (config_dtype cfg, v), self') /\
    length v = Z.to_nat size /\ Forall P v /\ engine_inv cfg R P n self'.
Proof.
  intros (Hcfg & Hlen & Hall) Hi Hsize. unfold dist_sample.
  destruct (distributions self !! i) as [dist|] eqn:Hdist.
  2: { apply lookup_ge_None in Hdist. lia. }
  assert (dist_inv cfg R P dist) as Hinv.
  { eapply Forall_lookup_1; [exact Hall|exact Hdist]. }
  destruct (sample_inv dist size (rng self) Hinv Hsize) as (Hl & HP & Hinv').
  destruct (sample dist size (rng self)) as [[v dist'] g']. cbn [fst snd] in *.
  exists v, (mk_Engine (config self) g' (results_queue_maxsize self)
               (<[i := dist']> (distributions self))).
  destruct Hinv as (_ & -> & _).
  split; [done|]. split; [done|]. split; [done|].
  split; [done|]. cbn [distributions]. split; [by rewrite length_insert|].
  by apply Forall_insert.
Qed.

Lemma assign_column_inv (rows cols i : nat) (filled : list nat) (m : ndarray float)
    (v : list float) (self : MemoryAwareMonteCarloEngine G) :
  batch_inv P rows cols filled m -> i < cols -> length v = rows -> Forall P v ->
  exists m',
    assign_column (config_dtype cfg) m i (config_dtype cfg, v) self = ([], Ok m', self) /\
    batch_inv P rows cols (filled ++ [i]) m'.
Proof.
  intros (Hshape & Hlen & Hfilled) Hi Hv HP.
  unfold assign_column. cbn [fst snd]. rewrite decide_True by done.
  unfold np.setitem_column. rewrite Hshape. rewrite decide_True by (by left).
  eexists. split; [reflexivity|].
  split; [done|]. split; [by cbn [data]; rewrite length_imap|].
  cbn [data]. intros k x Hk Hmod.
  rewrite list_lookup_imap in Hk.
  destruct (data m !! k) as [y|] eqn:Hy; [|done]. simpl in Hk.
  injection Hk as <-.
  apply lookup_lt_Some in Hy as Hklt.
  destruct (decide (k mod cols = i)) as [Hcol|Hcol].
  - assert (k / cols < rows) as Hrow.
    { apply Nat.Div0.div_lt_upper_bound. lia. }
    destruct (decide (length v = 1)) as [Hone|Hone].
    + destruct v as [|v0 [|]]; simpl in *; try done.
      by apply Forall_cons in HP as [? _].
    + destruct (v !! (k / cols)) as [z|] eqn:Hz.
      * simpl. eapply Forall_lookup_1; [exact HP|exact Hz].
      * apply lookup_ge_None in Hz. lia.
  - apply (Hfilled k y Hy). apply elem_of_app in Hmod as [Hmod|Hmod]; [done|].
    apply list_elem_of_singleton in Hmod. done.
Qed.

Lemma simulate_columns_inv (rows cols : nat) (l filled : list nat) (m : ndarray float)
    (self : MemoryAwareMonteCarloEngine G) :
  engine_inv cfg R P cols self -> batch_inv P rows cols filled m ->
  Forall (fun i => i < cols) l -> (0 <= Z.of_nat rows <= 5000)%Z ->
  exists m' self',
    for_in l
      (fun i results =>
         bind (dist_sample i (Z.of_nat rows))
              (fun values => assign_column (config_dtype cfg) results i values))
      m self = ([], Ok m', self') /\
    batch_inv P rows cols (filled ++ l) m' /\ engine_inv cfg R P cols self'.
Proof.
  intros Heng Hbatch Hl Hrows. revert filled m self Heng Hbatch.
  induction Hl as [|i l Hi Hl IH]; intros filled m self Heng Hbatch.
  - exists m, self. by rewrite app_nil_r.
  - cbn [for_in]. unfold bind at 1. unfold bind at 1.
    destruct (dist_sample_inv cols i (Z.of_nat rows) self Heng Hi Hrows)
      as (v & self1 & -> & Hv & HP & Heng1).
    rewrite Nat2Z.id in Hv.
    destruct (assign_column_inv rows cols i filled m v self1 Hbatch Hi Hv HP)
      as (m1 & -> & Hbatch1).
    destruct (IH (filled ++ [i]) m1 self1 Heng1 Hbatch1) as (m' & self' & -> & Hb' & He').
    exists m', self'. split; [done|]. split; [|done]. by rewrite <- app_assoc in Hb'.
Qed.

Lemma simulate_batch_inv (n : nat) (size : Z) (self : MemoryAwareMonteCarloEngine G) :
  engine_inv cfg R P n self -> (0 <= size <= 5000)%Z ->
  exists m self',
    _simulate_batch size self = ([], Ok m, self') /\
    batch_ok P (Z.to_nat size) n m /\ engine_inv cfg R P n self'.
Proof.
  intros Heng Hsize. pose proof Heng as (Hcfg & Hlen & _).
  unfold _simulate_batch. unfold bind at 1, get.
  destruct (Z.ltb_spec size 0) as [Hneg|_]; [lia|].
  rewrite Hcfg, Hlen.
  destruct (simulate_columns_inv (Z.to_nat size) n (seq 0 n) []
              (np.zeros [Z.to_nat size; n]) self Heng) as (m & self' & Hrun & Hb & He).
  { split; [done|]. split.
    - cbn [np.zeros data size_of fold_right]. rewrite length_replicate. lia.
    - intros k x _ Hin. by apply elem_of_nil in Hin. }
  { apply Forall_forall. intros i Hi. apply elem_of_seq in Hi. lia. }
  { lia. }
  rewrite Z2Nat.id in Hrun by lia. rewrite Hrun.
  exists m, self'. split; [done|]. split; [|done].
  destruct Hb as (Hshape & Hl & Hfilled). split; [done|]. split; [done|].
  apply Forall_lookup_2. intros k x Hk. apply (Hfilled k x Hk).
  apply elem_of_seq. apply lookup_lt_Some in Hk.
  assert (n <> 0) by (intros ->; lia).
  pose proof (Nat.mod_upper_bound k n). lia.
Qed.

Lemma batch_turn_inv (n : nat) (n_batches : Z) (i : nat) (acc : list dict)
    (self : MemoryAwareMonteCarloEngine G) :
  engine_inv cfg R P n self -> (0 <= batch_size cfg <= 5000)%Z ->
  exists m self',
    _simulate_batch (batch_size cfg) self = ([], Ok m, self') /\
    batch_turn n_batches i acc self =
      (progress_line n_batches i, Ok (acc ++ [_process_batch (config_dtype cfg) m]), self') /\
    batch_ok P (Z.to_nat (batch_size cfg)) n m /\ engine_inv cfg R P n self'.
Proof.
  intros Heng Hsize. pose proof Heng as (Hcfg & _).
  destruct (simulate_batch_inv n (batch_size cfg) self Heng Hsize)
    as (m & self1 & Hrun & Hm & Heng1).
  unfold batch_turn. unfold bind at 1.
  set (log := if (Z.of_nat i mod 10 =? 0)%Z
              then logger_info (Processando (Z.of_nat i + 1) n_batches) else ret tt).
  assert (log self = (progress_line n_batches i, Ok tt, self)) as ->.
  { subst log. unfold progress_line. by destruct (_ =? 0)%Z. }
  unfold bind at 1, get. unfold bind at 1. rewrite Hcfg, Hrun. cbn [ret].
  exists m, self1. by rewrite !app_nil_r.
Qed.

Lemma batch_turns_inv (n : nat) (n_batches : Z) (l : list nat) (acc : list dict)
    (self : MemoryAwareMonteCarloEngine G) :
  engine_inv cfg R P n self -> (0 <= batch_size cfg <= 5000)%Z ->
  let batches := batches_from (length l) (batch_size cfg) self in
  exists self',
    for_in l (batch_turn n_batches) acc self =
      (progress_lines n_batches l,
       Ok (acc ++ (_process_batch (config_dtype cfg) <$> batches)), self') /\
    length batches = length l /\
    Forall (batch_ok P (Z.to_nat (batch_size cfg)) n) batches /\
    engine_inv cfg R P n self'.
Proof.
  intros Heng Hsize. revert acc self Heng.
  induction l as [|i l IH]; intros acc self Heng batches; subst batches.
  - exists self. cbn. by rewrite app_nil_r.
  - destruct (batch_turn_inv n n_batches i acc self Heng Hsize)
      as (m & self1 & Hrun & Hturn & Hm & Heng1).
    cbn [for_in length batches_from]. rewrite Hrun.
    destruct (IH (acc ++ [_process_batch (config_dtype cfg) m]) self1 Heng1)
      as (self' & Hloop & Hlen & Hall & Heng').
    unfold bind at 1. rewrite Hturn, Hloop.
    exists self'. split.
    { cbn [fmap list_fmap]. rewrite <- app_assoc. reflexivity. }
    split; [by cbn [length]; rewrite Hlen|]. split; [by constructor|done].
Qed.

Lemma initialize_loop_inv (k n : nat) (self : MemoryAwareMonteCarloEngine G) :
  engine_inv cfg R P n self -> engine_inv cfg R P (n + k) (initialize_loop k self).
Proof.
  revert n self. induction k as [|k IH]; intros n self Heng; cbn [initialize_loop].
  - by rewrite Nat.add_0_r.
  - pose proof (init_R (rng self)) as HR.
    destruct (normal1 _ _ (rng self)) as [m g1]. cbn [fst] in HR. specialize (HR g1).
    destruct (uniform _ _ g1) as [s g2]. cbn [fst] in HR.
    replace (n + S k) with (S n + k) by lia. apply IH.
    destruct Heng as (Hcfg & Hlen & Hall).
    split; [done|]. split.
    + cbn [distributions]. rewrite length_app. simpl. lia.
    + cbn [distributions config]. apply Forall_app. split; [done|].
      constructor; [|constructor].
      split; [done|]. split; [by rewrite Hcfg|]. split; [done|done].
Qed.

Lemma engine_init_inv :
  engine_inv cfg R P (Z.to_nat (n_variables cfg)) (MemoryAwareMonteCarloEngine_init cfg).
Proof.
  unfold MemoryAwareMonteCarloEngine_init, _initialize_distributions. cbn [config].
  apply (initialize_loop_inv _ 0). split; [done|]. split; [done|]. constructor.
Qed.

(** A run on a freshly constructed engine returns the metrics of its
    batches, one after the other; it logs its start, creates the pool, logs
    every tenth batch and shuts the pool down. *)
Lemma run_simulation_returns :
  (1 <= batch_size cfg <= 5000)%Z ->
  let self := MemoryAwareMonteCarloEngine_init cfg in
  let n_batches := Z.to_nat (n_simulations cfg / batch_size cfg) in
  let batches := batches_from n_batches (batch_size cfg) self in
  exists self',
    run_simulation self =
      (LogInfo Iniciando :: ExecutorEnter 4 ::
         progress_lines (n_simulations cfg / batch_size cfg) (seq 0 n_batches) ++ [ExecutorExit],
       Ok (_process_batch (config_dtype cfg) <$> batches), self') /\
    length batches = n_batches /\
    Forall (batch_ok P (Z.to_nat (batch_size cfg)) (Z.to_nat (n_variables cfg))) batches.
Proof.
  intros Hsize self n_batches batches.
  pose proof engine_init_inv as Heng. fold self in Heng.
  pose proof Heng as (Hcfg & _).
  destruct (batch_turns_inv _ (n_simulations cfg / batch_size cfg)
              (seq 0 n_batches) [] self Heng) as (self' & Hloop & Hlen & Hall & _); [lia|].
  rewrite length_seq in Hloop, Hlen, Hall. fold batches in Hloop, Hlen, Hall.
  cbn [app] in Hloop.
  exists self'. split; [|done].
  unfold run_simulation. unfold bind at 1, logger_info, emit. unfold bind at 1, get.
  unfold bind at 1, floordiv. rewrite Hcfg.
  destruct (Z.eqb_spec (batch_size cfg) 0) as [Hz|_]; [lia|]. cbn [ret].
  unfold with_ThreadPoolExecutor. fold n_batches. rewrite Hloop. reflexivity.
Qed.

End EngineRun.

(** The log of the run of the notebook (40000 simulations in batches of
    1000): the lines of batches 1, 11, 21 and 31 of 40, as the notebook's
    recorded output has them. *)
Lemma default_run_log {G : Type} `{Generator G} :
  (run_simulation (MemoryAwareMonteCarloEngine_init (G := G) SimulationConfig_init)).1.1 =
    [LogInfo Iniciando; ExecutorEnter 4;
     LogInfo (Processando 1 40); LogInfo (Processando 11 40);
     LogInfo (Processando 21 40); LogInfo (Processando 31 40);
     ExecutorExit].
Proof.
  destruct (run_simulation_returns (G := G) SimulationConfig_init
              (fun _ _ => True) (fun _ => True))
    as (self' & -> & _).
  - done.
  - intros mu sigma n g _. by apply Forall_forall.
  - simpl. lia.
  - reflexivity.
Qed.


(** * More properties *)

(** ** The sample cache, call after call *)

Lemma block_eq : Z.of_nat block = 5000%Z.
Proof. reflexivity. Qed.

Section SamplingMore.
Context {G : Type} `{Generator G}.

Lemma needs_refill_false (self : OptimizedNormalDistribution) (size : Z) (c : list float) :
  _cached_samples self = Some c -> (size <= Z.of_nat (length c))%Z ->
  needs_refill self size = false.
Proof.
  intros Hc Hsize. unfold needs_refill. rewrite Hc.
  by destruct (Z.ltb_spec (Z.of_nat (length c)) size); [lia|].
Qed.

(** X1.  Two calls in a row that the cached block can serve return two
    consecutive segments of it, in order; nothing is drawn, and what is left
    is the rest of the block. *)
Theorem sample_twice_same_block (self : OptimizedNormalDistribution) (a b : Z) (rng : G)
    (c : list float) :
  _cached_samples self = Some c ->
  (0 <= a)%Z -> (0 <= b)%Z -> (a + b <= Z.of_nat (length c))%Z ->
  let '(r1, self1, rng1) := sample self a rng in
  let '(r2, self2, rng2) := sample self1 b rng1 in
  r1 = take (Z.to_nat a) c /\
  r2 = take (Z.to_nat b) (drop (Z.to_nat a) c) /\
  r1 ++ r2 = take (Z.to_nat (a + b)) c /\
  _cached_samples self2 = Some (drop (Z.to_nat (a + b)) c) /\
  rng2 = rng.
Proof.
  intros Hc Ha Hb Hab.
  rewrite (sample_unfold self a rng).
  rewrite (refilled_long self a rng c Hc) by lia. cbn [fst snd].
  rewrite sample_unfold.
  rewrite (refilled_long _ b rng (slice_from c a)).
  2: { done. }
  2: { rewrite slice_from_nonneg by done. rewrite length_drop. lia. }
  cbn [fst snd _cached_samples].
  rewrite slice_to_nonneg, !slice_from_nonneg, slice_to_nonneg by done.
  split; [done|]. split; [done|].
  rewrite Z2Nat.inj_add by done. rewrite drop_drop.
  split; [|done]. apply take_take_drop.
Qed.

(** One request above the size of a block: a block is drawn, its 5000
    values are returned and the cache is left empty. *)
Lemma sample_beyond_block (self : OptimizedNormalDistribution) (size : Z) (rng : G) :
  _cache_size self = 5000%Z ->
  (5000 < size)%Z ->
  (forall c, _cached_samples self = Some c -> length c <= block) ->
  sample self size rng =
    ((fresh_block self rng).1,
     mk_OptimizedNormalDistribution (mu self) (sigma self) (dist_dtype self) (Some []) 5000,
     (fresh_block self rng).2) /\
  length (fresh_block self rng).1 = block.
Proof.
  intros Hcs Hsize Hcache. pose proof block_eq as Hblock. rewrite sample_unfold.
  rewrite refilled_short.
  2: { destruct (_cached_samples self) as [c|] eqn:Hc; [right|by left].
       exists c. split; [done|]. specialize (Hcache c eq_refl). lia. }
  pose proof (fresh_block_length self rng) as Hlen. rewrite Hcs in Hlen.
  fold block in Hlen.
  rewrite slice_to_nonneg, slice_from_nonneg by lia.
  rewrite take_ge, drop_ge by lia. by rewrite Hcs.
Qed.

(** X2.  Requests above the size of a block are never served in full, and
    each of them costs a block: on a distribution whose cache is absent or
    holds at most 5000 values, each of [k] calls [sample(size)] with
    [size > 5000] returns exactly 5000 values, the generator is asked for
    [k] blocks, and the cache is left empty. *)
Theorem sample_oversized (self : OptimizedNormalDistribution) (size : Z) (k : nat) (rng : G) :
  _cache_size self = 5000%Z ->
  (5000 < size)%Z ->
  (forall c, _cached_samples self = Some c -> length c <= block) ->
  let '(results, self', rng') := sample_times k size self rng in
  length results = k /\
  Forall (fun r => length r = block) results /\
  rng' = draw_blocks (mu self) (sigma self) block k rng /\
  (1 <= k -> _cached_samples self' = Some []).
Proof.
  intros Hcs Hsize. revert self rng Hcs. induction k as [|k IH]; intros self rng Hcs Hcache.
  - cbn [sample_times]. split; [done|]. split; [constructor|]. split; [done|]. lia.
  - cbn [sample_times].
    destruct (sample_beyond_block self size rng Hcs Hsize Hcache) as [-> Hlen].
    set (self1 := mk_OptimizedNormalDistribution _ _ _ _ _).
    specialize (IH self1 (fresh_block self rng).2 eq_refl).
    pose proof (eq_refl (sample_times k size self1 (fresh_block self rng).2)) as Hk0.
    destruct (sample_times k size self1 _) as [[rest self2] rng2] in IH, Hk0 at 2 |- *.
    destruct IH as (Hk & Hall & Hrng & Hempty).
    { intros c Hc. injection Hc as <-. cbn [length]. lia. }
    split; [by cbn; rewrite Hk|]. split; [by constructor|]. split.
    + rewrite Hrng. cbn [mu sigma self1]. unfold draw_blocks.
      rewrite Nat.iter_succ_r. f_equal. unfold fresh_block. rewrite Hcs.
      change (Z.to_nat 5000) with block. by destruct (normal _ _ _ rng).
    + intros _. destruct k as [|k]; [|apply Hempty; lia].
      cbn [sample_times] in Hk0. by injection Hk0 as _ <- _.
Qed.

(** X3.  A negative size counts from the end of the cache: with a cache in
    place nothing is drawn, all but the last [-size] cached values are
    returned and those last values stay cached. *)
Theorem sample_negative_size (self : OptimizedNormalDistribution) (size : Z) (rng : G)
    (c : list float) :
  _cached_samples self = Some c ->
  (size < 0)%Z ->
  let '(result, self', rng') := sample self size rng in
  result = take (length c - Z.to_nat (- size)) c /\
  _cached_samples self' = Some (drop (length c - Z.to_nat (- size)) c) /\
  rng' = rng.
Proof.
  intros Hc Hsize. rewrite sample_unfold.
  rewrite (refilled_long self size rng c Hc) by lia. cbn [fst snd].
  unfold slice_to, slice_from, slice_index.
  destruct (Z.ltb_spec size 0) as [_|?]; [|lia].
  replace (Z.to_nat (Z.of_nat (length c) + size)) with (length c - Z.to_nat (- size)) by lia.
  done.
Qed.

(** *** The period of the refills *)

Lemma phase_step (s t : nat) (mu0 sigma0 : float) (d : dtype)
    (self : OptimizedNormalDistribution) (rng : G) :
  1 <= s <= block ->
  phase s (block / s) t mu0 sigma0 d self ->
  let t' := if decide (t = block / s) then 1 else S t in
  length (sample self (Z.of_nat s) rng).1.1 = s /\
  phase s (block / s) t' mu0 sigma0 d (sample self (Z.of_nat s) rng).1.2 /\
  (sample self (Z.of_nat s) rng).2 =
    if decide (t = block / s) then (normal mu0 sigma0 block rng).2 else rng.
Proof.
  intros Hs (Hmu & Hsigma & Hd & Hcs & Ht & Hcache) t'.
  pose proof block_eq as Hblock.
  pose proof (Nat.Div0.mul_div_le block s) as Hq1.
  pose proof (Nat.mul_succ_div_gt block s ltac:(lia)) as Hq2.
  assert (1 <= block / s) as Hq by (apply Nat.div_le_lower_bound; lia).
  split.
  { rewrite sample_length; [lia|]. rewrite Hcs. lia. }
  rewrite sample_unfold. cbn [fst snd].
  destruct (decide (t = block / s)) as [Hlast|Hmore]; subst t'.
  - (* the block is used up: refill *)
    rewrite refilled_short.
    2: { destruct Hcache as [[_ ->]|(c & -> & Hc)]; [by left|right].
         exists c. split; [done|]. rewrite Hc, Hlast. nia. }
    pose proof (fresh_block_length self rng) as Hlen. rewrite Hcs in Hlen.
    unfold fresh_block in *. rewrite Hmu, Hsigma, Hcs in *.
    change (Z.to_nat 5000) with block in *.
    destruct (normal mu0 sigma0 block rng) as [draws rng']. cbn [fst snd] in *.
    split; [|done].
    repeat split; try done; try lia.
    right. eexists. cbn [_cached_samples]. split; [reflexivity|].
    rewrite slice_from_nonneg by lia. rewrite length_drop, Hlen. lia.
  - (* the block serves one more call *)
    destruct Hcache as [[Habs _]|(c & Hc & Hlen)]; [done|].
    assert (S t <= block / s) as Hnext by lia.
    assert (s * S t <= block) as Hfit by nia.
    rewrite (refilled_long self (Z.of_nat s) rng c Hc) by lia. cbn [fst snd].
    split; [|done].
    repeat split; try done; try lia.
    right. eexists. cbn [_cached_samples]. split; [reflexivity|].
    rewrite slice_from_nonneg by lia. rewrite length_drop, Hlen. lia.
Qed.

Lemma sample_times_phase (s : nat) (mu0 sigma0 : float) (d : dtype) (k t : nat)
    (self : OptimizedNormalDistribution) (rng : G) :
  1 <= s <= block ->
  phase s (block / s) t mu0 sigma0 d self ->
  let q := block / s in
  let '(results, self', rng') := sample_times k (Z.of_nat s) self rng in
  length results = k /\
  Forall (fun r => length r = s) results /\
  phase s q ((t + k - 1) mod q + 1) mu0 sigma0 d self' /\
  (1 <= k -> is_Some (_cached_samples self')) /\
  rng' = draw_blocks mu0 sigma0 block ((t + k - 1) / q) rng.
Proof.
  intros Hs. revert t self rng. induction k as [|k IH]; intros t self rng Hphase q.
  - cbn [sample_times]. split; [done|]. split; [constructor|].
    pose proof Hphase as (_ & _ & _ & _ & Ht & _). fold q in Ht.
    rewrite Nat.add_0_r, Nat.div_small, Nat.mod_small by lia.
    replace (t - 1 + 1) with t by lia. split; [done|]. split; [lia|done].
  - cbn [sample_times].
    destruct (phase_step s t mu0 sigma0 d self rng Hs Hphase) as (Hlen & Hphase' & Hrng).
    pose proof (sample_unfold self (Z.of_nat s) rng) as Hsome.
    destruct (sample self (Z.of_nat s) rng) as [[r self1] rng1]. cbn [fst snd] in *.
    assert (is_Some (_cached_samples self1)) as Hsome1.
    { injection Hsome as _ -> _. by eexists. }
    clear Hsome.
    specialize (IH _ self1 rng1 Hphase'). cbv zeta in IH.
    pose proof (eq_refl (sample_times k (Z.of_nat s) self1 rng1)) as Hk0.
    destruct (sample_times k (Z.of_nat s) self1 rng1) as [[rest self2] rng2] in IH, Hk0 at 2 |- *.
    destruct IH as (Hk & Hall & Hph & Hsome2 & Hrng2).
    destruct Hphase as (_ & _ & _ & _ & Ht & _). fold q in Ht, Hrng, Hphase', Hph, Hrng2.
    assert (1 <= q) as Hq by lia.
    split; [by cbn; rewrite Hk|]. split; [by constructor|].
    split; [|split].
    + destruct (decide (t = q)) as [->|Hmore].
      * replace (q + S k - 1) with (k + 1 * q) by lia.
        rewrite Nat.Div0.mod_add. by replace (1 + k - 1) with k in Hph by lia.
      * by replace (t + S k - 1) with (S t + k - 1) by lia.
    + intros _. destruct k as [|k]; [|apply Hsome2; lia].
      cbn [sample_times] in Hk0. by injection Hk0 as _ <- _.
    + rewrite Hrng2, Hrng. destruct (decide (t = q)) as [->|Hmore].
      * replace (q + S k - 1) with (k + 1 * q) by lia.
        rewrite Nat.div_add by lia. replace (1 + k - 1) with k by lia.
        unfold draw_blocks. replace (k / q + 1) with (S (k / q)) by lia.
        by rewrite Nat.iter_succ_r.
      * by replace (t + S k - 1) with (S t + k - 1) by lia.
Qed.

(** X4.  From a freshly constructed distribution, [k] calls [sample(size)]
    with [1 <= size <= 5000] each return [size] values; a block serves
    [q = floor(5000 / size)] calls, so the generator is asked for
    [ceil(k / q)] blocks in all, and after the last call the cache holds
    [5000 - size * ((k - 1) mod q + 1)] values. *)
Theorem sample_refill_period (mu0 sigma0 : float) (d : dtype) (size k : nat) (rng : G) :
  1 <= size <= block ->
  let q := block / size in
  let '(results, self', rng') :=
    sample_times k (Z.of_nat size) (OptimizedNormalDistribution_init mu0 sigma0 d) rng in
  length results = k /\
  Forall (fun r => length r = size) results /\
  rng' = draw_blocks mu0 sigma0 block ((k + q - 1) / q) rng /\
  (1 <= k ->
   exists c, _cached_samples self' = Some c /\
             length c = block - size * ((k - 1) mod q + 1)).
Proof.
  intros Hs q.
  assert (1 <= q) as Hq by (apply Nat.div_le_lower_bound; lia).
  pose proof (sample_times_phase size mu0 sigma0 d k q
                (OptimizedNormalDistribution_init mu0 sigma0 d) rng Hs) as Hrun.
  cbv zeta in Hrun. fold q in Hrun.
  destruct (sample_times k (Z.of_nat size) _ rng) as [[results self'] rng'].
  destruct Hrun as (Hk & Hall & Hph & Hsome & Hrng).
  { repeat split; try done; try lia. by left. }
  split; [done|]. split; [done|].
  split; [by replace (k + q - 1) with (q + k - 1) by lia|].
  intros Hk1. destruct (Hsome Hk1) as [c Hc].
  replace (q + k - 1) with (k - 1 + 1 * q) in Hph by lia.
  rewrite Nat.Div0.mod_add in Hph.
  destruct Hph as (_ & _ & _ & _ & Ht & [[_ Hnone]|(c' & Hc' & Hlen)]); [congruence|].
  by exists c'.
Qed.

End SamplingMore.

(** ** The engine *)

Lemma omap_seq_lookup {A} (g : nat -> option A) (v : list A) (j : nat) :
  (forall r x, v !! r = Some x -> g (j + r) = Some x) ->
  omap g (seq j (length v)) = v.
Proof.
  revert j. induction v as [|x v IH]; intros j Hg; [done|].
  cbn [length seq omap list_omap].
  rewrite <- (Nat.add_0_r j) at 1. rewrite (Hg 0 x eq_refl). f_equal.
  apply IH. intros r y Hr. replace (S j + r) with (j + S r) by lia. by apply Hg.
Qed.

Lemma omap_pointwise {A B} (f g : A -> option B) (l : list A) :
  (forall x, f x = g x) -> omap f l = omap g l.
Proof. intros Hfg. induction l as [|x l IH]; [done|]. cbn. by rewrite Hfg, IH. Qed.

(** [m[:, i] = v], read back: column [i] is [v], the other columns are as
    before. *)
Lemma setitem_column_columns {A} (m : ndarray A) (i rows cols : nat) (v : list A) :
  shape m = [rows; cols] -> length (data m) = rows * cols ->
  i < cols -> length v = rows ->
  exists m',
    np.setitem_column m i v = Some m' /\
    shape m' = [rows; cols] /\ length (data m') = rows * cols /\
    column m' i = v /\
    forall j, j <> i -> j < cols -> column m' j = column m j.
Proof.
  intros Hshape Hlen Hi Hv. unfold np.setitem_column. rewrite Hshape.
  rewrite decide_True by (by left). eexists. split; [reflexivity|].
  unfold column. cbn [shape data]. rewrite Hshape.
  split; [done|]. split; [by rewrite length_imap|]. split.
  - rewrite <- Hv at 1. apply omap_seq_lookup. intros r x Hr. cbn [Nat.add].
    apply lookup_lt_Some in Hr as Hrlt.
    assert (r * cols + i < length (data m)) as Hk by nia.
    apply lookup_lt_is_Some in Hk as [y Hy].
    rewrite list_lookup_imap, Hy. cbn [fmap option_fmap option_map].
    replace (r * cols + i) with (i + r * cols) by lia.
    rewrite Nat.Div0.mod_add, Nat.mod_small by done. rewrite decide_True by done.
    rewrite Nat.div_add, Nat.div_small by lia. cbn [Nat.add].
    destruct (decide (length v = 1)) as [Hone|_].
    + assert (r = 0) as -> by lia. by rewrite Hr.
    + by rewrite Hr.
  - intros j Hji Hj. apply omap_pointwise. intros r.
    rewrite list_lookup_imap.
    destruct (data m !! (r * cols + j)) as [y|]; [|done].
    cbn [fmap option_fmap option_map].
    replace (r * cols + j) with (j + r * cols) by lia.
    rewrite Nat.Div0.mod_add, Nat.mod_small by done. by rewrite decide_False.
Qed.

Section EngineMore.
Context {G : Type} `{Generator G}.

Lemma draws_True (cfg : SimulationConfig) (mu0 sigma0 : float) (n : nat) (g : G) :
  True -> Forall (fun _ => True) (np.astype (config_dtype cfg) (normal mu0 sigma0 n g).1).
Proof. intros _. by apply Forall_forall. Qed.

Lemma engine_inv_of_ok (self : MemoryAwareMonteCarloEngine G) :
  distributions_ok self ->
  engine_inv (config self) (fun _ _ => True) (fun _ => True) (length (distributions self)) self.
Proof.
  intros Hok. split; [done|]. split; [done|].
  eapply Forall_impl; [exact Hok|]. intros dist [Hsize Hdtype].
  split; [done|]. split; [done|]. split; [done|]. intros c _. by apply Forall_forall.
Qed.

Lemma ok_of_engine_inv (cfg : SimulationConfig) (n : nat) (self : MemoryAwareMonteCarloEngine G) :
  engine_inv cfg (fun _ _ => True) (fun _ => True) n self -> distributions_ok self.
Proof.
  intros (Hcfg & _ & Hall). unfold distributions_ok. rewrite Hcfg.
  eapply Forall_impl; [exact Hall|]. by intros dist (? & ? & _).
Qed.

(** *** The constructor *)

Lemma initialize_loop_fresh (k : nat) (self : MemoryAwareMonteCarloEngine G)
    (Q : OptimizedNormalDistribution -> Prop) :
  (forall g g', Q (OptimizedNormalDistribution_init
                     (normal1 (Float.of_Z float64 0) (Float.of_Z float64 1) g).1
                     (uniform (Float.div float64 (Float.of_Z float64 1) (Float.of_Z float64 2))
                        (Float.of_Z float64 2) g').1
                     (config_dtype (config self)))) ->
  Forall Q (distributions self) ->
  config (initialize_loop k self) = config self /\
  results_queue_maxsize (initialize_loop k self) = results_queue_maxsize self /\
  length (distributions (initialize_loop k self)) = length (distributions self) + k /\
  Forall Q (distributions (initialize_loop k self)).
Proof.
  revert self. induction k as [|k IH]; intros self HQ Hall; cbn [initialize_loop].
  - by rewrite Nat.add_0_r.
  - pose proof (HQ (rng self)) as HQ1.
    destruct (normal1 _ _ (rng self)) as [m g1]. cbn [fst] in HQ1. specialize (HQ1 g1).
    destruct (uniform _ _ g1) as [s g2]. cbn [fst] in HQ1.
    edestruct (IH (mk_Engine (config self) g2 (results_queue_maxsize self)
                     (distributions self ++
                        [OptimizedNormalDistribution_init m s (config_dtype (config self))])))
      as (Hcfg & Hq & Hlen & HallQ).
    { exact HQ. }
    { cbn [distributions]. apply Forall_app. split; [done|]. by constructor. }
    cbn [config results_queue_maxsize distributions] in *.
    rewrite length_app in Hlen. cbn [length] in Hlen.
    split; [done|]. split; [done|]. split; [lia|done].
Qed.

(** X5.  [MemoryAwareMonteCarloEngine(config)] keeps the configuration, and
    builds one distribution per variable (none for a negative count): each
    has no cache yet, blocks of 5000 draws, the dtype of the configuration,
    a mean that is a [normal(0, 1)] draw and a spread that is a
    [uniform(0.5, 2)] draw of the engine's generator. *)
Theorem engine_init_distributions (cfg : SimulationConfig) :
  let self := MemoryAwareMonteCarloEngine_init cfg in
  config self = cfg /\
  results_queue_maxsize self = 100%Z /\
  length (distributions self) = Z.to_nat (n_variables cfg) /\
  Forall (fun dist =>
            _cached_samples dist = None /\
            _cache_size dist = 5000%Z /\
            dist_dtype dist = config_dtype cfg /\
            (exists g, mu dist = (normal1 (Float.of_Z float64 0) (Float.of_Z float64 1) g).1) /\
            (exists g, sigma dist =
                         (uniform (Float.div float64 (Float.of_Z float64 1) (Float.of_Z float64 2))
                            (Float.of_Z float64 2) g).1))
         (distributions self).
Proof.
  intros self. subst self.
  unfold MemoryAwareMonteCarloEngine_init, _initialize_distributions. cbn [config].
  edestruct (initialize_loop_fresh (Z.to_nat (n_variables cfg))
               (mk_Engine cfg (default_rng 42) 100 [])) as (Hcfg & Hq & Hlen & Hall);
    [| |split; [exact Hcfg|split; [exact Hq|split; [exact Hlen|exact Hall]]]].
  - intros g g'. cbn [config _cached_samples _cache_size dist_dtype mu sigma
                        OptimizedNormalDistribution_init].
    split; [done|]. split; [done|]. split; [done|]. split; by eexists.
  - constructor.
Qed.

(** *** [_simulate_batch] *)

Lemma simulate_columns_arrays (cfg : SimulationConfig) (rows cols len start : nat)
    (m : ndarray float) (self : MemoryAwareMonteCarloEngine G) :
  engine_inv cfg (fun _ _ => True) (fun _ => True) cols self ->
  shape m = [rows; cols] -> length (data m) = rows * cols ->
  start + len <= cols -> (0 <= Z.of_nat rows <= 5000)%Z ->
  exists m' arrays self',
    for_in (seq start len)
      (fun i results =>
         bind (dist_sample i (Z.of_nat rows))
              (fun values => assign_column (config_dtype cfg) results i values))
      m self = ([], Ok m', self') /\
    sample_calls ((fun i => (i, Z.of_nat rows)) <$> seq start len) self
      = ([], Ok arrays, self') /\
    shape m' = [rows; cols] /\ length (data m') = rows * cols /\
    engine_inv cfg (fun _ _ => True) (fun _ => True) cols self' /\
    length arrays = len /\
    Forall (fun v => length v = rows) arrays /\
    (forall j, j < start -> column m' j = column m j) /\
    (forall j, j < len -> arrays !! j = Some (column m' (start + j))).
Proof.
  revert start m self. induction len as [|len IH];
    intros start m self Heng Hshape Hlen Hfit Hrows.
  - exists m, [], self. cbn [seq fmap list_fmap for_in sample_calls ret length].
    do 6 (split; [done|]). split; [constructor|]. split; [done|]. intros j Hj. lia.
  - cbn [seq fmap list_fmap for_in sample_calls].
    destruct (dist_sample_inv cfg (fun _ _ => True) (fun _ => True) (draws_True cfg) cols start
                (Z.of_nat rows) self Heng) as (v & self1 & Hsample & Hv & _ & Heng1);
      [lia|done|].
    rewrite Nat2Z.id in Hv.
    destruct (setitem_column_columns m start rows cols v Hshape Hlen) as
      (m1 & Hset & Hshape1 & Hlen1 & Hcol & Hother); [lia|done|].
    destruct (IH (S start) m1 self1 Heng1 Hshape1 Hlen1) as
      (m' & arrays & self' & Hloop & Hcalls & Hshape' & Hlen' & Heng' & Hn & Hall &
       Hbefore & Hcols); [lia|done|].
    assert (assign_column (config_dtype cfg) m start (config_dtype cfg, v) self1
            = ([], Ok m1, self1)) as Hassign.
    { unfold assign_column. cbn [fst snd]. rewrite decide_True by done. by rewrite Hset. }
    exists m', (v :: arrays), self'.
    split.
    { unfold bind at 1. unfold bind at 1. by rewrite Hsample, Hassign, Hloop. }
    split.
    { unfold bind at 1. rewrite Hsample. unfold bind at 1.
      cbn [fmap list_fmap] in Hcalls. by rewrite Hcalls. }
    split; [done|]. split; [done|]. split; [done|].
    split; [by cbn; rewrite Hn|]. split; [by constructor|].
    split.
    { intros j Hj. rewrite Hbefore by lia. apply Hother; lia. }
    intros [|j] Hj.
    + rewrite Nat.add_0_r. change ((v :: arrays) !! 0) with (Some v).
      f_equal. rewrite Hbefore by lia. done.
    + change ((v :: arrays) !! S j) with (arrays !! j).
      rewrite (Hcols j) by lia. do 2 f_equal. lia.
Qed.

(** X6.  [_simulate_batch(batch_size)] with [0 <= batch_size <= 5000]
    returns without exception a [batch_size x n] matrix (one column per
    distribution) whose column [i] is the array the [i]-th distribution's
    [sample(batch_size)] returned, the distributions being sampled in index
    order from the shared generator; the engine it leaves is the one those
    calls leave, still with blocks of 5000 and the dtype of the
    configuration. *)
Theorem simulate_batch_columns (self : MemoryAwareMonteCarloEngine G) (bs : Z) :
  (0 <= bs <= 5000)%Z ->
  distributions_ok self ->
  let n := length (distributions self) in
  exists m arrays self',
    _simulate_batch bs self = ([], Ok m, self') /\
    sample_calls ((fun i => (i, bs)) <$> seq 0 n) self = ([], Ok arrays, self') /\
    shape m = [Z.to_nat bs; n] /\
    length (data m) = Z.to_nat bs * n /\
    length arrays = n /\
    (forall i, i < n ->
       exists v, arrays !! i = Some v /\ length v = Z.to_nat bs /\ column m i = v) /\
    config self' = config self /\
    length (distributions self') = n /\
    distributions_ok self'.
Proof.
  intros Hbs Hok n. pose proof (engine_inv_of_ok self Hok) as Heng. fold n in Heng.
  destruct (simulate_columns_arrays (config self) (Z.to_nat bs) n n 0
              (np.zeros [Z.to_nat bs; n]) self Heng) as
    (m & arrays & self' & Hloop & Hcalls & Hshape & Hlen & Heng' & Hn & Hall & _ & Hcols).
  { done. }
  { cbn [np.zeros data size_of fold_right]. rewrite length_replicate. lia. }
  { lia. }
  { lia. }
  rewrite Z2Nat.id in Hloop, Hcalls by lia.
  exists m, arrays, self'. split.
  { unfold _simulate_batch. unfold bind at 1, get.
    destruct (Z.ltb_spec bs 0) as [?|_]; [lia|]. fold n. by rewrite Hloop. }
  split; [done|]. split; [done|]. split; [done|]. split; [done|].
  split.
  { intros i Hi. exists (column m i). split; [by rewrite (Hcols i Hi)|]. split; [|done].
    eapply Forall_lookup_1 in Hall; [exact Hall|]. by rewrite (Hcols i Hi). }
  pose proof Heng' as (Hcfg' & Hlen' & _).
  split; [done|]. split; [done|]. by eapply ok_of_engine_inv.
Qed.

(** X7.  The edges of [_simulate_batch]: a negative batch size raises
    ValueError before anything is sampled, and an engine without
    distributions gets an empty [batch_size x 0] matrix; in both cases the
    engine is untouched. *)
Theorem simulate_batch_degenerate (self : MemoryAwareMonteCarloEngine G) (bs : Z) :
  ((bs < 0)%Z -> _simulate_batch bs self = ([], Error ValueError, self)) /\
  ((0 <= bs)%Z -> distributions self = [] ->
   _simulate_batch bs self = ([], Ok (mk_ndarray [Z.to_nat bs; 0] []), self)).
Proof.
  split.
  - intros Hbs. unfold _simulate_batch, bind, get.
    by destruct (Z.ltb_spec bs 0) as [_|?]; [|lia].
  - intros Hbs Hnone. unfold _simulate_batch, bind, get. rewrite Hnone.
    destruct (Z.ltb_spec bs 0) as [?|_]; [lia|].
    cbn [length seq for_in ret]. unfold np.zeros.
    by replace (size_of [Z.to_nat bs; 0]) with 0 by (cbn; lia).
Qed.

(** The first turn of the loop over the distributions when the batch has
    more rows than a block has values. *)
Lemma simulate_batch_first_column (self : MemoryAwareMonteCarloEngine G) (bs : Z)
    (dist : OptimizedNormalDistribution) (rest : list OptimizedNormalDistribution) :
  (5000 < bs)%Z ->
  distributions self = dist :: rest ->
  _cache_size dist = 5000%Z ->
  (forall c, _cached_samples dist = Some c -> length c <= block) ->
  _simulate_batch bs self =
    ([], Error ValueError,
     mk_Engine (config self) (fresh_block dist (rng self)).2 (results_queue_maxsize self)
       (mk_OptimizedNormalDistribution (mu dist) (sigma dist) (dist_dtype dist) (Some []) 5000
          :: rest)).
Proof.
  intros Hbs Hdists Hcs Hcache. pose proof block_eq as Hblock.
  destruct (sample_beyond_block dist bs (rng self) Hcs Hbs Hcache) as [Hcall Hlen].
  set (result := (fresh_block dist (rng self)).1) in *.
  set (dist' := mk_OptimizedNormalDistribution _ _ _ _ _) in *.
  assert (dist_sample 0 bs self =
            ([], Ok (dist_dtype dist, result),
             mk_Engine (config self) (fresh_block dist (rng self)).2
               (results_queue_maxsize self) (dist' :: rest)))
    as Hfirst.
  { unfold dist_sample. rewrite Hdists. cbn [lookup list_lookup]. by rewrite Hcall. }
  assert (forall s : MemoryAwareMonteCarloEngine G,
            assign_column (config_dtype (config self))
              (np.zeros [Z.to_nat bs; S (length rest)]) 0 (dist_dtype dist, result) s
            = ([], Error ValueError, s)) as Hassign.
  { intros s. unfold assign_column. cbn [fst snd].
    set (v := if decide (dist_dtype dist = config_dtype (config self))
              then result else np.astype (config_dtype (config self)) result).
    assert (length v = block) as Hv.
    { subst v. destruct (decide _); [done|]. unfold np.astype. by rewrite length_fmap. }
    unfold np.setitem_column. cbn [np.zeros shape].
    by rewrite decide_False by lia. }
  unfold _simulate_batch. unfold bind at 1, get.
  destruct (Z.ltb_spec bs 0) as [?|_]; [lia|].
  rewrite Hdists. cbn [length seq for_in]. unfold bind at 1. unfold bind at 1.
  by rewrite Hfirst, Hassign.
Qed.

(** X8.  With a batch size above 5000 the first column cannot be filled:
    the first distribution draws one block, [sample] returns its 5000 values
    for a column of more rows, and ValueError is raised.  The failed call is
    not undone: the generator has advanced by that block and the first
    distribution is left with an empty cache. *)
Theorem simulate_batch_oversized (self : MemoryAwareMonteCarloEngine G) (bs : Z)
    (dist : OptimizedNormalDistribution) (rest : list OptimizedNormalDistribution) :
  (5000 < bs)%Z ->
  distributions self = dist :: rest ->
  _cache_size dist = 5000%Z ->
  (forall c, _cached_samples dist = Some c -> length c <= block) ->
  exists self',
    _simulate_batch bs self = ([], Error ValueError, self') /\
    rng self' = (fresh_block dist (rng self)).2 /\
    (exists dist', distributions self' = dist' :: rest /\ _cached_samples dist' = Some []) /\
    config self' = config self.
Proof.
  intros Hbs Hdists Hcs Hcache.
  rewrite (simulate_batch_first_column self bs dist rest Hbs Hdists Hcs Hcache).
  eexists. split; [reflexivity|]. cbn [rng distributions config].
  split; [done|]. split; [|done]. by eexists.
Qed.

(** *** [run_simulation] *)

(** X9.  The runs that simulate nothing: a batch size of 0 raises
    ZeroDivisionError right after the first log line, before the pool is
    created; and when [n_simulations // batch_size] is not positive (fewer
    simulations than one batch, or a negative batch size) the pool is
    created and shut down, no batch is drawn and the empty list is returned.
    The engine is untouched in both cases. *)
Theorem run_simulation_degenerate (self : MemoryAwareMonteCarloEngine G) :
  (batch_size (config self) = 0%Z ->
   run_simulation self = ([LogInfo Iniciando], Error ZeroDivisionError, self)) /\
  (batch_size (config self) <> 0%Z ->
   (n_simulations (config self) / batch_size (config self) <= 0)%Z ->
   run_simulation self = ([LogInfo Iniciando; ExecutorEnter 4; ExecutorExit], Ok [], self)).
Proof.
  split.
  - intros Hz. unfold run_simulation, bind, logger_info, emit, get, floordiv.
    rewrite Hz. done.
  - intros Hnz Hn. unfold run_simulation, bind, logger_info, emit, get, floordiv.
    destruct (Z.eqb_spec (batch_size (config self)) 0) as [?|_]; [done|].
    cbn [ret]. unfold with_ThreadPoolExecutor.
    replace (Z.to_nat _) with 0 by lia. done.
Qed.

Lemma progress_lines_filter (n_batches : Z) (l : list nat) :
  progress_lines n_batches l =
    (fun i => LogInfo (Processando (Z.of_nat i + 1) n_batches)) <$>
      List.filter (fun i => (Z.of_nat i mod 10 =? 0)%Z) l.
Proof.
  induction l as [|i l IH]; [done|].
  cbn [progress_lines List.filter]. unfold progress_line.
  destruct (Z.of_nat i mod 10 =? 0)%Z; cbn; by rewrite IH.
Qed.

(** X10.  The log of a run that succeeds ([1 <= batch_size <= 5000], fresh
    engine): the start line, the creation of the pool with 4 workers, one
    line for every batch whose index is a multiple of 10 -- in increasing
    order, numbered from 1, with the number of batches -- and the shutdown
    of the pool. *)
Theorem run_simulation_log (cfg : SimulationConfig) :
  (1 <= batch_size cfg <= 5000)%Z ->
  let n_batches := (n_simulations cfg / batch_size cfg)%Z in
  (run_simulation (MemoryAwareMonteCarloEngine_init (G := G) cfg)).1.1 =
    LogInfo Iniciando :: ExecutorEnter 4 ::
      ((fun i => LogInfo (Processando (Z.of_nat i + 1) n_batches)) <$>
         List.filter (fun i => (Z.of_nat i mod 10 =? 0)%Z) (seq 0 (Z.to_nat n_batches)))
      ++ [ExecutorExit].
Proof.
  intros Hbs n_batches.
  destruct (run_simulation_returns (G := G) cfg (fun _ _ => True) (fun _ => True)
              (fun _ _ => I) (draws_True cfg) Hbs)
    as (self' & -> & _).
  cbn [fst]. by rewrite progress_lines_filter.
Qed.

(** X11.  A freshly constructed engine with a batch size above 5000, at
    least one variable and at least one batch to run raises ValueError in
    its first batch: the log has the start line, the creation of the pool,
    the line of batch 1, and the shutdown of the pool, which the exception
    does not skip. *)
Theorem run_simulation_oversized (cfg : SimulationConfig) :
  (5000 < batch_size cfg)%Z ->
  (1 <= n_variables cfg)%Z ->
  (batch_size cfg <= n_simulations cfg)%Z ->
  let n_batches := (n_simulations cfg / batch_size cfg)%Z in
  exists self',
    run_simulation (MemoryAwareMonteCarloEngine_init (G := G) cfg) =
      ([LogInfo Iniciando; ExecutorEnter 4; LogInfo (Processando 1 n_batches); ExecutorExit],
       Error ValueError, self').
Proof.
  intros Hbs Hvars Hsims n_batches.
  destruct (initialize_loop_fresh (Z.to_nat (n_variables cfg))
              (mk_Engine cfg (default_rng 42) 100 [])
              (fun dist => _cached_samples dist = None /\ _cache_size dist = 5000%Z))
    as (Hcfg & _ & Hlen & Hall); [done|constructor|].
  change (initialize_loop _ _) with (MemoryAwareMonteCarloEngine_init (G := G) cfg) in *.
  set (self := MemoryAwareMonteCarloEngine_init cfg) in *.
  cbn [config distributions length] in Hcfg, Hlen.
  destruct (distributions self) as [|dist rest] eqn:Hdists; [cbn in Hlen; lia|].
  apply Forall_cons in Hall as [(Hnone & Hcs) _].
  pose proof (simulate_batch_first_column self (batch_size cfg) dist rest Hbs Hdists Hcs)
    as Hrun.
  set (self' := mk_Engine _ _ _ _) in Hrun.
  specialize (Hrun ltac:(intros c Hc; congruence)).
  assert (1 <= n_batches)%Z as Hn.
  { subst n_batches. apply Z.div_le_lower_bound; lia. }
  assert (batch_turn n_batches 0 [] self =
            ([LogInfo (Processando 1 n_batches)], Error ValueError, self')) as Hturn.
  { unfold batch_turn. unfold bind at 1.
    change (Z.of_nat 0 mod 10 =? 0)%Z with true. cbn [logger_info emit Z.of_nat Z.add].
    unfold bind at 1, get. unfold bind at 1. by rewrite Hcfg, Hrun. }
  exists self'.
  unfold run_simulation. unfold bind at 1, logger_info, emit. unfold bind at 1, get.
  unfold bind at 1, floordiv. rewrite Hcfg.
  destruct (Z.eqb_spec (batch_size cfg) 0) as [?|_]; [lia|]. cbn [ret].
  unfold with_ThreadPoolExecutor. fold n_batches.
  destruct (Z.to_nat n_batches) as [|k] eqn:Hk; [lia|].
  cbn [seq for_in]. unfold bind at 1. by rewrite Hturn.
Qed.

(** *** A second run *)

(** A run on an engine whose distributions are as the constructor makes
    them, fresh or not. *)
Lemma run_simulation_from (self : MemoryAwareMonteCarloEngine G) :
  (1 <= batch_size (config self) <= 5000)%Z ->
  distributions_ok self ->
  let cfg := config self in
  let n_batches := Z.to_nat (n_simulations cfg / batch_size cfg) in
  let batches := batches_from n_batches (batch_size cfg) self in
  exists self',
    run_simulation self =
      (LogInfo Iniciando :: ExecutorEnter 4 ::
         progress_lines (n_simulations cfg / batch_size cfg) (seq 0 n_batches) ++ [ExecutorExit],
       Ok (_process_batch (config_dtype cfg) <$> batches), self') /\
    length batches = n_batches /\
    config self' = cfg /\
    length (distributions self') = length (distributions self) /\
    distributions_ok self'.
Proof.
  intros Hsize Hok cfg n_batches batches.
  pose proof (engine_inv_of_ok self Hok) as Heng. fold cfg in Heng, Hsize.
  destruct (batch_turns_inv cfg (fun _ _ => True) (fun _ => True) (draws_True cfg) _
              (n_simulations cfg / batch_size cfg) (seq 0 n_batches) [] self Heng)
    as (self' & Hloop & Hlen & _ & Heng'); [lia|].
  rewrite length_seq in Hloop, Hlen. fold batches in Hloop, Hlen.
  cbn [app] in Hloop.
  exists self'. split.
  { unfold run_simulation. unfold bind at 1, logger_info, emit. unfold bind at 1, get.
    unfold bind at 1, floordiv. fold cfg.
    destruct (Z.eqb_spec (batch_size cfg) 0) as [Hz|_]; [lia|]. cbn [ret].
    unfold with_ThreadPoolExecutor. fold n_batches. rewrite Hloop. reflexivity. }
  split; [done|]. pose proof Heng' as (Hcfg' & Hlen' & _).
  split; [done|]. split; [done|]. by eapply ok_of_engine_inv.
Qed.

(** X12.  [run_simulation] can be called again on the engine a run leaves:
    for an engine with [1 <= batch_size <= 5000] whose distributions are as
    the constructor makes them (fresh or already used), the run returns
    [floor(n_simulations / batch_size)] entries and leaves an engine of the
    same kind, on which a second run writes the same log and returns as
    many entries. *)
Theorem run_simulation_repeatable (self : MemoryAwareMonteCarloEngine G) :
  (1 <= batch_size (config self) <= 5000)%Z ->
  distributions_ok self ->
  exists evs results self' results' self'',
    run_simulation self = (evs, Ok results, self') /\
    run_simulation self' = (evs, Ok results', self'') /\
    length results = Z.to_nat (n_simulations (config self) / batch_size (config self)) /\
    length results' = length results /\
    config self'' = config self /\
    length (distributions self'') = length (distributions self) /\
    distributions_ok self''.
Proof.
  intros Hsize Hok.
  destruct (run_simulation_from self Hsize Hok) as (self' & Hrun & Hlen & Hcfg & Hn & Hok').
  destruct (run_simulation_from self') as (self'' & Hrun' & Hlen' & Hcfg' & Hn' & Hok'').
  { by rewrite Hcfg. }
  { done. }
  rewrite Hcfg in Hrun', Hlen', Hcfg'.
  eexists _, _, self', _, self''. split; [exact Hrun|]. split; [exact Hrun'|].
  rewrite !length_fmap, Hlen, Hlen'. split; [done|]. split; [done|].
  split; [done|]. split; [congruence|done].
Qed.

(** *** The settings no method reads *)

Lemma agree_ret {A} (a : A) : agree (G := G) (ret a) (ret a).
Proof. by intros e1 e2 Hs. Qed.

Lemma agree_raise {A} (e : exn) : agree (G := G) (raise (A := A) e) (raise e).
Proof. by intros e1 e2 Hs. Qed.

Lemma agree_emit (ev : event) : agree (G := G) (emit ev) (emit ev).
Proof. by intros e1 e2 Hs. Qed.

Lemma agree_bind {A B} (c1 c2 : M G A) (k1 k2 : A -> M G B) :
  agree c1 c2 -> (forall a, agree (k1 a) (k2 a)) -> agree (bind c1 k1) (bind c2 k2).
Proof.
  intros Hc Hk e1 e2 Hs. unfold bind. specialize (Hc e1 e2 Hs).
  destruct (c1 e1) as [[evs1 r1] s1], (c2 e2) as [[evs2 r2] s2]. cbn [fst snd] in Hc.
  destruct Hc as [[= -> ->] Hs']. destruct r2 as [a|e]; [|done].
  specialize (Hk a s1 s2 Hs').
  destruct (k1 a s1) as [[evs1' r1'] s1'], (k2 a s2) as [[evs2' r2'] s2'].
  cbn [fst snd] in *. by destruct Hk as [[= -> ->] ?].
Qed.

Lemma agree_get {B} (k1 k2 : MemoryAwareMonteCarloEngine G -> M G B) :
  (forall e1 e2, same_state e1 e2 -> agree (k1 e1) (k2 e2)) ->
  agree (bind get k1) (bind get k2).
Proof.
  intros Hk e1 e2 Hs. unfold bind, get. specialize (Hk e1 e2 Hs e1 e2 Hs).
  by destruct (k1 e1 e1) as [[evs1 r1] s1], (k2 e2 e2) as [[evs2 r2] s2].
Qed.

Lemma agree_for_in {A B} (l : list A) (body1 body2 : A -> B -> M G B) (acc : B) :
  (forall x b, agree (body1 x b) (body2 x b)) ->
  agree (for_in l body1 acc) (for_in l body2 acc).
Proof.
  intros Hbody. revert acc. induction l as [|x l IH]; intros acc; cbn [for_in].
  - apply agree_ret.
  - apply agree_bind; [apply Hbody|apply IH].
Qed.

Lemma agree_with_ThreadPoolExecutor {A} (n : Z) (c1 c2 : M G A) :
  agree c1 c2 -> agree (with_ThreadPoolExecutor n c1) (with_ThreadPoolExecutor n c2).
Proof.
  intros Hc e1 e2 Hs. unfold with_ThreadPoolExecutor. specialize (Hc e1 e2 Hs).
  destruct (c1 e1) as [[evs1 r1] s1], (c2 e2) as [[evs2 r2] s2]. cbn [fst snd] in *.
  by destruct Hc as [[= -> ->] ?].
Qed.

Lemma agree_dist_sample (i : nat) (size : Z) :
  agree (G := G) (dist_sample i size) (dist_sample i size).
Proof.
  intros e1 e2 (Hr & Hd & Hn & Hb & Ht). unfold dist_sample. rewrite Hr, Hd.
  destruct (distributions e2 !! i) as [dist|]; [|done].
  by destruct (sample dist size (rng e2)) as [[result dist'] rng'].
Qed.

Lemma agree_assign_column (d : dtype) (m : ndarray float) (i : nat)
    (values : dtype * list float) :
  agree (G := G) (assign_column d m i values) (assign_column d m i values).
Proof.
  unfold assign_column. destruct (np.setitem_column _ _ _); [apply agree_ret|apply agree_raise].
Qed.

Lemma agree_simulate_batch (bs : Z) : agree (G := G) (_simulate_batch bs) (_simulate_batch bs).
Proof.
  unfold _simulate_batch. apply agree_get. intros e1 e2 (Hr & Hd & Hn & Hb & Ht).
  rewrite Hd, Ht. destruct (bs <? 0)%Z; [apply agree_raise|].
  apply agree_for_in. intros i m. apply agree_bind; [apply agree_dist_sample|].
  intros values. apply agree_assign_column.
Qed.

Lemma agree_batch_turn (n_batches : Z) (batch_idx : nat) (acc : list dict) :
  agree (G := G) (batch_turn n_batches batch_idx acc) (batch_turn n_batches batch_idx acc).
Proof.
  unfold batch_turn. apply agree_bind.
  { destruct (_ =? 0)%Z; [apply agree_emit|apply agree_ret]. }
  intros _. apply agree_get. intros e1 e2 (Hr & Hd & Hn & Hb & Ht). rewrite Hb, Ht.
  apply agree_bind; [apply agree_simulate_batch|]. intros m. apply agree_ret.
Qed.

Lemma agree_run_simulation : agree (G := G) run_simulation run_simulation.
Proof.
  unfold run_simulation. apply agree_bind; [apply agree_emit|].
  intros _. apply agree_get. intros e1 e2 (Hr & Hd & Hn & Hb & Ht). rewrite Hn, Hb.
  apply agree_bind.
  { unfold floordiv. destruct (_ =? 0)%Z; [apply agree_raise|apply agree_ret]. }
  intros n_batches. apply agree_with_ThreadPoolExecutor, agree_for_in.
  intros i acc. apply agree_batch_turn.
Qed.

(** X13.  A run reads four settings only: two configurations with the same
    number of simulations, batch size, number of variables and dtype give
    the same log, the same outcome (the same metrics, or the same
    exception) and leave the same generator and distributions; the
    confidence level, the optimization target and the memory budget change
    nothing. *)
Theorem run_simulation_unused_settings (cfg1 cfg2 : SimulationConfig) :
  n_simulations cfg1 = n_simulations cfg2 ->
  batch_size cfg1 = batch_size cfg2 ->
  n_variables cfg1 = n_variables cfg2 ->
  config_dtype cfg1 = config_dtype cfg2 ->
  let run1 := run_simulation (MemoryAwareMonteCarloEngine_init (G := G) cfg1) in
  let run2 := run_simulation (MemoryAwareMonteCarloEngine_init (G := G) cfg2) in
  run1.1 = run2.1 /\
  rng run1.2 = rng run2.2 /\
  distributions run1.2 = distributions run2.2.
Proof.
  intros Hn Hb Hv Ht run1 run2.
  assert (same_state (MemoryAwareMonteCarloEngine_init (G := G) cfg1)
            (MemoryAwareMonteCarloEngine_init cfg2)) as Hs.
  { unfold MemoryAwareMonteCarloEngine_init, _initialize_distributions. cbn [config].
    rewrite Hv.
    destruct (initialize_loop_congr (Z.to_nat (n_variables cfg2))
                (mk_Engine cfg1 (default_rng 42) 100 [])
                (mk_Engine cfg2 (default_rng 42) 100 [])) as [Hr Hd]; [done..|].
    destruct (initialize_loop_fresh (Z.to_nat (n_variables cfg2))
                (mk_Engine cfg1 (default_rng 42) 100 []) (fun _ => True))
      as (Hcfg1 & _); [done|constructor|].
    destruct (initialize_loop_fresh (Z.to_nat (n_variables cfg2))
                (mk_Engine cfg2 (default_rng 42) 100 []) (fun _ => True))
      as (Hcfg2 & _); [done|constructor|].
    split; [done|]. split; [done|]. by rewrite Hcfg1, Hcfg2. }
  destruct (agree_run_simulation _ _ Hs) as (Hout & Hr & Hd & _).
  by subst run1 run2.
Qed.

End EngineMore.

Lemma sample_twice_same_block_witness :
  exists r1 r2 self1 self2 rng1 rng2,
    sample example_distribution 1 (default_rng (G := Z) 42) = (r1, self1, rng1) /\
    sample self1 2 rng1 = (r2, self2, rng2) /\
    r1 ++ r2 = [Float.of_Z float32 1; Float.of_Z float32 2; Float.of_Z float32 3] /\
    rng2 = default_rng 42.
Proof.
  pose proof (sample_twice_same_block (G := Z) example_distribution 1 2 (default_rng 42) _
                eq_refl ltac:(lia) ltac:(lia) ltac:(simpl; lia)) as Hw.
  destruct (sample example_distribution 1 _) as [[r1 self1] rng1].
  destruct (sample self1 2 rng1) as [[r2 self2] rng2] eqn:Hsecond.
  destruct Hw as (_ & _ & Happ & _ & Hrng).
  exists r1, r2, self1, self2, rng1, rng2.
  split; [reflexivity|]. split; [exact Hsecond|]. split; [exact Happ|exact Hrng].
Defined.

Lemma sample_oversized_witness :
  exists results self' rng',
    sample_times 3 6000
      (OptimizedNormalDistribution_init (Float.of_Z float64 0) (Float.of_Z float64 1) float32)
      (default_rng (G := Z) 42) = (results, self', rng') /\
    length results = 3 /\
    _cached_samples self' = Some [].
Proof.
  pose proof (sample_oversized (G := Z)
                (OptimizedNormalDistribution_init (Float.of_Z float64 0) (Float.of_Z float64 1)
                   float32)
                6000 3 (default_rng 42) eq_refl ltac:(lia)
                ltac:(intros c Hc; discriminate Hc)) as Hw.
  destruct (sample_times 3 6000 _ _) as [[results self'] rng'].
  destruct Hw as (Hk & _ & _ & Hempty).
  exists results, self', rng'.
  split; [reflexivity|]. split; [exact Hk|]. apply Hempty. lia.
Defined.

Lemma sample_negative_size_witness :
  exists result self' rng',
    sample example_distribution (-1) (default_rng (G := Z) 42) = (result, self', rng') /\
    result = [Float.of_Z float32 1; Float.of_Z float32 2] /\
    _cached_samples self' = Some [Float.of_Z float32 3].
Proof.
  pose proof (sample_negative_size (G := Z) example_distribution (-1) (default_rng 42) _
                eq_refl ltac:(lia)) as Hw.
  destruct (sample example_distribution (-1) _) as [[result self'] rng'].
  destruct Hw as (Hresult & Hcache & _).
  exists result, self', rng'.
  split; [reflexivity|]. split; [exact Hresult|exact Hcache].
Defined.

Lemma sample_refill_period_witness :
  exists results self' rng' c,
    sample_times 7 1000
      (OptimizedNormalDistribution_init (Float.of_Z float64 0) (Float.of_Z float64 1) float32)
      (default_rng (G := Z) 42) = (results, self', rng') /\
    length results = 7 /\
    _cached_samples self' = Some c /\
    Z.of_nat (length c) = 3000%Z.
Proof.
  pose proof (sample_refill_period (G := Z) (Float.of_Z float64 0) (Float.of_Z float64 1)
                float32 (Z.to_nat 1000) 7 (default_rng 42)
                ltac:(unfold block; lia)) as Hw.
  cbv zeta in Hw. rewrite Z2Nat.id in Hw by lia.
  destruct (sample_times 7 1000 _ _) as [[results self'] rng'].
  destruct Hw as (Hk & _ & _ & Hcache).
  destruct (Hcache ltac:(lia)) as (c & Hc & Hlen).
  exists results, self', rng', c.
  split; [reflexivity|]. split; [exact Hk|]. split; [exact Hc|].
  rewrite Hlen. reflexivity.
Defined.

Lemma simulate_batch_columns_witness :
  exists m arrays self',
    _simulate_batch 1000 (MemoryAwareMonteCarloEngine_init (G := Z) SimulationConfig_init)
      = ([], Ok m, self') /\
    length arrays = 4 /\
    arrays !! 0 = Some (column m 0).
Proof.
  destruct (simulate_batch_columns (G := Z)
              (MemoryAwareMonteCarloEngine_init SimulationConfig_init) 1000)
    as (m & arrays & self' & Hrun & _ & _ & _ & Hlen & Hcols & _).
  - lia.
  - eapply ok_of_engine_inv, (engine_init_inv SimulationConfig_init (fun _ _ => True) (fun _ => True)
                               (fun _ _ => I)).
  - exists m, arrays, self'. split; [exact Hrun|].
    assert (length (distributions
                      (MemoryAwareMonteCarloEngine_init (G := Z) SimulationConfig_init)) = 4)
      as Hfour by reflexivity.
    split; [by rewrite Hlen|].
    destruct (Hcols 0) as (v & Hv & _ & Hcol); [rewrite Hfour; lia|].
    by rewrite Hv, Hcol.
Defined.

Lemma simulate_batch_oversized_witness :
  exists self',
    _simulate_batch 6000 example_engine = ([], Error ValueError, self') /\
    config self' = config example_engine.
Proof.
  destruct (simulate_batch_oversized example_engine 6000 _ _ ltac:(lia) eq_refl eq_refl)
    as (self' & Hrun & _ & _ & Hcfg).
  - intros c Hc. discriminate Hc.
  - exists self'. split; [exact Hrun|exact Hcfg].
Defined.

Lemma run_simulation_log_witness :
  (run_simulation (MemoryAwareMonteCarloEngine_init (G := Z) SimulationConfig_init)).1.1 =
    [LogInfo Iniciando; ExecutorEnter 4;
     LogInfo (Processando 1 40); LogInfo (Processando 11 40);
     LogInfo (Processando 21 40); LogInfo (Processando 31 40);
     ExecutorExit].
Proof.
  rewrite (run_simulation_log (G := Z) SimulationConfig_init) by (simpl; lia).
  reflexivity.
Defined.

Lemma run_simulation_oversized_witness :
  exists self',
    run_simulation (MemoryAwareMonteCarloEngine_init (G := Z) (config_with 12000 6000 2)) =
      ([LogInfo Iniciando; ExecutorEnter 4; LogInfo (Processando 1 2); ExecutorExit],
       Error ValueError, self').
Proof.
  destruct (run_simulation_oversized (G := Z) (config_with 12000 6000 2))
    as (self' & Hrun); [simpl; lia..|].
  exists self'. exact Hrun.
Defined.

Lemma run_simulation_repeatable_witness :
  exists evs results self' results' self'',
    run_simulation (MemoryAwareMonteCarloEngine_init (G := Z) SimulationConfig_init)
      = (evs, Ok results, self') /\
    run_simulation self' = (evs, Ok results', self'') /\
    length results = 40 /\ length results' = 40.
Proof.
  destruct (run_simulation_repeatable (G := Z)
              (MemoryAwareMonteCarloEngine_init SimulationConfig_init))
    as (evs & results & self' & results' & self'' & Hrun & Hrun' & Hlen & Hlen' & _).
  - destruct (engine_init_inv (G := Z) SimulationConfig_init (fun _ _ => True) (fun _ => True)
                (fun _ _ => I)) as (-> & _).
    simpl. lia.
  - eapply ok_of_engine_inv, (engine_init_inv SimulationConfig_init (fun _ _ => True) (fun _ => True)
                               (fun _ _ => I)).
  - exists evs, results, self', results', self''.
    destruct (engine_init_inv (G := Z) SimulationConfig_init (fun _ _ => True) (fun _ => True)
                (fun _ _ => I)) as (Hcfg & _).
    rewrite Hcfg in Hlen.
    split; [exact Hrun|]. split; [exact Hrun'|]. split; [exact Hlen|].
    by rewrite Hlen'.
Defined.

Lemma run_simulation_unused_settings_witness :
  (run_simulation (MemoryAwareMonteCarloEngine_init (G := Z) SimulationConfig_init)).1 =
  (run_simulation (MemoryAwareMonteCarloEngine_init (G := Z) config_without_memory)).1.
Proof.
  destruct (run_simulation_unused_settings (G := Z) SimulationConfig_init
              config_without_memory eq_refl eq_refl eq_refl eq_refl) as [Hout _].
  exact Hout.
Defined.

(** ** The analyzer *)

Lemma comprehension_missing (key : string) (rs : list dict) :
  Exists (fun r : dict => r !! key = None) rs ->
  comprehension key rs = Error (KeyError key).
Proof.
  induction rs as [|r rs IH]; intros Hex; [by apply Exists_nil in Hex|].
  cbn [comprehension]. unfold getitem.
  destruct (r !! key) as [v|] eqn:Hr; [|done].
  apply Exists_cons in Hex as [Hhead|Htail]; [congruence|].
  by rewrite IH.
Qed.

Lemma comprehension_present (key : string) (rs : list dict) :
  Forall (fun r : dict => is_Some (r !! key)) rs ->
  exists vs, comprehension key rs = Ok vs /\
             Forall2 (fun (r : dict) v => r !! key = Some v) rs vs.
Proof.
  induction 1 as [|r rs [v Hv] _ (vs & Hvs & Hall)].
  - by exists [].
  - exists (v :: vs). cbn [comprehension]. unfold getitem. rewrite Hv, Hvs.
    split; [done|]. by constructor.
Qed.

Lemma comprehension_Ok (key : string) (rs : list dict) (vs : list float) :
  comprehension key rs = Ok vs ->
  Forall2 (fun (r : dict) v => r !! key = Some v) rs vs.
Proof.
  revert vs. induction rs as [|r rs IH]; intros vs; cbn [comprehension]; unfold getitem.
  - intros [= <-]. constructor.
  - destruct (r !! key) as [v|] eqn:Hr; [|done].
    destruct (comprehension key rs) as [ws|e]; [|done].
    intros [= <-]. constructor; [done|]. by apply IH.
Qed.

Lemma comprehension_Error (key : string) (rs : list dict) (e : exn) :
  comprehension key rs = Error e ->
  e = KeyError key /\ Exists (fun r : dict => r !! key = None) rs.
Proof.
  induction rs as [|r rs IH]; cbn [comprehension]; unfold getitem; [done|].
  destruct (r !! key) as [v|] eqn:Hr.
  - destruct (comprehension key rs) as [ws|e']; [done|].
    intros [= <-]. destruct IH as [-> Hex]; [done|]. split; [done|]. by apply Exists_cons_tl.
  - intros [= <-]. split; [done|]. by apply Exists_cons_hd.
Qed.

Lemma lookups_present (key : string) (rs : list dict) (vs : list float) :
  Forall2 (fun (r : dict) v => r !! key = Some v) rs vs ->
  Forall (fun r : dict => is_Some (r !! key)) rs.
Proof. induction 1; constructor; [by eexists|done]. Qed.

Lemma array_amin_amax (d : dtype) (vs : list float) :
  vs <> [] ->
  exists mn mx, np.amin (np.array d vs) = Some mn /\ np.amax (np.array d vs) = Some mx.
Proof. destruct vs as [|v vs]; [done|]. intros _. by eexists _, _. Qed.

(** X14.  What [compute_aggregate_metrics] raises: KeyError ['mean'] as soon
    as one entry has no ['mean'], whatever else is wrong; KeyError ['std']
    when every entry has a ['mean'] and one has no ['std']; and ValueError
    (the minimum of an empty array) on an empty list of results. *)
Theorem compute_aggregate_metrics_raises (self : MemoryEfficientAnalyzer) :
  (Exists (fun r : dict => r !! "mean" = None) (results self) ->
   compute_aggregate_metrics self = Error (KeyError "mean")) /\
  (Forall (fun r : dict => is_Some (r !! "mean")) (results self) ->
   Exists (fun r : dict => r !! "std" = None) (results self) ->
   compute_aggregate_metrics self = Error (KeyError "std")) /\
  (results self = [] -> compute_aggregate_metrics self = Error ValueError).
Proof.
  unfold compute_aggregate_metrics. split; [|split].
  - intros Hex. by rewrite (comprehension_missing "mean").
  - intros Hall Hex. destruct (comprehension_present "mean" _ Hall) as (vs & -> & _).
    by rewrite (comprehension_missing "std").
  - by intros ->.
Qed.

(** X15.  [compute_aggregate_metrics] returns exactly when the list of
    results is not empty and every entry has a ['mean'] and a ['std']; the
    dict it returns has the four keys [overall_mean], [overall_std],
    [min_value] and [max_value], and no other. *)
Theorem compute_aggregate_metrics_returns_iff (self : MemoryEfficientAnalyzer) :
  ((exists metrics, compute_aggregate_metrics self = Ok metrics) <->
   results self <> [] /\
   Forall (fun r : dict => is_Some (r !! "mean") /\ is_Some (r !! "std")) (results self)) /\
  (forall metrics, compute_aggregate_metrics self = Ok metrics ->
     dom metrics =@{gset string} list_to_set aggregate_keys).
Proof.
  unfold compute_aggregate_metrics. split; [split|].
  - intros [metrics Hm].
    destruct (comprehension "mean" (results self)) as [vs|] eqn:Hmeans; [|done].
    destruct (comprehension "std" (results self)) as [ws|] eqn:Hstds; [|done].
    apply comprehension_Ok in Hmeans, Hstds. split.
    + intros Hnil. rewrite Hnil in Hmeans. apply Forall2_nil_inv_l in Hmeans as ->.
      done.
    + apply Forall_and. split; by eapply lookups_present.
  - intros [Hne Hall]. apply Forall_and in Hall as [Hmeans Hstds].
    destruct (comprehension_present "mean" _ Hmeans) as (vs & -> & Hvs).
    destruct (comprehension_present "std" _ Hstds) as (ws & -> & _).
    destruct (array_amin_amax (config_dtype (analyzer_config self)) vs) as (mn & mx & -> & ->).
    { intros ->. apply Forall2_nil_inv_r in Hvs. done. }
    by eexists.
  - intros metrics Hm.
    destruct (comprehension "mean" (results self)) as [vs|]; [|done].
    destruct (comprehension "std" (results self)) as [ws|]; [|done].
    destruct (np.amin _) as [mn|]; [|done]. destruct (np.amax _) as [mx|]; [|done].
    injection Hm as <-. by rewrite !dom_insert_L, dom_empty_L.
Qed.

(** ** The plot *)

Lemma pyplot_plot_calls (means : list float) :
  pyplot (plot_calls means) =
    if hist_range_error means then (take 2 (plot_calls means), Error ValueError)
    else (plot_calls means, Ok tt).
Proof.
  unfold plot_calls. cbn [pyplot plt_raises take]. by destruct (hist_range_error means).
Qed.

Lemma hist_range_error_finite (x : list float) :
  Forall (fun v => Float.isfinite v = true) x -> hist_range_error x = false.
Proof.
  intros Hfin. unfold hist_range_error. apply orb_false_iff. split.
  - apply not_true_iff_false. intros Hex. apply existsb_exists in Hex as (v & Hv & Hinf).
    apply list_elem_of_In in Hv. eapply Forall_forall in Hfin; [|exact Hv].
    by destruct v.
  - destruct x as [|v x]; [done|]. apply Forall_cons in Hfin as [Hv _].
    cbn [forallb]. by destruct v.
Qed.

Lemma hist_range_error_all_nan (x : list float) :
  x <> [] -> Forall (fun v => v = S754_nan) x -> hist_range_error x = true.
Proof.
  intros Hne Hnan. unfold hist_range_error. apply orb_true_iff. right.
  destruct x as [|v x]; [done|]. apply forallb_forall. intros w Hw.
  apply list_elem_of_In in Hw. eapply Forall_forall in Hnan; [|exact Hw]. by subst w.
Qed.



(** ** A run and its analysis *)

Lemma process_batch_BatchMetrics (d : dtype) (batches : list (ndarray float)) :
  _process_batch d <$> batches =
    BatchMetrics_dict <$>
      ((fun b => mk_BatchMetrics (np.mean d (data b)) (np.std d (data b)) (np.var d (data b)))
         <$> batches).
Proof. by rewrite <- list_fmap_compose. Qed.

Lemma aggregate_metrics_spec_items (d : dtype) (means stds : list float) (mn mx : float) :
  items aggregate_keys (aggregate_metrics_spec d means stds mn mx) =
    [("overall_mean", np.mean d means); ("overall_std", np.mean d stds);
     ("min_value", mn); ("max_value", mx)].
Proof.
  unfold items, aggregate_keys, aggregate_metrics_spec. cbn [omap list_omap].
  rewrite lookup_insert_eq.
  rewrite lookup_insert_ne, lookup_insert_eq by discriminate.
  rewrite lookup_insert_ne, lookup_insert_ne, lookup_insert_eq by discriminate.
  do 3 rewrite lookup_insert_ne by discriminate. rewrite lookup_insert_eq.
  done.
Qed.

Lemma mean_of_nothing (d : dtype) : np.mean d [] = S754_nan.
Proof. by destruct d. Qed.

Section Pipeline.
Context {G : Type} `{Generator G}.



End Pipeline.

(** ** [filter_and_replace], once more *)

Section FilterMore.
Context {A : Type}.

(** X20.  With an entry-wise predicate, a second call of [filter_and_replace]
    with the same arguments changes nothing (whether or not the new value
    satisfies the predicate itself); and when the new value does not
    satisfy the predicate, no entry of the array satisfies it afterwards. *)
Theorem filter_and_replace_idempotent (p : A -> bool) (v : A) (arr : loc)
    (a : ndarray A) (heap : gmap loc (ndarray A)) :
  heap !! arr = Some a ->
  exists a' heap',
    filter_and_replace arr (elementwise p) v heap = (Ok arr, heap') /\
    heap' !! arr = Some a' /\
    filter_and_replace arr (elementwise p) v heap' = (Ok arr, heap') /\
    (p v = false -> Forall (fun x => p x = false) (data a')).
Proof.
  intros Harr. eexists _, _. unfold filter_and_replace at 1.
  rewrite Harr, setitem_mask_elementwise.
  split; [reflexivity|]. split; [apply lookup_insert_eq|]. split.
  - unfold filter_and_replace. rewrite lookup_insert_eq, setitem_mask_elementwise.
    cbn [shape data]. rewrite insert_insert_eq. do 3 f_equal.
    rewrite <- list_fmap_compose. apply list_fmap_ext. intros k x _. cbn.
    destruct (p x) eqn:Hx; [|by rewrite Hx]. by destruct (p v).
  - intros Hv. cbn [data]. apply Forall_fmap, Forall_forall. intros x _. cbn.
    by destruct (p x) eqn:Hx.
Qed.

End FilterMore.

(** X21.  The call of the notebook, [filter_and_replace(arr, lambda x: x < 0, 0)]
    on an array of floats: afterwards the array has the same shape, a NaN
    is still a NaN, every other entry is [>= 0], and the entries that were
    not below 0 (the negative zero among them) are as before. *)
Theorem replace_negatives_by_zero (arr : loc) (a : ndarray float)
    (heap : gmap loc (ndarray float)) :
  heap !! arr = Some a ->
  exists a',
    filter_and_replace arr (elementwise below_zero) (Float.of_Z float64 0) heap
      = (Ok arr, <[arr := a']> heap) /\
    shape a' = shape a /\
    Forall2 (fun x x' =>
               (Float.isnan x = true -> x' = x) /\
               (Float.isnan x = false -> Float.leb (Float.of_Z float64 0) x' = true) /\
               (Float.ltb x (Float.of_Z float64 0) = false -> x' = x))
            (data a) (data a').
Proof.
  intros Harr. eexists. unfold filter_and_replace.
  rewrite Harr, setitem_mask_elementwise.
  split; [reflexivity|]. cbn [shape data]. split; [done|].
  apply Forall2_fmap_r, Forall_Forall2_diag, Forall_forall. intros x _.
  unfold below_zero. split; [|split].
  - intros Hnan. unfold Float.ltb. by rewrite Hnan.
  - intros Hnan. destruct (Float.ltb x (Float.of_Z float64 0)) eqn:Hlt.
    + by apply leb_refl.
    + by apply not_ltb_leb.
  - by intros ->.
Qed.



Lemma filter_and_replace_idempotent_witness :
  exists heap',
    filter_and_replace 1%positive (elementwise negative) 0%Z example_heap
      = (Ok 1%positive, heap') /\
    filter_and_replace 1%positive (elementwise negative) 0%Z heap' = (Ok 1%positive, heap').
Proof.
  destruct (filter_and_replace_idempotent negative 0%Z 1%positive example_array example_heap)
    as (a' & heap' & Hfirst & _ & Hsecond & _); [reflexivity|].
  exists heap'. split; [exact Hfirst|exact Hsecond].
Defined.

Lemma replace_negatives_by_zero_witness :
  exists a',
    filter_and_replace 1%positive (elementwise below_zero) (Float.of_Z float64 0)
      example_float_heap = (Ok 1%positive, <[1%positive := a']> example_float_heap) /\
    shape a' = [2].
Proof.
  destruct (replace_negatives_by_zero 1%positive
              (mk_ndarray [2] [Float.of_Z float64 (-1); Float.of_Z float64 2])
              example_float_heap)
    as (a' & Hcall & Hshape & _); [reflexivity|].
  exists a'. split; [exact Hcall|exact Hshape].
Defined.

(** ** The sign of sums, squares, quotients and roots *)

Lemma binary_round_aux_sign (prec emax : Z) (sx : bool) (mx ex : Z) (lx : location) :
  (0 <= mx)%Z -> sign_bit (binary_round_aux prec emax sx mx ex lx) = sx.
Proof.
  intros Hm. unfold binary_round_aux.
  pose proof (shr_fexp_nonneg prec emax mx ex lx Hm) as H1.
  destruct (shr_fexp prec emax mx ex lx) as [mrs' e']. simpl in H1.
  assert (0 <= round_nearest_even (shr_m mrs') (loc_of_shr_record mrs'))%Z as H2.
  { unfold round_nearest_even. destruct (loc_of_shr_record mrs') as [|[]]; try lia.
    destruct (Z.even (shr_m mrs')); lia. }
  pose proof (shr_fexp_nonneg prec emax _ e' loc_Exact H2) as H3.
  destruct (shr_fexp prec emax _ e' loc_Exact) as [mrs'' e'']. simpl in H3.
  destruct (shr_m mrs'') as [|m|m]; [done| |lia].
  by destruct (e'' <=? emax - prec)%Z.
Qed.

Lemma binary_round_sign (prec emax : Z) (sx : bool) (mx : positive) (ex : Z) :
  sign_bit (binary_round prec emax sx mx ex) = sx.
Proof.
  unfold binary_round. destruct (shl_align _ _ _) as [mz ez].
  by apply binary_round_aux_sign.
Qed.

Lemma binary_normalize_sign (prec emax m e : Z) (szero : bool) :
  sign_bit (binary_normalize prec emax m e szero) =
    if (m =? 0)%Z then szero else (m <? 0)%Z.
Proof. destruct m as [|p|p]; [done|apply binary_round_sign..]. Qed.

Lemma round_to_sign (d : dtype) (x : float) :
  sign_bit (Float.round_to d x) = sign_bit x.
Proof.
  destruct x as [s|s| |s m e]; cbn [Float.round_to]; try done.
  rewrite binary_normalize_sign. by destruct s.
Qed.

Lemma of_Z_sign (d : dtype) (n : Z) : (0 <= n)%Z -> sign_bit (Float.of_Z d n) = false.
Proof.
  intros Hn. unfold Float.of_Z. rewrite binary_normalize_sign.
  destruct n as [|p|p]; [done|done|lia].
Qed.

Lemma add_sign (d : dtype) (x y : float) :
  sign_bit x = false -> sign_bit y = false -> sign_bit (Float.add d x y) = false.
Proof.
  unfold Float.add.
  destruct x as [sx|sx| |sx mx ex], y as [sy|sy| |sy my ey];
    cbn [sign_bit SFadd]; intros Hx Hy; subst; try done.
  by rewrite binary_normalize_sign.
Qed.

Lemma add_neg_zero_sign (d : dtype) (y : float) :
  sign_bit y = false -> sign_bit (Float.add d Float.neg_zero y) = false.
Proof.
  unfold Float.add, Float.neg_zero.
  by destruct y as [sy|sy| |sy my ey]; cbn [sign_bit SFadd]; intros Hy; subst.
Qed.

Lemma mul_self_sign (d : dtype) (v : float) : sign_bit (Float.mul d v v) = false.
Proof.
  unfold Float.mul. destruct v as [s|s| |s m e]; cbn [SFmul sign_bit]; try done.
  - by destruct s.
  - by destruct s.
  - rewrite binary_round_aux_sign by lia. by destruct s.
Qed.

Lemma div_sign (d : dtype) (x y : float) :
  sign_bit x = false -> sign_bit y = false -> sign_bit (Float.div d x y) = false.
Proof.
  unfold Float.div.
  destruct x as [sx|sx| |sx mx ex], y as [sy|sy| |sy my ey];
    cbn [sign_bit SFdiv]; intros Hx Hy; subst; try done.
  unfold SFdiv_core_binary.
  set (s := (_ - _ - _)%Z).
  set (m' := match s with Z0 => Z.pos mx | Z.pos _ => Z.shiftl (Z.pos mx) s | Z.neg _ => 0%Z end).
  assert (0 <= m')%Z as Hm'.
  { subst m'. destruct s; [lia| |lia]. by apply Z.shiftl_nonneg. }
  pose proof (Z_div_mod m' (Z.pos my) ltac:(lia)) as Hdiv.
  destruct (Z.div_eucl m' (Z.pos my)) as [q r].
  apply binary_round_aux_sign. nia.
Qed.

Lemma sqrt_sign (d : dtype) (x : float) :
  sign_bit x = false -> sign_bit (Float.sqrt d x) = false.
Proof.
  unfold Float.sqrt.
  destruct x as [s|s| |s m e]; cbn [sign_bit SFsqrt]; intros Hx; subst; try done.
  unfold SFsqrt_core_binary.
  set (s := (_ - _)%Z).
  set (m' := match s with Z0 => Z.pos m | Z.pos _ => Z.shiftl (Z.pos m) s | Z.neg _ => 0%Z end).
  pose proof (Z.sqrtrem_sqrt m') as Hq. pose proof (Z.sqrt_nonneg m') as Hs.
  destruct (Z.sqrtrem m') as [q r]. cbn [fst] in Hq.
  apply binary_round_aux_sign. lia.
Qed.

Lemma Qpower_positive_2_pos (p : positive) : (0 < Qpower_positive 2 p)%Q.
Proof.
  unfold Qpower_positive. induction p as [p IH|p IH|]; cbn [pow_pos].
  - apply Qmult_lt_0_compat; [done|]. by apply Qmult_lt_0_compat.
  - by apply Qmult_lt_0_compat.
  - done.
Qed.

Lemma Qpower_2_pos (e : Z) : (0 < Qpower 2 e)%Q.
Proof.
  destruct e as [|p|p]; cbn [Qpower]; [done|apply Qpower_positive_2_pos|].
  apply Qinv_lt_0_compat, Qpower_positive_2_pos.
Qed.

(** A float that is not a NaN and has a clear sign bit is at least 0. *)
Lemma sign_bit_leb (x : float) :
  sign_bit x = false -> Float.isnan x = false -> Float.leb Float.pos_zero x = true.
Proof.
  destruct x as [s|s| |s m e]; cbn [sign_bit Float.isnan]; intros Hs Hnan; subst; try done.
  cbn [Float.leb Float.pos_zero Float.to_Q cond_Zopp]. apply Qle_bool_iff.
  apply Qmult_le_0_compat; [done|]. apply Qlt_le_weak, Qpower_2_pos.
Qed.

Lemma sign_bit_not_below_zero (x : float) :
  sign_bit x = false -> Float.ltb x Float.pos_zero = false.
Proof.
  intros Hs. unfold Float.ltb. destruct (Float.isnan x) eqn:Hnan; [done|].
  by rewrite sign_bit_leb.
Qed.

Section SumSigns.
Variable d : dtype.

Lemma sum_loop_sign (acc : float) (a : list float) :
  sign_bit acc = false -> Forall (fun x => sign_bit x = false) a ->
  sign_bit (np.sum_loop d acc a) = false.
Proof.
  unfold np.sum_loop. revert acc. induction a as [|x a IH]; intros acc Hacc Ha; [done|].
  apply Forall_cons in Ha as [Hx Ha]. cbn [fold_left]. apply IH; [by apply add_sign|done].
Qed.

Lemma sum_loop_neg_zero_sign (a : list float) :
  a <> [] -> Forall (fun x => sign_bit x = false) a ->
  sign_bit (np.sum_loop d Float.neg_zero a) = false.
Proof.
  destruct a as [|x a]; [done|]. intros _ Ha. apply Forall_cons in Ha as [Hx Ha].
  change (np.sum_loop d Float.neg_zero (x :: a))
    with (np.sum_loop d (Float.add d Float.neg_zero x) a).
  apply sum_loop_sign; [by apply add_neg_zero_sign|done].
Qed.

Lemma zip_with_add_sign (r a : list float) :
  Forall (fun x => sign_bit x = false) r -> Forall (fun x => sign_bit x = false) a ->
  Forall (fun x => sign_bit x = false) (zip_with (Float.add d) r a).
Proof.
  intros Hr. revert a. induction Hr as [|x r Hx Hr IH]; intros a Ha; [constructor|].
  destruct Ha as [|y a Hy Ha]; [constructor|].
  cbn [zip_with]. constructor; [by apply add_sign|by apply IH].
Qed.

Lemma unrolled_sign (n : nat) (r a : list float) :
  Forall (fun x => sign_bit x = false) r -> Forall (fun x => sign_bit x = false) a ->
  Forall (fun x => sign_bit x = false) (np.unrolled d r a n).
Proof.
  revert r a. induction n as [|n IH]; intros r a Hr Ha; cbn [np.unrolled]; [done|].
  apply IH; [|by apply Forall_drop]. apply zip_with_add_sign; [done|by apply Forall_take].
Qed.

Lemma sum_block_sign (a : list float) :
  Forall (fun x => sign_bit x = false) a -> sign_bit (np.sum_block d a) = false.
Proof.
  intros Ha. unfold np.sum_block.
  set (r := np.unrolled d _ _ _).
  assert (Forall (fun x => sign_bit x = false) r) as Hr.
  { apply unrolled_sign; [by apply Forall_take|by apply Forall_drop]. }
  assert (forall i, sign_bit (default Float.pos_zero (r !! i)) = false) as Hi.
  { intros i. destruct (r !! i) as [x|] eqn:Hx; [|done].
    by eapply Forall_lookup_1 in Hr. }
  apply sum_loop_sign; [|by apply Forall_drop].
  repeat apply add_sign; apply Hi.
Qed.

Lemma pairwise_sum_sign (fuel : nat) (a : list float) :
  a <> [] -> Forall (fun x => sign_bit x = false) a ->
  sign_bit (np.pairwise_sum d fuel a) = false.
Proof.
  revert a. induction fuel as [|fuel IH]; intros a Hne Ha; cbn [np.pairwise_sum].
  - destruct (length a <? 8) eqn:Hsmall; [by apply sum_loop_neg_zero_sign|].
    destruct (length a <=? 128); by apply sum_block_sign.
  - destruct (length a <? 8) eqn:Hsmall; [by apply sum_loop_neg_zero_sign|].
    destruct (length a <=? 128) eqn:Hblock; [by apply sum_block_sign|].
    apply Nat.leb_gt in Hblock.
    set (n := length a) in *.
    assert (1 <= n / 2 - (n / 2) mod 8 < n) as Hcut.
    { pose proof (Nat.mod_upper_bound (n / 2) 8 ltac:(lia)).
      pose proof (Nat.div_mod_eq n 2). pose proof (Nat.mod_upper_bound n 2 ltac:(lia)).
      lia. }
    apply add_sign; apply IH.
    + intros Hnil. apply (f_equal length) in Hnil. rewrite length_take in Hnil.
      cbn [length] in Hnil. fold n in Hnil. lia.
    + by apply Forall_take.
    + intros Hnil. apply (f_equal length) in Hnil. rewrite length_drop in Hnil.
      cbn [length] in Hnil. fold n in Hnil. lia.
    + by apply Forall_drop.
Qed.

Lemma add_reduce_sign (a : list float) :
  a <> [] -> Forall (fun x => sign_bit x = false) a ->
  sign_bit (np.add_reduce d a) = false.
Proof.
  intros Hne Ha. unfold np.add_reduce. apply add_sign; [done|]. by apply pairwise_sum_sign.
Qed.

Lemma div_count_sign (x : float) (n : nat) :
  sign_bit x = false -> sign_bit (np.div_count d x n) = false.
Proof.
  intros Hx. unfold np.div_count. rewrite round_to_sign.
  apply div_sign; [by rewrite round_to_sign|]. apply of_Z_sign. lia.
Qed.

Lemma var_sign (a : list float) : sign_bit (np.var d a) = false.
Proof.
  destruct a as [|x a]; [by destruct d|].
  unfold np.var. apply div_count_sign, add_reduce_sign; [done|].
  apply Forall_fmap, Forall_forall. intros v _. apply mul_self_sign.
Qed.

Lemma std_sign (a : list float) : sign_bit (np.std d a) = false.
Proof. unfold np.std. apply sqrt_sign, var_sign. Qed.

End SumSigns.

(** X22.  The spread [_process_batch] reports is never negative: ['std'] is
    the square root of ['var'], and each of the two is a NaN or carries a
    clear sign bit (not even a negative zero), so neither is below 0; for a
    batch without entries (no row or no column) ['mean'], ['std'] and
    ['var'] are all NaN. *)
Theorem process_batch_spread (d : dtype) (batch_data : ndarray float) :
  exists m s v,
    _process_batch d batch_data !! "mean" = Some m /\
    _process_batch d batch_data !! "std" = Some s /\
    _process_batch d batch_data !! "var" = Some v /\
    s = Float.sqrt d v /\
    sign_bit s = false /\ sign_bit v = false /\
    Float.ltb s Float.pos_zero = false /\ Float.ltb v Float.pos_zero = false /\
    (data batch_data = [] -> m = S754_nan /\ s = S754_nan /\ v = S754_nan).
Proof.
  eexists _, _, _. unfold _process_batch.
  split; [apply lookup_insert_eq|].
  split; [by rewrite lookup_insert_ne, lookup_insert_eq by discriminate|].
  split; [by do 2 rewrite lookup_insert_ne by discriminate; rewrite lookup_insert_eq|].
  unfold Float.py_float.
  split; [done|]. split; [apply std_sign|]. split; [apply var_sign|].
  split; [apply sign_bit_not_below_zero, std_sign|].
  split; [apply sign_bit_not_below_zero, var_sign|].
  intros ->. by destruct d.
Qed.

(** * Rounding

    What the operations of [SpecFloat] return, as rational numbers: the
    result of an operation on numbers of a format is a number of the
    format, off the exact result by one rounding, as long as the exact
    result stays within half of the range. *)

Section FloatDigits.
Local Open Scope Z_scope.

(** ** Digits *)

Lemma digits2_pos_size p : digits2_pos p = Pos.size p.
Proof. induction p; simpl; congruence. Qed.

Lemma Zdigits2_nonneg m : (0 <= Zdigits2 m)%Z.
Proof. destruct m; simpl; lia. Qed.

Lemma Zdigits2_bounds m :
  (0 < m)%Z -> (2 ^ (Zdigits2 m - 1) <= m < 2 ^ Zdigits2 m)%Z.
Proof.
  destruct m as [|p|p]; try lia. intros _.
  change (Zdigits2 (Z.pos p)) with (Z.pos (digits2_pos p)). rewrite digits2_pos_size.
  pose proof (Pos.size_gt p) as Hgt. pose proof (Pos.size_le p) as Hle.
  apply Pos2Z.pos_lt_pos in Hgt. apply Pos2Z.pos_le_pos in Hle.
  rewrite Pos2Z.inj_pow in Hgt, Hle.
  assert (Hs : (2 ^ Z.pos (Pos.size p) = 2 * 2 ^ (Z.pos (Pos.size p) - 1))%Z).
  { replace (Z.pos (Pos.size p)) with (Z.succ (Z.pos (Pos.size p) - 1)) at 1 by lia.
    apply Z.pow_succ_r. lia. }
  split; [|exact Hgt]. lia.
Qed.

Lemma Zdigits2_unique m d :
  (0 < m)%Z -> (2 ^ (d - 1) <= m < 2 ^ d)%Z -> Zdigits2 m = d.
Proof.
  intros Hm [Hlo Hhi]. pose proof (Zdigits2_bounds m Hm) as [Hlo' Hhi'].
  pose proof (Zdigits2_nonneg m) as Hd.
  assert (Hd0 : (0 <= d)%Z).
  { destruct (Z.le_gt_cases 0 d) as [|Hneg]; [done|].
    rewrite Z.pow_neg_r in Hhi by done. lia. }
  destruct (Z.lt_trichotomy (Zdigits2 m) d) as [Hlt|[Heq|Hgt]]; [|done|].
  - assert (2 ^ Zdigits2 m <= 2 ^ (d - 1))%Z by (apply Z.pow_le_mono_r; lia). lia.
  - assert (2 ^ d <= 2 ^ (Zdigits2 m - 1))%Z by (apply Z.pow_le_mono_r; lia). lia.
Qed.

Lemma Zdigits2_pos m : (0 < m)%Z -> (0 < Zdigits2 m)%Z.
Proof. destruct m; simpl; lia. Qed.

Lemma Zdigits2_div m n :
  (0 < m)%Z -> (0 <= n < Zdigits2 m)%Z -> Zdigits2 (m / 2 ^ n) = (Zdigits2 m - n)%Z.
Proof.
  intros Hm Hn. pose proof (Zdigits2_bounds m Hm) as [Hlo Hhi].
  assert (Hp : (0 < 2 ^ n)%Z) by (apply Z.pow_pos_nonneg; lia).
  assert (Hsplit : (2 ^ (Zdigits2 m - 1) = 2 ^ n * 2 ^ (Zdigits2 m - n - 1))%Z).
  { rewrite <- Z.pow_add_r by lia. f_equal. lia. }
  assert (Hsplit' : (2 ^ Zdigits2 m = 2 ^ n * 2 ^ (Zdigits2 m - n))%Z).
  { rewrite <- Z.pow_add_r by lia. f_equal. lia. }
  assert (Hq : (2 ^ (Zdigits2 m - n - 1) <= m / 2 ^ n)%Z).
  { apply Z.div_le_lower_bound; [done|]. lia. }
  assert (Hq' : (m / 2 ^ n < 2 ^ (Zdigits2 m - n))%Z).
  { apply Z.div_lt_upper_bound; [done|]. lia. }
  apply Zdigits2_unique.
  - assert (0 < 2 ^ (Zdigits2 m - n - 1))%Z by (apply Z.pow_pos_nonneg; lia). lia.
  - split; [exact Hq | exact Hq'].
Qed.

Lemma Zdigits2_div_small m n :
  (0 <= m)%Z -> (Zdigits2 m <= n)%Z -> (m / 2 ^ n = 0)%Z.
Proof.
  intros Hm Hn. destruct (Z.eq_dec m 0) as [->|Hne].
  - apply Z.div_0_l. apply Z.pow_nonzero; [lia | simpl in Hn; lia].
  - pose proof (Zdigits2_bounds m ltac:(lia)) as [_ Hhi].
    apply Z.div_small. split; [done|].
    pose proof (Zdigits2_nonneg m).
    assert (2 ^ Zdigits2 m <= 2 ^ n)%Z by (apply Z.pow_le_mono_r; lia). lia.
Qed.

Lemma Zdigits2_le_pow m k :
  (0 <= k)%Z -> (0 <= m <= 2 ^ k)%Z -> (Zdigits2 m <= k + 1)%Z.
Proof.
  intros Hk [Hm Hle]. destruct (Z.eq_dec m 0) as [->|Hne]; [simpl; lia|].
  pose proof (Zdigits2_bounds m ltac:(lia)) as [Hlo _].
  destruct (Z.le_gt_cases (Zdigits2 m) (k + 1)) as [|Hgt]; [done|].
  assert (2 ^ (k + 1) <= 2 ^ (Zdigits2 m - 1))%Z by (apply Z.pow_le_mono_r; lia).
  assert (2 ^ k < 2 ^ (k + 1))%Z by (apply Z.pow_lt_mono_r; lia). lia.
Qed.

Lemma Zdigits2_lt_pow m k :
  (0 <= k)%Z -> (0 <= m < 2 ^ k)%Z -> (Zdigits2 m <= k)%Z.
Proof.
  intros Hk [Hm Hlt]. destruct (Z.eq_dec m 0) as [->|Hne]; [simpl; lia|].
  pose proof (Zdigits2_bounds m ltac:(lia)) as [Hlo _].
  destruct (Z.le_gt_cases (Zdigits2 m) k) as [|Hgt]; [done|].
  assert (2 ^ k <= 2 ^ (Zdigits2 m - 1))%Z by (apply Z.pow_le_mono_r; lia). lia.
Qed.

Lemma Zdigits2_pow k : (0 <= k)%Z -> Zdigits2 (2 ^ k) = (k + 1)%Z.
Proof.
  intros Hk. apply Zdigits2_unique.
  - apply Z.pow_pos_nonneg; lia.
  - replace (k + 1 - 1)%Z with k by lia. split; [lia|]. apply Z.pow_lt_mono_r; lia.
Qed.

(** ** Shifts *)

Lemma shr_1_m r : (0 <= shr_m r)%Z -> shr_m (shr_1 r) = (shr_m r / 2)%Z.
Proof.
  destruct r as [m b s]. cbn [shr_m]. intros Hm.
  destruct m as [|[p|p|]|p]; cbn [shr_1 shr_m]; try lia.
  - done.
  - apply Z.div_unique with (r := 1); lia.
  - apply Z.div_unique with (r := 0); lia.
  - done.
Qed.

Lemma iter_pos_shr_1_m p r :
  (0 <= shr_m r)%Z ->
  shr_m (@SpecFloat.iter_pos shr_record shr_1 p r) = (shr_m r / 2 ^ Z.pos p)%Z.
Proof.
  revert r. induction p as [p IH|p IH|]; intros r Hr; simpl.
  - assert (H1 : (0 <= shr_m (shr_1 r))%Z).
    { rewrite shr_1_m by done. apply Z.div_pos; lia. }
    assert (H2 : (0 <= shr_m (@SpecFloat.iter_pos shr_record shr_1 p (shr_1 r)))%Z).
    { rewrite IH by done. apply Z.div_pos; [done|]. apply Z.pow_pos_nonneg; lia. }
    rewrite IH by done. rewrite IH by done. rewrite shr_1_m by done.
    assert (Hp : (0 < 2 ^ Z.pos p)%Z) by (apply Z.pow_pos_nonneg; lia).
    rewrite !Z.div_div by lia. f_equal.
    replace (Z.pos p~1) with (1 + Z.pos p + Z.pos p) by lia.
    rewrite !Z.pow_add_r by lia. change (2 ^ 1) with 2. ring.
  - assert (H2 : (0 <= shr_m (@SpecFloat.iter_pos shr_record shr_1 p r))%Z).
    { rewrite IH by done. apply Z.div_pos; [done|]. apply Z.pow_pos_nonneg; lia. }
    rewrite IH by done. rewrite IH by done.
    assert (Hp : (0 < 2 ^ Z.pos p)%Z) by (apply Z.pow_pos_nonneg; lia).
    rewrite !Z.div_div by lia. f_equal.
    replace (Z.pos p~0) with (Z.pos p + Z.pos p) by lia.
    rewrite Z.pow_add_r by lia. done.
  - rewrite shr_1_m by done. done.
Qed.

Lemma shr_record_of_loc_m m l : shr_m (shr_record_of_loc m l) = m.
Proof. destruct l as [|[]]; done. Qed.

Lemma round_nearest_even_bounds m l :
  (m <= round_nearest_even m l <= m + 1)%Z.
Proof. destruct l as [|[]]; simpl; try lia. destruct (Z.even m); lia. Qed.

Lemma pos_iter_xO m d : Z.pos (Pos.iter xO m d) = (Z.pos m * 2 ^ Z.pos d)%Z.
Proof.
  induction d as [|d IH] using Pos.peano_ind.
  - simpl. lia.
  - rewrite Pos.iter_succ. rewrite Pos2Z.inj_xO, IH.
    rewrite Pos2Z.inj_succ. rewrite Z.pow_succ_r by lia. lia.
Qed.

End FloatDigits.

Section Rounding.
Local Open Scope Z_scope.
Variables prec emax : Z.
Hypothesis Hprec : (2 <= prec)%Z.
Hypothesis Hemax : (prec < emax)%Z.

Lemma fexp_ge_emin e : (emin prec emax <= fexp prec emax e)%Z.
Proof. unfold fexp. lia. Qed.

Lemma shr_fexp_spec m e l :
  (0 <= m)%Z ->
  (shr_fexp prec emax m e l).2 = Z.max e (fexp prec emax (Zdigits2 m + e)) /\
  shr_m (shr_fexp prec emax m e l).1 = (m / 2 ^ ((shr_fexp prec emax m e l).2 - e))%Z /\
  ((fexp prec emax (Zdigits2 m + e) <= e)%Z ->
   (shr_fexp prec emax m e l).1 = shr_record_of_loc m l).
Proof.
  intros Hm. unfold shr_fexp, shr.
  destruct (fexp prec emax (Zdigits2 m + e) - e)%Z as [|p|p] eqn:Hn; simpl.
  - split; [lia|]. split; [|done].
    rewrite Z.sub_diag, Z.pow_0_r, Z.div_1_r. apply shr_record_of_loc_m.
  - split; [lia|]. split; [|lia].
    rewrite iter_pos_shr_1_m by (rewrite shr_record_of_loc_m; done).
    rewrite shr_record_of_loc_m. do 2 f_equal. lia.
  - split; [lia|]. split; [|done].
    rewrite Z.sub_diag, Z.pow_0_r, Z.div_1_r. apply shr_record_of_loc_m.
Qed.

Lemma loc_of_shr_record_of_loc m l : loc_of_shr_record (shr_record_of_loc m l) = l.
Proof. destruct l as [|[]]; done. Qed.

(** The heart of every operation: [binary_round_aux] on a mantissa that
    has digits enough (its exponent is not above the one of the format)
    rounds it down or up at the exponent of the format. *)
Lemma binary_round_aux_spec sx mx ex lx :
  (0 <= mx)%Z ->
  (ex <= fexp prec emax (Zdigits2 mx + ex))%Z ->
  let E1 := fexp prec emax (Zdigits2 mx + ex) in
  exists mr : Z,
    (mx / 2 ^ (E1 - ex) <= mr <= mx / 2 ^ (E1 - ex) + 1)%Z /\
    (lx = loc_Exact -> E1 = ex -> mr = mx) /\
    ((mr = 0%Z /\ binary_round_aux prec emax sx mx ex lx = S754_zero sx) \/
     exists m2 e2,
       binary_round_aux prec emax sx mx ex lx =
         (if (e2 <=? emax - prec)%Z then S754_finite sx m2 e2 else S754_infinity sx) /\
       (Z.pos m2 * 2 ^ (e2 - E1) = mr)%Z /\ (E1 <= e2)%Z /\
       canonical_mantissa prec emax m2 e2 = true).
Proof.
  intros Hmx Hex E1.
  unfold binary_round_aux.
  pose proof (shr_fexp_spec mx ex lx Hmx) as (He1 & Hm1 & Hexact1).
  destruct (shr_fexp prec emax mx ex lx) as [mrs' e'] eqn:Hs1. simpl in He1, Hm1, Hexact1.
  assert (He1' : e' = E1) by (unfold E1; lia). clear He1. subst e'.
  set (m1 := shr_m mrs') in *.
  set (mr := round_nearest_even m1 (loc_of_shr_record mrs')).
  pose proof (round_nearest_even_bounds m1 (loc_of_shr_record mrs')) as Hmr. fold mr in Hmr.
  assert (Hp1 : (0 < 2 ^ (E1 - ex))%Z) by (apply Z.pow_pos_nonneg; lia).
  assert (Hm1pos : (0 <= m1)%Z) by (rewrite Hm1; apply Z.div_pos; done).
  assert (Hmrpos : (0 <= mr)%Z) by lia.
  pose proof (shr_fexp_spec mr E1 loc_Exact Hmrpos) as (He2 & Hm2 & Hexact2).
  destruct (shr_fexp prec emax mr E1 loc_Exact) as [mrs'' e''] eqn:Hs2.
  simpl in He2, Hm2, Hexact2.
  exists mr. split; [rewrite <- Hm1; exact Hmr|].
  split.
  { intros -> HE. subst mr m1. rewrite Hexact1 by (fold E1; lia).
    rewrite loc_of_shr_record_of_loc. done. }
  (* the digits of the rounded mantissa *)
  assert (Hcases :
    (mr = 0%Z /\ shr_m mrs'' = 0%Z) \/
    ((0 < shr_m mrs'')%Z /\ (shr_m mrs'' * 2 ^ (e'' - E1) = mr)%Z /\ (E1 <= e'')%Z /\
     fexp prec emax (Zdigits2 (shr_m mrs'') + e'') = e'')).
  { destruct (Z.eq_dec mr 0) as [Hz|Hnz].
    { left. split; [done|]. rewrite Hm2, Hz. apply Z.div_0_l. apply Z.pow_nonzero; lia. }
    right. assert (Hmr0 : (0 < mr)%Z) by lia.
    pose proof (Zdigits2_nonneg mx) as Hdmx.
    (* digits of [m1] are at most [prec], and equal when the exponent is not [emin] *)
    assert (Hd1 : (fexp prec emax (Zdigits2 mr + E1) = E1 \/ mr = 2 ^ prec /\ emin prec emax <= E1)%Z).
    { destruct (Z.lt_ge_cases (Zdigits2 mx + ex - prec) (emin prec emax)) as [Hsub|Hnorm].
      - (* subnormal range *)
        left. assert (HE1 : E1 = emin prec emax) by (unfold E1, fexp; lia).
        assert (Hm1lt : (m1 <= 2 ^ (prec - 1) - 1)%Z).
        { rewrite Hm1.
          destruct (Z.le_gt_cases (Zdigits2 mx) (E1 - ex)) as [Hsmall|Hbig].
          - rewrite (Zdigits2_div_small mx (E1 - ex)) by lia.
            assert (0 < 2 ^ (prec - 1))%Z by (apply Z.pow_pos_nonneg; lia). lia.
          - assert (Hmxpos : (0 < mx)%Z) by (destruct mx; simpl in *; lia).
            pose proof (Zdigits2_div mx (E1 - ex) Hmxpos ltac:(lia)) as Hdd.
            assert (Hq0 : (0 < mx / 2 ^ (E1 - ex))%Z).
            { destruct (Z.eq_dec (mx / 2 ^ (E1 - ex)) 0) as [Hq|Hq].
              - rewrite Hq in Hdd. simpl in Hdd. lia.
              - assert (0 <= mx / 2 ^ (E1 - ex))%Z by (apply Z.div_pos; lia). lia. }
            pose proof (Zdigits2_bounds _ Hq0) as [_ Hhi]. rewrite Hdd in Hhi.
            assert (2 ^ (Zdigits2 mx - (E1 - ex)) <= 2 ^ (prec - 1))%Z
              by (apply Z.pow_le_mono_r; lia). lia. }
        pose proof (Zdigits2_le_pow mr (prec - 1) ltac:(lia) ltac:(lia)).
        unfold fexp at 1. lia.
      - (* normal range: exactly [prec] digits before rounding *)
        assert (HE1 : E1 = (Zdigits2 mx + ex - prec)%Z) by (unfold E1, fexp; lia).
        assert (Hmxpos : (0 < mx)%Z) by (destruct mx; simpl in *; lia).
        pose proof (Zdigits2_div mx (E1 - ex) Hmxpos ltac:(lia)) as Hdd.
        replace (Zdigits2 mx - (E1 - ex))%Z with prec in Hdd by lia.
        rewrite <- Hm1 in Hdd.
        assert (Hm10 : (0 < m1)%Z) by (destruct m1; simpl in *; lia).
        pose proof (Zdigits2_bounds _ Hm10) as [Hlo Hhi]. rewrite Hdd in Hlo, Hhi.
        destruct (Z.eq_dec mr (2 ^ prec)) as [Heq|Hne].
        + right. split; [done|]. unfold E1. apply fexp_ge_emin.
        + left. rewrite (Zdigits2_unique mr prec) by lia.
          unfold fexp at 1. lia. }
    destruct Hd1 as [Hd1|[Hpow Hmin]].
    - assert (HE : e'' = E1) by lia.
      rewrite HE in *. rewrite Z.sub_diag, Z.pow_0_r, Z.div_1_r in Hm2.
      rewrite Hm2. split; [done|]. split; [rewrite Z.sub_diag; simpl; lia|].
      split; [lia|]. exact Hd1.
    - assert (Hdmr : Zdigits2 mr = (prec + 1)%Z) by (rewrite Hpow; apply Zdigits2_pow; lia).
      assert (HE : e'' = (E1 + 1)%Z).
      { rewrite He2, Hdmr. unfold fexp. lia. }
      rewrite HE in *. replace (E1 + 1 - E1)%Z with 1%Z in * by lia.
      change (2 ^ 1)%Z with 2%Z in *.
      assert (Hm2' : shr_m mrs'' = (2 ^ (prec - 1))%Z).
      { rewrite Hm2, Hpow. replace prec with (prec - 1 + 1)%Z at 1 by lia.
        rewrite Z.pow_add_r by lia. change (2 ^ 1)%Z with 2%Z.
        apply Z.div_mul. lia. }
      rewrite Hm2'. split; [apply Z.pow_pos_nonneg; lia|].
      split.
      { rewrite Hpow. replace prec with (prec - 1 + 1)%Z at 2 by lia.
        rewrite Z.pow_add_r by lia. done. }
      split; [lia|]. rewrite Zdigits2_pow by lia. unfold fexp. lia. }
  destruct Hcases as [[Hz Hz2]|(Hpos & Hval & HEle & Hcanon)].
  - left. rewrite Hz2. done.
  - right. destruct (shr_m mrs'') as [|m2|m2] eqn:Hm2'; try lia.
    exists m2, e''. split; [done|]. split; [done|]. split; [done|].
    unfold canonical_mantissa. simpl in Hcanon. rewrite Hcanon. apply Z.eqb_refl.
Qed.

End Rounding.

(** ** Powers of two *)

Lemma Qp2_add (a b : Z) : (2 ^ (a + b) == 2 ^ a * 2 ^ b)%Q.
Proof. apply Qpower_plus. lra. Qed.

Lemma Qp2_le (a b : Z) : (a <= b)%Z -> (2 ^ a <= 2 ^ b)%Q.
Proof. intros Hab. apply Qpower_le_compat_l; [done|lra]. Qed.

Lemma Qp2_lt (a b : Z) : (a < b)%Z -> (2 ^ a < 2 ^ b)%Q.
Proof. intros Hab. apply Qpower_lt_compat_l; [done|lra]. Qed.

Lemma Qp2_Z (n : Z) : (0 <= n)%Z -> inject_Z (2 ^ n) == (2 ^ n)%Q.
Proof. intros Hn. by rewrite Zpower_Qpower. Qed.

Lemma Qp2_succ (a : Z) : (2 ^ (a + 1) == 2 * 2 ^ a)%Q.
Proof. rewrite Qp2_add. change (2 ^ 1)%Q with 2%Q. ring. Qed.

Lemma inject_Z_le (a b : Z) : (a <= b)%Z -> (inject_Z a <= inject_Z b)%Q.
Proof. intros. by rewrite <- Zle_Qle. Qed.

Lemma inject_Z_lt (a b : Z) : (a < b)%Z -> (inject_Z a < inject_Z b)%Q.
Proof. intros. by rewrite <- Zlt_Qlt. Qed.

Lemma Qmult_le_r' (a b t : Q) : (0 <= t)%Q -> (a <= b)%Q -> (a * t <= b * t)%Q.
Proof. intros Ht Hab. apply Qmult_le_compat_r; done. Qed.


(** ** The value of a rounded mantissa *)

Lemma Qabs_le_of (x r : Q) : (- r <= x)%Q -> (x <= r)%Q -> (Qabs x <= r)%Q.
Proof. intros. apply Qabs_Qle_condition. done. Qed.

Lemma Qabs_le_inv (x r : Q) : (Qabs x <= r)%Q -> (- r <= x /\ x <= r)%Q.
Proof. intros H. by apply Qabs_Qle_condition in H. Qed.

Lemma to_Q_finite (s : bool) (m : positive) (e : Z) :
  Float.to_Q (S754_finite s m e) ==
  (if s then - (inject_Z (Z.pos m) * 2 ^ e) else inject_Z (Z.pos m) * 2 ^ e)%Q.
Proof.
  unfold Float.to_Q. destruct s; cbn [cond_Zopp].
  - change (- Z.pos m)%Z with (Z.opp (Z.pos m)). rewrite inject_Z_opp. ring.
  - reflexivity.
Qed.

Section RoundingValue.
Local Open Scope Z_scope.
Variables prec emax : Z.
Hypothesis Hprec : 2 <= prec.
Hypothesis Hemax : prec < emax.

(** The spacing at the exponent of the format is at most the relative
    spacing times the value, or the least positive number. *)
Lemma ulp_bound mx ex :
  0 <= mx ->
  ex <= fexp prec emax (Zdigits2 mx + ex) ->
  (2 ^ fexp prec emax (Zdigits2 mx + ex) <=
   2 ^ (1 - prec) * (inject_Z mx * 2 ^ ex) + 2 ^ emin prec emax)%Q.
Proof.
  intros Hmx Hex.
  pose proof (Qpower_2_pos (1 - prec)) as Hu. pose proof (Qpower_2_pos ex) as Hpe.
  pose proof (Qpower_2_pos (emin prec emax)) as Heta.
  assert (Hv : (0 <= inject_Z mx * 2 ^ ex)%Q).
  { apply Qmult_le_0_compat; [|lra]. change 0%Q with (inject_Z 0). by apply inject_Z_le. }
  assert (Huv : (0 <= 2 ^ (1 - prec) * (inject_Z mx * 2 ^ ex))%Q)
    by (apply Qmult_le_0_compat; lra).
  destruct (Z.le_gt_cases (Zdigits2 mx + ex - prec) (emin prec emax)) as [Hsub|Hnorm].
  - replace (fexp prec emax (Zdigits2 mx + ex)) with (emin prec emax) by (unfold fexp; lia).
    lra.
  - replace (fexp prec emax (Zdigits2 mx + ex)) with (Zdigits2 mx + ex - prec)
      in * by (unfold fexp; lia).
    assert (Hmxpos : 0 < mx) by (destruct mx; simpl in *; lia).
    pose proof (Zdigits2_bounds mx Hmxpos) as [Hlo _].
    pose proof (Zdigits2_pos mx Hmxpos) as Hd.
    replace (Zdigits2 mx + ex - prec) with ((1 - prec) + ((Zdigits2 mx - 1) + ex)) by lia.
    rewrite (Qp2_add (1 - prec)), (Qp2_add (Zdigits2 mx - 1)).
    rewrite <- (Qp2_Z (Zdigits2 mx - 1)) by lia.
    apply inject_Z_le in Hlo.
    assert (inject_Z (2 ^ (Zdigits2 mx - 1)) * 2 ^ ex <= inject_Z mx * 2 ^ ex)%Q
      by (apply Qmult_le_r'; lra).
    assert (2 ^ (1 - prec) * (inject_Z (2 ^ (Zdigits2 mx - 1)) * 2 ^ ex) <=
            2 ^ (1 - prec) * (inject_Z mx * 2 ^ ex))%Q.
    { rewrite !(Qmult_comm (2 ^ (1 - prec))). apply Qmult_le_r'; lra. }
    lra.
Qed.

Lemma binary_round_aux_value sx mx ex lx :
  0 <= mx ->
  ex <= fexp prec emax (Zdigits2 mx + ex) ->
  let v := (inject_Z mx * 2 ^ ex)%Q in
  let E1 := fexp prec emax (Zdigits2 mx + ex) in
  let r := binary_round_aux prec emax sx mx ex lx in
  exists a : Q,
    (0 <= a)%Q /\ (Qabs (a - v) <= 2 ^ E1)%Q /\
    (lx = loc_Exact -> E1 = ex -> a == v) /\
    ((a < 2 ^ emax)%Q ->
     Float.isfinite r = true /\ valid_binary prec emax r = true /\
     Float.to_Q r == (if sx then - a else a)%Q).
Proof.
  intros Hmx Hex v E1 r.
  destruct (binary_round_aux_spec prec emax Hprec sx mx ex lx Hmx Hex)
    as (mr & Hmr & Hexact & Hres).
  fold E1 in Hmr, Hexact, Hres. fold r in Hres.
  set (n := E1 - ex) in *. assert (Hn : 0 <= n) by (unfold n, E1; lia).
  assert (HP : 0 < 2 ^ n) by (apply Z.pow_pos_nonneg; lia).
  pose proof (Z.mul_div_le mx (2 ^ n) HP) as Hq1.
  pose proof (Z.mul_succ_div_gt mx (2 ^ n) HP) as Hq2.
  set (q := mx / 2 ^ n) in *.
  assert (Hq0 : 0 <= q) by (apply Z.div_pos; lia).
  pose proof (Qpower_2_pos ex) as Hpe.
  assert (HE1 : (2 ^ E1 == inject_Z (2 ^ n) * 2 ^ ex)%Q).
  { replace E1 with (n + ex) by (unfold n; lia). rewrite Qp2_add, Qp2_Z by done. reflexivity. }
  exists (inject_Z mr * 2 ^ E1)%Q.
  split.
  { apply Qmult_le_0_compat; [|pose proof (Qpower_2_pos E1); lra].
    change 0%Q with (inject_Z 0). apply inject_Z_le. lia. }
  split.
  { assert (Hdiff : (inject_Z mr * 2 ^ E1 - v == inject_Z (mr * 2 ^ n - mx) * 2 ^ ex)%Q).
    { unfold v. rewrite HE1. unfold Z.sub. rewrite inject_Z_plus, inject_Z_mult, inject_Z_opp.
      ring. }
    rewrite Hdiff, HE1.
    assert (Hlo : - 2 ^ n <= mr * 2 ^ n - mx) by nia.
    assert (Hhi : mr * 2 ^ n - mx <= 2 ^ n) by nia.
    apply inject_Z_le in Hlo, Hhi. rewrite inject_Z_opp in Hlo.
    apply Qabs_le_of.
    - apply (Qmult_le_r' _ _ (2 ^ ex)%Q) in Hlo; lra.
    - apply Qmult_le_r'; lra. }
  split.
  { intros Hlx HE. rewrite (Hexact Hlx HE). unfold v. by rewrite HE. }
  intros Hlt. destruct Hres as [[Hz Hr]|(m2 & e2 & Hr & Hval & HEle & Hcanon)].
  - rewrite Hr, Hz. cbn [Float.isfinite valid_binary Float.to_Q].
    split; [done|]. split; [done|]. destruct sx; ring.
  - assert (Ha : (inject_Z mr * 2 ^ E1 == inject_Z (Z.pos m2) * 2 ^ e2)%Q).
    { rewrite <- Hval. replace e2 with ((e2 - E1) + E1) at 2 by lia.
      rewrite Qp2_add, inject_Z_mult, Qp2_Z by lia. ring. }
    assert (He2 : e2 <= emax - prec).
    { unfold canonical_mantissa in Hcanon. apply Z.eqb_eq in Hcanon.
      destruct (Z.le_gt_cases e2 (emax - prec)) as [|Hgt]; [done|]. exfalso.
      assert (Hdg : Z.pos (digits2_pos m2) = prec) by (unfold fexp, emin in Hcanon; lia).
      pose proof (Zdigits2_bounds (Z.pos m2) ltac:(lia)) as [Hlo _].
      change (Zdigits2 (Z.pos m2)) with (Z.pos (digits2_pos m2)) in Hlo. rewrite Hdg in Hlo.
      apply inject_Z_le in Hlo. rewrite Qp2_Z in Hlo by lia.
      pose proof (Qpower_2_pos e2) as Hpe2.
      apply (Qmult_le_r' _ _ (2 ^ e2)%Q) in Hlo; [|lra].
      rewrite <- Qp2_add in Hlo.
      assert (2 ^ emax <= 2 ^ (prec - 1 + e2))%Q by (apply Qp2_le; lia).
      rewrite Ha in Hlt. lra. }
    apply Z.leb_le in He2. rewrite He2 in Hr. rewrite Hr.
    cbn [Float.isfinite valid_binary]. split; [done|].
    split; [unfold bounded; by rewrite Hcanon, He2|].
    rewrite to_Q_finite. destruct sx; rewrite Ha; reflexivity.
Qed.

(** Below half of the range, rounding does not overflow. *)
Lemma below_emax (v a e : Q) :
  (0 <= v <= 2 ^ (emax - 1))%Q ->
  (e <= 2 ^ (1 - prec) * v + 2 ^ emin prec emax)%Q ->
  (Qabs (a - v) <= e)%Q ->
  (a < 2 ^ emax)%Q.
Proof.
  intros [Hv0 Hv] He Ha. apply Qabs_le_inv in Ha as [_ Ha].
  assert (Hu : (2 ^ (1 - prec) <= 2 ^ (-1))%Q) by (apply Qp2_le; lia).
  change (2 ^ (-1))%Q with (/ 2)%Q in Hu.
  assert (Heta : (2 ^ emin prec emax <= 2 ^ (emax - 3))%Q)
    by (apply Qp2_le; unfold emin; lia).
  assert (H3 : (2 ^ (emax - 1) == 4 * 2 ^ (emax - 3))%Q).
  { replace (emax - 1) with (2 + (emax - 3)) by lia. rewrite Qp2_add. reflexivity. }
  assert (H4 : (2 ^ emax == 8 * 2 ^ (emax - 3))%Q).
  { replace emax with (3 + (emax - 3)) at 1 by lia. rewrite Qp2_add. reflexivity. }
  pose proof (Qpower_2_pos (emax - 3)) as Hp.
  assert (Huv : (2 ^ (1 - prec) * v <= / 2 * v)%Q) by (apply Qmult_le_r'; lra).
  rewrite H4. rewrite H3 in Hv. clear H3 H4.
  set (uv := (2 ^ (1 - prec) * v)%Q) in *.
  set (W := (2 ^ (emax - 3))%Q) in *. set (eta := (2 ^ emin prec emax)%Q) in *. 
  assert (Huv' : (uv <= (1 # 2) * v)%Q) by exact Huv. 
  lra.
Qed.

End RoundingValue.

(** ** Alignment and normalisation *)

Section Alignment.
Local Open Scope Z_scope.

Lemma Zdigits2_shift m k :
  0 < m -> 0 <= k -> Zdigits2 (m * 2 ^ k) = Zdigits2 m + k.
Proof.
  intros Hm Hk. pose proof (Zdigits2_bounds m Hm) as [Hlo Hhi].
  pose proof (Zdigits2_pos m Hm) as Hd.
  assert (HP : 0 < 2 ^ k) by (apply Z.pow_pos_nonneg; lia).
  apply Zdigits2_unique; [nia|].
  replace (Zdigits2 m + k - 1) with (Zdigits2 m - 1 + k) by lia.
  rewrite !Z.pow_add_r by lia. nia.
Qed.

Lemma Zdigits2_ge m k : 0 <= k -> 2 ^ k <= m -> k + 1 <= Zdigits2 m.
Proof.
  intros Hk Hm.
  assert (HP : 0 < 2 ^ k) by (apply Z.pow_pos_nonneg; lia).
  pose proof (Zdigits2_bounds m ltac:(lia)) as [_ Hhi].
  destruct (Z.le_gt_cases (k + 1) (Zdigits2 m)) as [|Hlt]; [done|].
  assert (2 ^ Zdigits2 m <= 2 ^ k) by (apply Z.pow_le_mono_r; lia). lia.
Qed.

Lemma shl_align_spec mx ex ex' :
  (shl_align mx ex ex').2 = Z.min ex ex' /\
  Z.pos (shl_align mx ex ex').1 = Z.pos mx * 2 ^ (ex - Z.min ex ex').
Proof.
  unfold shl_align. destruct (ex' - ex) as [|d|d] eqn:Hd; cbn [fst snd].
  - split; [lia|]. replace (ex - Z.min ex ex') with 0 by lia. lia.
  - split; [lia|]. replace (ex - Z.min ex ex') with 0 by lia. lia.
  - split; [lia|]. rewrite pos_iter_xO. do 2 f_equal. lia.
Qed.

End Alignment.

Section NormalizeValue.
Local Open Scope Z_scope.
Variables prec emax : Z.
Hypothesis Hprec : 2 <= prec.
Hypothesis Hemax : prec < emax.

Lemma binary_round_value sx mx ex :
  let v := (inject_Z (Z.pos mx) * 2 ^ ex)%Q in
  let r := binary_round prec emax sx mx ex in
  exists a : Q,
    (0 <= a)%Q /\
    (Qabs (a - v) <= 2 ^ (1 - prec) * v + 2 ^ emin prec emax)%Q /\
    (fexp prec emax (Zdigits2 (Z.pos mx) + ex) <= ex -> a == v) /\
    ((a < 2 ^ emax)%Q ->
     Float.isfinite r = true /\ valid_binary prec emax r = true /\
     Float.to_Q r == (if sx then - a else a)%Q).
Proof.
  intros v r. unfold binary_round in r.
  change (Z.pos (digits2_pos mx)) with (Zdigits2 (Z.pos mx)) in r.
  set (E := fexp prec emax (Zdigits2 (Z.pos mx) + ex)) in *.
  pose proof (shl_align_spec mx ex E) as [Hez Hmz].
  destruct (shl_align mx ex E) as [mz ez] eqn:Hal. cbn [fst snd] in Hez, Hmz.
  assert (Hk : 0 <= ex - ez) by lia.
  assert (Hdig : Zdigits2 (Z.pos mz) + ez = Zdigits2 (Z.pos mx) + ex).
  { rewrite Hmz, Hez, Zdigits2_shift by lia. lia. }
  assert (Hv : (inject_Z (Z.pos mz) * 2 ^ ez == v)%Q).
  { unfold v. rewrite Hmz, <- Hez.
    assert (He : (2 ^ ex == 2 ^ (ex - ez) * 2 ^ ez)%Q).
    { rewrite <- Qp2_add. replace (ex - ez + ez) with ex by lia. reflexivity. }
    rewrite He, inject_Z_mult, Qp2_Z by done. ring. }
  assert (Hpre : ez <= fexp prec emax (Zdigits2 (Z.pos mz) + ez)).
  { rewrite Hdig. fold E. lia. }
  destruct (binary_round_aux_value prec emax Hprec Hemax sx (Z.pos mz) ez loc_Exact
              ltac:(lia) Hpre) as (a & Ha0 & Herr & Hexact & Hfin).
  pose proof (ulp_bound prec emax Hprec (Z.pos mz) ez ltac:(lia) Hpre) as Hulp.
  rewrite Hdig in Herr, Hexact, Hulp. fold E in Herr, Hexact, Hulp.
  rewrite Hv in Herr, Hulp.
  exists a. split; [done|]. split; [lra|]. split.
  - intros HE. rewrite <- Hv. apply Hexact; [done|lia].
  - exact Hfin.
Qed.

Lemma binary_normalize_value M e szero :
  let V := (inject_Z M * 2 ^ e)%Q in
  let r := binary_normalize prec emax M e szero in
  ((Qabs V <= 2 ^ (emax - 1))%Q ->
   Float.isfinite r = true /\ valid_binary prec emax r = true /\
   (Qabs (Float.to_Q r - V) <= 2 ^ (1 - prec) * Qabs V + 2 ^ emin prec emax)%Q) /\
  (fexp prec emax (Zdigits2 M + e) <= e -> (Qabs V < 2 ^ emax)%Q ->
   Float.isfinite r = true /\ valid_binary prec emax r = true /\ Float.to_Q r == V).
Proof.
  intros V r.
  pose proof (Qpower_2_pos e) as Hpe.
  destruct M as [|m|m]; cbn [binary_normalize] in r.
  - subst r V. cbn [Float.isfinite valid_binary Float.to_Q].
    assert (H0 : (inject_Z 0 * 2 ^ e == 0)%Q) by ring.
    pose proof (Qpower_2_pos (1 - prec)). pose proof (Qpower_2_pos (emin prec emax)).
    split; intros; (split; [done|]); (split; [done|]); rewrite ?H0; [|reflexivity].
    assert (Hx : (0 - 0 == 0)%Q) by ring. rewrite Hx. change (Qabs 0) with 0%Q. lra.
  - destruct (binary_round_value false m e) as (a & Ha0 & Herr & Hexact & Hfin).
    fold V in Herr, Hexact. fold r in Hfin.
    assert (HV0 : (0 <= V)%Q).
    { unfold V. apply Qmult_le_0_compat; [|lra]. by change 0%Q with (inject_Z 0);
        apply inject_Z_le. }
    rewrite (Qabs_pos V HV0). split.
    + intros HV. destruct Hfin as (Hf & Hval & Hq).
      { exact (below_emax prec emax Hprec Hemax V a _ (conj HV0 HV) (Qle_refl _) Herr). }
      split; [done|]. split; [done|]. rewrite Hq. exact Herr.
    + intros HE HV. rewrite <- (Hexact HE) in HV. destruct (Hfin HV) as (Hf & Hval & Hq).
      split; [done|]. split; [done|]. rewrite Hq. by apply Hexact.
  - destruct (binary_round_value true m e) as (a & Ha0 & Herr & Hexact & Hfin).
    fold r in Hfin. cbv zeta in Herr, Hexact.
    set (v := (inject_Z (Z.pos m) * 2 ^ e)%Q) in *.
    assert (HVv : (V == - v)%Q).
    { unfold V, v. change (Z.neg m) with (- Z.pos m). rewrite inject_Z_opp. ring. }
    assert (Hv0 : (0 <= v)%Q).
    { unfold v. apply Qmult_le_0_compat; [|lra]. by change 0%Q with (inject_Z 0);
        apply inject_Z_le. }
    assert (HabsV : (Qabs V == v)%Q).
    { rewrite HVv, Qabs_opp. by apply Qabs_pos. }
    rewrite HabsV. split.
    + intros HV. destruct Hfin as (Hf & Hval & Hq).
      { exact (below_emax prec emax Hprec Hemax v a _ (conj Hv0 HV) (Qle_refl _) Herr). }
      split; [done|]. split; [done|]. rewrite Hq, HVv.
      assert (Hx : (- a - - v == - (a - v))%Q) by ring. rewrite Hx, Qabs_opp. exact Herr.
    + intros HE HV. change (Zdigits2 (Z.neg m)) with (Zdigits2 (Z.pos m)) in HE.
      rewrite <- (Hexact HE) in HV. destruct (Hfin HV) as (Hf & Hval & Hq).
      split; [done|]. split; [done|]. rewrite Hq, HVv. by rewrite (Hexact HE).
Qed.

End NormalizeValue.

(** ** Conversion, integers, addition and subtraction *)

Lemma prec_ok (d : dtype) : (2 <= Float.prec d)%Z.
Proof. destruct d; simpl; lia. Qed.

Lemma emax_ok (d : dtype) : (Float.prec d < Float.emax d)%Z.
Proof. destruct d; simpl; lia. Qed.

Lemma spacing_pos (d : dtype) : (0 < spacing d)%Q.
Proof. apply Qpower_2_pos. Qed.

Lemma tiny_pos (d : dtype) : (0 < tiny d)%Q.
Proof. apply Qpower_2_pos. Qed.

Lemma half_range_pos (d : dtype) : (0 < half_range d)%Q.
Proof. apply Qpower_2_pos. Qed.

Lemma rounding_error_pos (d : dtype) (v : Q) : (0 < rounding_error d v)%Q.
Proof.
  unfold rounding_error. pose proof (spacing_pos d). pose proof (tiny_pos d).
  pose proof (Qabs_nonneg v).
  assert (0 <= spacing d * Qabs v)%Q by (apply Qmult_le_0_compat; lra). lra.
Qed.

#[global] Instance rounding_error_wd (d : dtype) : Proper (Qeq ==> Qeq) (rounding_error d).
Proof. intros v w Hvw. unfold rounding_error. by rewrite Hvw. Qed.

Lemma rounding_error_exact (d : dtype) (x v : Q) :
  x == v -> (Qabs (x - v) <= rounding_error d v)%Q.
Proof.
  intros Hxv. assert (Hz : (x - v == 0)%Q) by (rewrite Hxv; ring).
  rewrite Hz. change (Qabs 0) with 0%Q. pose proof (rounding_error_pos d v). lra.
Qed.

Lemma rounding_error_mono (d : dtype) (v w : Q) :
  (Qabs v <= w)%Q -> (rounding_error d v <= spacing d * w + tiny d)%Q.
Proof.
  intros Hvw. unfold rounding_error. pose proof (spacing_pos d).
  assert (spacing d * Qabs v <= spacing d * w)%Q.
  { rewrite !(Qmult_comm (spacing d)). apply Qmult_le_r'; lra. }
  lra.
Qed.

Lemma representable_zero (d : dtype) (s : bool) : representable d (S754_zero s) = true.
Proof. done. Qed.

Lemma representable_finite (d : dtype) (x : float) :
  representable d x = true -> Float.isfinite x = true.
Proof. unfold representable. by intros [? _]%andb_true_iff. Qed.

Lemma representable_inv (d : dtype) (x : float) :
  representable d x = true ->
  (exists s, x = S754_zero s) \/
  (exists s m e, x = S754_finite s m e /\
     fexp (Float.prec d) (Float.emax d) (Zdigits2 (Z.pos m) + e) = e /\
     (e <= Float.emax d - Float.prec d)%Z).
Proof.
  unfold representable. intros [Hf Hv]%andb_true_iff.
  destruct x as [s| | |s m e]; try done; [left; by eexists|].
  right. exists s, m, e. split; [done|]. cbn [valid_binary] in Hv.
  unfold bounded, canonical_mantissa in Hv. apply andb_true_iff in Hv as [Hc He].
  apply Z.eqb_eq in Hc. apply Z.leb_le in He. done.
Qed.

Section Operations.
Variable d : dtype.
Local Open Scope Z_scope.

Let prec := Float.prec d.
Let emax := Float.emax d.

Lemma normalize_representable M e szero :
  (Qabs (inject_Z M * 2 ^ e) <= half_range d)%Q ->
  representable d (binary_normalize prec emax M e szero) = true /\
  (Qabs (Float.to_Q (binary_normalize prec emax M e szero) - inject_Z M * 2 ^ e)
     <= rounding_error d (inject_Z M * 2 ^ e))%Q.
Proof.
  intros HV.
  destruct (binary_normalize_value prec emax (prec_ok d) (emax_ok d) M e szero) as [Hr _].
  destruct (Hr HV) as (Hf & Hval & Herr).
  split; [by apply andb_true_iff|exact Herr].
Qed.

Lemma normalize_exact M e szero :
  fexp prec emax (Zdigits2 M + e) <= e ->
  (Qabs (inject_Z M * 2 ^ e) < 2 ^ emax)%Q ->
  representable d (binary_normalize prec emax M e szero) = true /\
  Float.to_Q (binary_normalize prec emax M e szero) == (inject_Z M * 2 ^ e)%Q.
Proof.
  intros HE HV.
  destruct (binary_normalize_value prec emax (prec_ok d) (emax_ok d) M e szero) as [_ Hr].
  destruct (Hr HE HV) as (Hf & Hval & Heq).
  split; [by apply andb_true_iff|exact Heq].
Qed.

(** [x.astype(d)] of a finite number within half of the range of [d] *)
Lemma round_to_value (x : float) :
  Float.isfinite x = true ->
  (Qabs (Float.to_Q x) <= half_range d)%Q ->
  representable d (Float.round_to d x) = true /\
  (Qabs (Float.to_Q (Float.round_to d x) - Float.to_Q x)
     <= rounding_error d (Float.to_Q x))%Q.
Proof.
  intros Hf HV. destruct x as [s| | |s m e]; try done.
  - cbn [Float.round_to]. split; [done|]. by apply rounding_error_exact.
  - cbn [Float.round_to]. by apply normalize_representable.
Qed.

Lemma to_Q_lt_emax (s : bool) (m : positive) (e : Z) (p em : Z) :
  Zdigits2 (Z.pos m) <= p -> e <= em - p ->
  (Qabs (Float.to_Q (S754_finite s m e)) < 2 ^ em)%Q.
Proof.
  intros Hdg He.
  assert (Habs : (Qabs (Float.to_Q (S754_finite s m e)) == inject_Z (Z.pos m) * 2 ^ e)%Q).
  { pose proof (Qpower_2_pos e).
    assert (0 <= inject_Z (Z.pos m) * 2 ^ e)%Q.
    { apply Qmult_le_0_compat; [|lra]. change 0%Q with (inject_Z 0). by apply inject_Z_le. }
    rewrite to_Q_finite. destruct s; [rewrite Qabs_opp|]; by apply Qabs_pos. }
  rewrite Habs.
  pose proof (Zdigits2_bounds (Z.pos m) ltac:(lia)) as [_ Hhi].
  pose proof (Zdigits2_pos (Z.pos m) ltac:(lia)) as Hd0.
  apply inject_Z_lt in Hhi. rewrite Qp2_Z in Hhi by lia.
  pose proof (Qpower_2_pos e) as Hpe.
  assert (inject_Z (Z.pos m) * 2 ^ e < 2 ^ Zdigits2 (Z.pos m) * 2 ^ e)%Q
    by (apply Qmult_lt_compat_r; lra).
  rewrite <- Qp2_add in H.
  assert (2 ^ (Zdigits2 (Z.pos m) + e) <= 2 ^ em)%Q by (apply Qp2_le; lia).
  lra.
Qed.

(** A number of a format with no more digits and no more range is a
    number of [d]: its conversion to [d] keeps its value. *)
Lemma round_to_exact (d' : dtype) (x : float) :
  Float.prec d' <= prec -> Float.emax d' <= emax ->
  representable d' x = true ->
  representable d (Float.round_to d x) = true /\
  Float.to_Q (Float.round_to d x) == Float.to_Q x.
Proof.
  intros Hp He Hx. destruct (representable_inv d' x Hx) as [[s ->]|(s & m & e & -> & Hc & Hb)].
  - cbn [Float.round_to]. split; [done|reflexivity].
  - cbn [Float.round_to].
    assert (Hdg : Zdigits2 (Z.pos m) <= Float.prec d') by (unfold fexp in Hc; lia).
    assert (Hmin : emin (Float.prec d') (Float.emax d') <= e) by (unfold fexp in Hc; lia).
    apply normalize_exact.
    + replace (Zdigits2 (cond_Zopp s (Z.pos m))) with (Zdigits2 (Z.pos m)) by (by destruct s).
      unfold fexp, emin in *. fold prec emax. lia.
    + change (inject_Z (cond_Zopp s (Z.pos m)) * 2 ^ e)%Q with (Float.to_Q (S754_finite s m e)).
      eapply Qlt_le_trans; [apply (to_Q_lt_emax s m e (Float.prec d') (Float.emax d')); lia|].
      apply Qp2_le. done.
Qed.

Lemma representable_lt_emax (x : float) :
  representable d x = true -> (Qabs (Float.to_Q x) < 2 ^ emax)%Q.
Proof.
  intros Hx. destruct (representable_inv d x Hx) as [[s ->]|(s & m & e & -> & Hc & Hb)].
  - cbn [Float.to_Q]. change (Qabs 0) with 0%Q. apply Qpower_2_pos.
  - apply (to_Q_lt_emax s m e prec emax); [|done]. unfold fexp in Hc. fold prec emax in Hc. lia.
Qed.

(** Integers of no more digits than the format has are numbers of it. *)
Lemma of_Z_exact (n : Z) :
  Z.abs n < 2 ^ prec ->
  representable d (Float.of_Z d n) = true /\ Float.to_Q (Float.of_Z d n) == inject_Z n.
Proof.
  intros Hn. unfold Float.of_Z.
  pose proof (prec_ok d) as Hp. pose proof (emax_ok d) as He. fold prec in Hp, He. fold emax in He.
  assert (Hone : (inject_Z n * 2 ^ 0 == inject_Z n)%Q) by (change (2 ^ 0)%Q with 1%Q; ring).
  destruct (normalize_exact n 0 false) as [Hr Hq].
  - assert (Zdigits2 n <= prec).
    { replace (Zdigits2 n) with (Zdigits2 (Z.abs n)) by (by destruct n).
      apply Zdigits2_lt_pow; lia. }
    unfold fexp, emin. lia.
  - rewrite Hone.
    assert (Habs : (Qabs (inject_Z n) == inject_Z (Z.abs n))%Q).
    { destruct n; try reflexivity. }
    rewrite Habs. apply inject_Z_lt in Hn. rewrite Qp2_Z in Hn by lia.
    assert (2 ^ prec <= 2 ^ emax)%Q by (apply Qp2_le; lia). lra.
  - split; [done|]. etransitivity; [exact Hq|exact Hone].
Qed.

Lemma aligned_value (s : bool) (m : positive) (e ez : Z) :
  ez <= e ->
  (inject_Z (cond_Zopp s (Z.pos (shl_align m e ez).1)) * 2 ^ ez ==
   Float.to_Q (S754_finite s m e))%Q.
Proof.
  intros Hez. destruct (shl_align_spec m e ez) as [_ Hm]. rewrite Hm.
  replace (Z.min e ez) with ez by lia.
  assert (He : (2 ^ e == 2 ^ (e - ez) * 2 ^ ez)%Q).
  { rewrite <- Qp2_add. replace (e - ez + ez) with e by lia. reflexivity. }
  unfold Float.to_Q. rewrite He. destruct s; cbn [cond_Zopp].
  - rewrite !inject_Z_opp, inject_Z_mult, Qp2_Z by lia. ring.
  - rewrite inject_Z_mult, Qp2_Z by lia. ring.
Qed.

Lemma add_value (x y : float) :
  representable d x = true -> representable d y = true ->
  (Qabs (Float.to_Q x + Float.to_Q y) <= half_range d)%Q ->
  representable d (Float.add d x y) = true /\
  (Qabs (Float.to_Q (Float.add d x y) - (Float.to_Q x + Float.to_Q y))
     <= rounding_error d (Float.to_Q x + Float.to_Q y))%Q.
Proof.
  intros Hx Hy HV. unfold Float.add.
  destruct (representable_inv d x Hx) as [[sx ->]|(sx & mx & ex & -> & _)];
    destruct (representable_inv d y Hy) as [[sy ->]|(sy & my & ey & -> & _)].
  - split; [by destruct sx, sy|]. apply rounding_error_exact.
    destruct sx, sy; cbn [SFadd Float.to_Q]; ring.
  - cbn [SFadd]. split; [done|]. apply rounding_error_exact. cbn [Float.to_Q]. ring.
  - cbn [SFadd]. split; [done|]. apply rounding_error_exact. cbn [Float.to_Q]. ring.
  - cbn [SFadd]. cbv zeta.
    set (ez := Z.min ex ey).
    set (M := cond_Zopp sx (Z.pos (shl_align mx ex ez).1) +
              cond_Zopp sy (Z.pos (shl_align my ey ez).1)).
    assert (HM : (inject_Z M * 2 ^ ez ==
                  Float.to_Q (S754_finite sx mx ex) + Float.to_Q (S754_finite sy my ey))%Q).
    { unfold M. rewrite inject_Z_plus, Qmult_plus_distr_l.
      rewrite !aligned_value by (unfold ez; lia). reflexivity. }
    rewrite <- HM in HV. destruct (normalize_representable M ez false HV) as [Hr He].
    split; [exact Hr|]. rewrite <- HM. exact He.
Qed.

Lemma sub_value (x y : float) :
  representable d x = true -> representable d y = true ->
  (Qabs (Float.to_Q x - Float.to_Q y) <= half_range d)%Q ->
  representable d (Float.sub d x y) = true /\
  (Qabs (Float.to_Q (Float.sub d x y) - (Float.to_Q x - Float.to_Q y))
     <= rounding_error d (Float.to_Q x - Float.to_Q y))%Q.
Proof.
  intros Hx Hy HV. unfold Float.sub.
  destruct (representable_inv d x Hx) as [[sx ->]|(sx & mx & ex & -> & _)];
    destruct (representable_inv d y Hy) as [[sy ->]|(sy & my & ey & -> & Hcy)].
  - split; [by destruct sx, sy|]. apply rounding_error_exact.
    destruct sx, sy; cbn [SFsub Float.to_Q]; ring.
  - cbn [SFsub]. split.
    { unfold representable in *. by destruct sy. }
    apply rounding_error_exact. rewrite !to_Q_finite. cbn [Float.to_Q]. destruct sy; cbn [negb]; ring.
  - cbn [SFsub]. split; [done|]. apply rounding_error_exact. cbn [Float.to_Q]. ring.
  - cbn [SFsub]. cbv zeta.
    set (ez := Z.min ex ey).
    set (M := cond_Zopp sx (Z.pos (shl_align mx ex ez).1) -
              cond_Zopp sy (Z.pos (shl_align my ey ez).1)).
    assert (HM : (inject_Z M * 2 ^ ez ==
                  Float.to_Q (S754_finite sx mx ex) - Float.to_Q (S754_finite sy my ey))%Q).
    { unfold M, Z.sub. rewrite inject_Z_plus, inject_Z_opp.
      assert (Hd : forall a b t : Q, ((a + - b) * t == a * t - b * t)%Q) by (intros; ring).
      rewrite Hd. rewrite !aligned_value by (unfold ez; lia). reflexivity. }
    rewrite <- HM in HV. destruct (normalize_representable M ez false HV) as [Hr He].
    split; [exact Hr|]. rewrite <- HM. exact He.
Qed.

End Operations.

(** ** Multiplication and division *)

Lemma Qabs_cond_opp (s : bool) (a : Q) : (0 <= a)%Q -> Qabs (if s then - a else a) == a.
Proof. intros Ha. destruct s; [rewrite Qabs_opp|]; by apply Qabs_pos. Qed.

Lemma cond_opp_diff (s : bool) (a v : Q) :
  Qabs ((if s then - a else a) - (if s then - v else v)) == Qabs (a - v).
Proof.
  destruct s; [|reflexivity].
  assert (Hx : (- a - - v == - (a - v))%Q) by ring. by rewrite Hx, Qabs_opp.
Qed.

Lemma to_Q_finite_xorb (sx sy : bool) (mx my : positive) (ex ey : Z) :
  (Float.to_Q (S754_finite sx mx ex) * Float.to_Q (S754_finite sy my ey) ==
   if xorb sx sy then - (inject_Z (Z.pos (mx * my)) * 2 ^ (ex + ey))
   else inject_Z (Z.pos (mx * my)) * 2 ^ (ex + ey))%Q.
Proof.
  rewrite !to_Q_finite.
  destruct sx, sy; cbn [xorb]; rewrite Qp2_add, Pos2Z.inj_mul, inject_Z_mult; ring.
Qed.

Section MoreOperations.
Variable d : dtype.
Local Open Scope Z_scope.

Let prec := Float.prec d.
Let emax := Float.emax d.

(** What [binary_round_aux] returns for a value within half of the range:
    a number of the format, of the sign asked for, whose magnitude is off
    by the spacing at most. *)
Lemma round_aux_representable (s : bool) (mz ez : Z) (lz : location) :
  0 <= mz ->
  ez <= fexp prec emax (Zdigits2 mz + ez) ->
  (inject_Z mz * 2 ^ ez <= half_range d)%Q ->
  let r := binary_round_aux prec emax s mz ez lz in
  representable d r = true /\
  exists a : Q,
    (0 <= a)%Q /\ Float.to_Q r == (if s then - a else a)%Q /\
    (Qabs (a - inject_Z mz * 2 ^ ez) <= 2 ^ fexp prec emax (Zdigits2 mz + ez))%Q /\
    (2 ^ fexp prec emax (Zdigits2 mz + ez) <= spacing d * (inject_Z mz * 2 ^ ez) + tiny d)%Q.
Proof.
  intros Hmz Hpre Hv r.
  destruct (binary_round_aux_value prec emax (prec_ok d) (emax_ok d) s mz ez lz Hmz Hpre)
    as (a & Ha0 & Herr & _ & Hfin).
  pose proof (ulp_bound prec emax (prec_ok d) mz ez Hmz Hpre) as Hulp.
  assert (Hv0 : (0 <= inject_Z mz * 2 ^ ez)%Q).
  { pose proof (Qpower_2_pos ez). apply Qmult_le_0_compat; [|lra].
    change 0%Q with (inject_Z 0). by apply inject_Z_le. }
  destruct Hfin as (Hf & Hval & Hq).
  { exact (below_emax prec emax (prec_ok d) (emax_ok d) _ a _ (conj Hv0 Hv) Hulp Herr). }
  split; [by apply andb_true_iff|].
  exists a. split; [done|]. split; [exact Hq|]. split; [exact Herr|exact Hulp].
Qed.

Lemma mul_value (x y : float) :
  representable d x = true -> representable d y = true ->
  (Qabs (Float.to_Q x * Float.to_Q y) <= half_range d)%Q ->
  representable d (Float.mul d x y) = true /\
  (Qabs (Float.to_Q (Float.mul d x y) - Float.to_Q x * Float.to_Q y)
     <= rounding_error d (Float.to_Q x * Float.to_Q y))%Q.
Proof.
  intros Hx Hy HV. unfold Float.mul.
  pose proof (prec_ok d) as Hp. pose proof (emax_ok d) as He. fold prec in Hp, He. fold emax in He.
  destruct (representable_inv d x Hx) as [[sx ->]|(sx & mx & ex & -> & Hcx & Hbx)];
    destruct (representable_inv d y Hy) as [[sy ->]|(sy & my & ey & -> & Hcy & Hby)].
  - cbn [SFmul]. split; [done|]. apply rounding_error_exact. cbn [Float.to_Q]. ring.
  - cbn [SFmul]. split; [done|]. apply rounding_error_exact. cbn [Float.to_Q]. ring.
  - cbn [SFmul]. split; [done|]. apply rounding_error_exact. cbn [Float.to_Q]. ring.
  - cbn [SFmul]. fold prec emax in Hcx, Hcy, Hbx, Hby |- *.
    pose proof (Zdigits2_bounds (Z.pos mx) ltac:(lia)) as [Hlx _].
    pose proof (Zdigits2_bounds (Z.pos my) ltac:(lia)) as [Hly _].
    pose proof (Zdigits2_pos (Z.pos mx) ltac:(lia)) as Hdx.
    pose proof (Zdigits2_pos (Z.pos my) ltac:(lia)) as Hdy.
    assert (Hdig : Zdigits2 (Z.pos mx) + Zdigits2 (Z.pos my) - 1 <= Zdigits2 (Z.pos (mx * my))).
    { assert (0 < 2 ^ (Zdigits2 (Z.pos mx) - 1)) by (apply Z.pow_pos_nonneg; lia).
      assert (0 < 2 ^ (Zdigits2 (Z.pos my) - 1)) by (apply Z.pow_pos_nonneg; lia).
      assert (Hge : 2 ^ (Zdigits2 (Z.pos mx) - 1 + (Zdigits2 (Z.pos my) - 1)) <= Z.pos (mx * my)).
      { rewrite Z.pow_add_r by lia. rewrite Pos2Z.inj_mul. nia. }
      apply Zdigits2_ge in Hge; lia. }
    assert (Hpre : ex + ey <= fexp prec emax (Zdigits2 (Z.pos (mx * my)) + (ex + ey))).
    { unfold fexp, emin in *. lia. }
    pose proof (to_Q_finite_xorb sx sy mx my ex ey) as Hprod.
    set (v := (inject_Z (Z.pos (mx * my)) * 2 ^ (ex + ey))%Q) in *.
    assert (Hv0 : (0 <= v)%Q).
    { unfold v. pose proof (Qpower_2_pos (ex + ey)). apply Qmult_le_0_compat; [|lra].
      change 0%Q with (inject_Z 0). by apply inject_Z_le. }
    assert (Habs : (Qabs (Float.to_Q (S754_finite sx mx ex) * Float.to_Q (S754_finite sy my ey))
                    == v)%Q).
    { rewrite Hprod. by apply Qabs_cond_opp. }
    destruct (round_aux_representable (xorb sx sy) (Z.pos (mx * my)) (ex + ey) loc_Exact
                ltac:(lia) Hpre) as (Hr & a & Ha0 & Hq & Herr & Hulp).
    { fold v. by rewrite <- Habs. }
    split; [exact Hr|]. fold v in Herr, Hulp.
    rewrite Hq, Hprod, cond_opp_diff. unfold rounding_error.
    rewrite <- Hprod, Habs. lra.
Qed.

Lemma div_core_spec (m1 e1 m2 e2 : Z) :
  0 < m1 -> 0 < m2 ->
  let e' := Z.min (fexp prec emax (Zdigits2 m1 + e1 - (Zdigits2 m2 + e2))) (e1 - e2) in
  let m' := m1 * 2 ^ (e1 - e2 - e') in
  SFdiv_core_binary prec emax m1 e1 m2 e2 = (m' / m2, e', new_location m2 (m' mod m2)).
Proof.
  intros Hm1 Hm2 e' m'. unfold SFdiv_core_binary. fold e'.
  assert (Hs : 0 <= e1 - e2 - e') by (unfold e'; lia).
  assert (Hm' : match e1 - e2 - e' with
                | Z.pos _ => Z.shiftl m1 (e1 - e2 - e')
                | 0 => m1
                | Z.neg _ => 0
                end = m').
  { unfold m'. destruct (e1 - e2 - e') as [|p|p] eqn:Hse; [lia| |lia].
    by rewrite Z.shiftl_mul_pow2. }
  rewrite Hm'. unfold Z.div, Z.modulo. by destruct (Z.div_eucl m' m2).
Qed.

Lemma div_value (x y : float) :
  representable d x = true -> representable d y = true ->
  ~ Float.to_Q y == 0 ->
  (Qabs (Float.to_Q x / Float.to_Q y) <= half_range d)%Q ->
  representable d (Float.div d x y) = true /\
  (Qabs (Float.to_Q (Float.div d x y) - Float.to_Q x / Float.to_Q y)
     <= 2 * rounding_error d (Float.to_Q x / Float.to_Q y))%Q.
Proof.
  intros Hx Hy Hy0 HV. unfold Float.div.
  pose proof (prec_ok d) as Hp. pose proof (emax_ok d) as He. fold prec in Hp, He. fold emax in He.
  destruct (representable_inv d y Hy) as [[sy ->]|(sy & my & ey & -> & Hcy & Hby)].
  { exfalso. apply Hy0. reflexivity. }
  destruct (representable_inv d x Hx) as [[sx ->]|(sx & mx & ex & -> & Hcx & Hbx)].
  { cbn [SFdiv]. split; [done|].
    pose proof (rounding_error_pos d (Float.to_Q (S754_zero sx) / Float.to_Q (S754_finite sy my ey))).
    assert (Hz : (Float.to_Q (S754_zero (xorb sx sy)) -
                  Float.to_Q (S754_zero sx) / Float.to_Q (S754_finite sy my ey) == 0)%Q).
    { set (Y := Float.to_Q (S754_finite sy my ey)) in *.
      change (Float.to_Q (S754_zero (xorb sx sy))) with 0%Q.
      change (Float.to_Q (S754_zero sx)) with 0%Q. field. exact Hy0. }
    rewrite Hz. change (Qabs 0) with 0%Q. lra. }
  cbn [SFdiv]. fold prec emax in Hcx, Hcy, Hbx, Hby |- *.
  rewrite div_core_spec by lia. cbv zeta.
  set (e' := Z.min (fexp prec emax (Zdigits2 (Z.pos mx) + ex - (Zdigits2 (Z.pos my) + ey)))
               (ex - ey)).
  set (s := ex - ey - e'). assert (Hs : 0 <= s) by (unfold s, e'; lia).
  set (m' := Z.pos mx * 2 ^ s).
  assert (HP : 0 < 2 ^ s) by (apply Z.pow_pos_nonneg; lia).
  assert (Hm'pos : 0 < m') by (unfold m'; lia).
  set (q := m' / Z.pos my).
  assert (Hq0 : 0 <= q) by (apply Z.div_pos; lia).
  pose proof (Z.mul_div_le m' (Z.pos my) ltac:(lia)) as Hq1.
  pose proof (Z.mul_succ_div_gt m' (Z.pos my) ltac:(lia)) as Hq2. fold q in Hq1, Hq2.
  (* the quotient has digits enough *)
  pose proof (Zdigits2_bounds (Z.pos mx) ltac:(lia)) as [Hlx _].
  pose proof (Zdigits2_bounds (Z.pos my) ltac:(lia)) as [_ Hhy].
  pose proof (Zdigits2_pos (Z.pos mx) ltac:(lia)) as Hdx.
  pose proof (Zdigits2_pos (Z.pos my) ltac:(lia)) as Hdy.
  pose proof (Zdigits2_nonneg q) as Hdq.
  assert (Hdig : Zdigits2 (Z.pos mx) + s - Zdigits2 (Z.pos my) <= Zdigits2 q).
  { destruct (Z.le_gt_cases (Zdigits2 (Z.pos mx) + s - Zdigits2 (Z.pos my)) 0) as [|Hpos]; [lia|].
    set (k := Zdigits2 (Z.pos mx) + s - Zdigits2 (Z.pos my) - 1).
    assert (Hk : 0 <= k) by (unfold k; lia).
    assert (Hqk : 2 ^ k <= q).
    { apply Z.div_le_lower_bound; [lia|].
      assert (Hsplit : 2 ^ Zdigits2 (Z.pos my) * 2 ^ k = 2 ^ (Zdigits2 (Z.pos mx) - 1) * 2 ^ s).
      { rewrite <- !Z.pow_add_r by lia. f_equal. unfold k. lia. }
      assert (0 < 2 ^ k) by (apply Z.pow_pos_nonneg; lia).
      unfold m'. nia. }
    pose proof (Zdigits2_ge q k Hk Hqk). unfold k in *. lia. }
  assert (Hpre : e' <= fexp prec emax (Zdigits2 q + e')).
  { unfold e', s in *. unfold fexp in *. lia. }
  (* the exact quotient *)
  pose proof (Qpower_2_pos e') as Hpe'. pose proof (Qpower_2_pos ex) as Hpex.
  pose proof (Qpower_2_pos ey) as Hpey.
  set (w := (inject_Z m' / inject_Z (Z.pos my) * 2 ^ e')%Q).
  assert (Hmy : (0 < inject_Z (Z.pos my))%Q) by (change 0%Q with (inject_Z 0); by apply inject_Z_lt).
  assert (Hquot : (Float.to_Q (S754_finite sx mx ex) / Float.to_Q (S754_finite sy my ey) ==
                   if xorb sx sy then - w else w)%Q).
  { rewrite !to_Q_finite. unfold w, m'.
    assert (Hex : (2 ^ ex == 2 ^ s * 2 ^ e' * 2 ^ ey)%Q).
    { rewrite <- !Qp2_add. replace (s + e' + ey) with ex by (unfold s; lia). reflexivity. }
    destruct sx, sy; cbn [xorb]; rewrite Hex, inject_Z_mult, Qp2_Z by done;
      field; split; lra. }
  set (v := (inject_Z q * 2 ^ e')%Q).
  assert (Hvw : (v <= w /\ w <= v + 2 ^ e')%Q).
  { unfold v, w.
    assert (H1 : (inject_Z q <= inject_Z m' / inject_Z (Z.pos my))%Q).
    { apply Qle_shift_div_l; [done|]. rewrite <- inject_Z_mult. apply inject_Z_le. lia. }
    assert (H2 : (inject_Z m' / inject_Z (Z.pos my) <= inject_Z q + 1)%Q).
    { apply Qle_shift_div_r; [done|]. change 1%Q with (inject_Z 1).
      rewrite <- inject_Z_plus, <- inject_Z_mult. apply inject_Z_le. lia. }
    split.
    - apply Qmult_le_r'; lra.
    - apply (Qmult_le_r' _ _ (2 ^ e')%Q) in H2; lra. }
  assert (Hv0 : (0 <= v)%Q).
  { unfold v. apply Qmult_le_0_compat; [|lra]. change 0%Q with (inject_Z 0). by apply inject_Z_le. }
  assert (Hw0 : (0 <= w)%Q) by lra.
  assert (Habs : (Qabs (Float.to_Q (S754_finite sx mx ex) / Float.to_Q (S754_finite sy my ey))
                  == w)%Q).
  { rewrite Hquot. by apply Qabs_cond_opp. }
  rewrite Habs in HV.
  destruct (round_aux_representable (xorb sx sy) q e'
              (new_location (Z.pos my) (m' mod Z.pos my)) Hq0 Hpre)
    as (Hr & a & Ha0 & Hq & Herr & Hulp).
  { fold v. lra. }
  split; [exact Hr|]. fold v in Herr, Hulp.
  rewrite Hq, Hquot, cond_opp_diff. unfold rounding_error.
  rewrite <- Hquot, Habs.
  assert (Hee : (2 ^ e' <= 2 ^ fexp prec emax (Zdigits2 q + e'))%Q) by (by apply Qp2_le).
  pose proof (spacing_pos d) as Hsp.
  assert (Hsv : (spacing d * v <= spacing d * w)%Q).
  { rewrite !(Qmult_comm (spacing d)). apply Qmult_le_r'; lra. }
  apply Qabs_le_inv in Herr as [Herr1 Herr2].
  set (E := (2 ^ fexp prec emax (Zdigits2 q + e'))%Q) in *.
  set (sv := (spacing d * v)%Q) in *. set (sw := (spacing d * w)%Q) in *.
  set (t := tiny d) in *. set (pe := (2 ^ e')%Q) in *.
  apply Qabs_le_of; lra.
Qed.

End MoreOperations.

(** ** Square root *)

Section SquareRoot.
Variable d : dtype.
Local Open Scope Z_scope.

Let prec := Float.prec d.
Let emax := Float.emax d.

Lemma sqrt_core_spec (m e : Z) :
  0 < m ->
  let e' := Z.min (fexp prec emax (Z.div2 (Zdigits2 m + e + 1))) (Z.div2 e) in
  exists l,
    SFsqrt_core_binary prec emax m e = (Z.sqrt (m * 2 ^ (e - 2 * e')), e', l).
Proof.
  intros Hm e'. unfold SFsqrt_core_binary. fold e'.
  pose proof (Z.div2_odd e) as Hodd.
  assert (Hs : 0 <= e - 2 * e') by (unfold e'; destruct (Z.odd e); cbn [Z.b2z] in Hodd; lia).
  assert (Hm' : match e - 2 * e' with
                | Z.pos _ => Z.shiftl m (e - 2 * e')
                | 0 => m
                | Z.neg _ => 0
                end = m * 2 ^ (e - 2 * e')).
  { destruct (e - 2 * e') as [|p|p] eqn:Hse; [lia| |lia].
    by rewrite Z.shiftl_mul_pow2. }
  rewrite Hm'. rewrite <- Z.sqrtrem_sqrt.
  destruct (Z.sqrtrem (m * 2 ^ (e - 2 * e'))) as [q r]. by eexists.
Qed.

(** The square root of a number of the format is a number of the format. *)
Lemma sqrt_representable (x : float) :
  representable d x = true -> sign_bit x = false ->
  representable d (Float.sqrt d x) = true.
Proof.
  intros Hx Hsign. unfold Float.sqrt.
  pose proof (prec_ok d) as Hp. pose proof (emax_ok d) as He. fold prec in Hp, He. fold emax in He.
  destruct (representable_inv d x Hx) as [[sx ->]|(sx & mx & ex & -> & Hcx & Hbx)]; [done|].
  cbn [sign_bit] in Hsign. subst sx. cbn [SFsqrt]. fold prec emax in Hcx, Hbx |- *.
  destruct (sqrt_core_spec (Z.pos mx) ex ltac:(lia)) as [l Hcore]. cbv zeta in Hcore.
  rewrite Hcore.
  set (k := Z.div2 (Zdigits2 (Z.pos mx) + ex + 1)) in *.
  set (e' := Z.min (fexp prec emax k) (Z.div2 ex)) in *.
  set (s := ex - 2 * e') in *.
  pose proof (Z.div2_odd ex) as Hodd.
  assert (Hs : 0 <= s) by (unfold s, e'; destruct (Z.odd ex); cbn [Z.b2z] in Hodd; lia).
  set (m' := Z.pos mx * 2 ^ s).
  assert (HP : 0 < 2 ^ s) by (apply Z.pow_pos_nonneg; lia).
  assert (Hm' : 0 < m') by (unfold m'; lia).
  pose proof (Zdigits2_shift (Z.pos mx) s ltac:(lia) Hs) as Hdm. fold m' in Hdm.
  pose proof (Zdigits2_bounds m' Hm') as [Hlo Hhi]. rewrite Hdm in Hlo, Hhi.
  pose proof (Zdigits2_pos (Z.pos mx) ltac:(lia)) as Hdx.
  set (q := Z.sqrt m').
  pose proof (Z.sqrt_nonneg m') as Hq0. fold q in Hq0.
  (* the digits of the root: half of those of the operand *)
  set (j := Z.div2 (Zdigits2 (Z.pos mx) + s + 1)).
  pose proof (Z.div2_odd (Zdigits2 (Z.pos mx) + s + 1)) as Hj. fold j in Hj.
  assert (Hj1 : 1 <= j) by (destruct (Z.odd (Zdigits2 (Z.pos mx) + s + 1)); cbn [Z.b2z] in Hj; lia).
  assert (Hjk : j + e' = k).
  { unfold k. pose proof (Z.div2_odd (Zdigits2 (Z.pos mx) + ex + 1)) as Hk.
    assert (Hpar : Z.odd (Zdigits2 (Z.pos mx) + ex + 1) = Z.odd (Zdigits2 (Z.pos mx) + s + 1)).
    { replace (Zdigits2 (Z.pos mx) + ex + 1) with (Zdigits2 (Z.pos mx) + s + 1 + 2 * e')
        by (unfold s; lia).
      rewrite Z.odd_add_mul_2. done. }
    rewrite Hpar in Hk.
    destruct (Z.odd (Zdigits2 (Z.pos mx) + s + 1)); cbn [Z.b2z] in Hj, Hk; unfold s in *; lia. }
  assert (Hql : 2 ^ (j - 1) <= q).
  { apply Z.sqrt_le_square; [lia|apply Z.pow_nonneg; lia|].
    rewrite <- Z.pow_add_r by lia.
    assert (2 ^ (j - 1 + (j - 1)) <= 2 ^ (Zdigits2 (Z.pos mx) + s - 1)).
    { apply Z.pow_le_mono_r; [lia|].
      destruct (Z.odd (Zdigits2 (Z.pos mx) + s + 1)); cbn [Z.b2z] in Hj; lia. }
    lia. }
  assert (Hqh : q < 2 ^ j).
  { apply Z.sqrt_lt_square; [lia|apply Z.pow_nonneg; lia|].
    rewrite <- Z.pow_add_r by lia.
    assert (2 ^ (Zdigits2 (Z.pos mx) + s) <= 2 ^ (j + j)).
    { apply Z.pow_le_mono_r; [lia|].
      destruct (Z.odd (Zdigits2 (Z.pos mx) + s + 1)); cbn [Z.b2z] in Hj; lia. }
    lia. }
  assert (Hq1 : 0 < q).
  { assert (0 < 2 ^ (j - 1)) by (apply Z.pow_pos_nonneg; lia). lia. }
  assert (Hdq : Zdigits2 q = j) by (apply Zdigits2_unique; [done|lia]).
  assert (Hpre : e' <= fexp prec emax (Zdigits2 q + e')).
  { rewrite Hdq, Hjk. unfold e'. lia. }
  destruct (round_aux_representable d false q e' l Hq0 Hpre) as [Hr _]; [|exact Hr].
  (* the root is far below the top of the range *)
  assert (Hdx' : Zdigits2 (Z.pos mx) <= prec) by (unfold fexp in Hcx; lia).
  assert (Hk : k <= emax - 1).
  { unfold k. pose proof (Z.div2_odd (Zdigits2 (Z.pos mx) + ex + 1)) as Hk.
    destruct (Z.odd (Zdigits2 (Z.pos mx) + ex + 1)); cbn [Z.b2z] in Hk; lia. }
  apply inject_Z_lt in Hqh. rewrite Qp2_Z in Hqh by lia.
  pose proof (Qpower_2_pos e') as Hpe'.
  assert (inject_Z q * 2 ^ e' <= 2 ^ j * 2 ^ e')%Q by (apply Qmult_le_r'; lra).
  rewrite <- Qp2_add, Hjk in H.
  assert (2 ^ k <= half_range d)%Q by (by apply Qp2_le). lra.
Qed.

End SquareRoot.

(** ** Sums of floats *)

Lemma exact_sum_app (l1 l2 : list float) :
  exact_sum (l1 ++ l2) == (exact_sum l1 + exact_sum l2)%Q.
Proof. induction l1 as [|x l1 IH]; simpl; [ring|]. rewrite IH. ring. Qed.

Lemma abs_sum_app (l1 l2 : list float) :
  abs_sum (l1 ++ l2) == (abs_sum l1 + abs_sum l2)%Q.
Proof. induction l1 as [|x l1 IH]; simpl; [ring|]. rewrite IH. ring. Qed.

Lemma abs_sum_nonneg (l : list float) : (0 <= abs_sum l)%Q.
Proof.
  induction l as [|x l IH]; simpl; [lra|]. pose proof (Qabs_nonneg (Float.to_Q x)). lra.
Qed.

Lemma abs_sum_bound (l : list float) (A : Q) :
  Forall (fun x => (Qabs (Float.to_Q x) <= A)%Q) l ->
  (abs_sum l <= inject_Z (Z.of_nat (length l)) * A)%Q.
Proof.
  induction 1 as [|x l Hx Hl IH]; simpl abs_sum; simpl length.
  - change (inject_Z (Z.of_nat 0)) with 0%Q. lra.
  - rewrite Nat2Z.inj_succ. unfold Z.succ. rewrite inject_Z_plus.
    change (inject_Z 1) with 1%Q. lra.
Qed.

Lemma inject_nat_S (k : nat) : inject_Z (Z.of_nat (S k)) == (inject_Z (Z.of_nat k) + 1)%Q.
Proof. rewrite Nat2Z.inj_succ. unfold Z.succ. rewrite inject_Z_plus. reflexivity. Qed.

Lemma inject_nat_add (j k : nat) :
  inject_Z (Z.of_nat (j + k)) == (inject_Z (Z.of_nat j) + inject_Z (Z.of_nat k))%Q.
Proof. rewrite Nat2Z.inj_add, inject_Z_plus. reflexivity. Qed.

Lemma inject_nat_nonneg (k : nat) : (0 <= inject_Z (Z.of_nat k))%Q.
Proof. change 0%Q with (inject_Z 0). apply inject_Z_le. lia. Qed.

Lemma inject_nat_le (j k : nat) : j <= k -> (inject_Z (Z.of_nat j) <= inject_Z (Z.of_nat k))%Q.
Proof. intros. apply inject_Z_le. lia. Qed.

Section Sums.
Variable d : dtype.

Lemma summed_magnitude (k : nat) (X T : Q) (s : float) :
  summed d k X T s -> (Qabs X <= T)%Q.
Proof.
  induction 1 as [x Hx|k1 k2 S1 T1 S2 T2 s1 s2 _ IH1 _ IH2|k X T X' T' s HS HT _ IH].
  - lra.
  - pose proof (Qabs_triangle S1 S2). lra.
  - by rewrite <- HS, <- HT.
Qed.

(** The error of a sum of [k] additions, all of whose partial sums stay
    within [M]: [k] times the error of one rounding at magnitude [M]. *)
Lemma summed_bound (k : nat) (X T : Q) (s : float) (M : Q) :
  summed d k X T s ->
  (0 <= M)%Q -> (M <= half_range d)%Q ->
  (T + inject_Z (Z.of_nat k) * (spacing d * M + tiny d) <= M)%Q ->
  representable d s = true /\
  (Qabs (Float.to_Q s - X) <= inject_Z (Z.of_nat k) * (spacing d * M + tiny d))%Q.
Proof.
  intros Hsum HM0 HM. pose proof (spacing_pos d) as Hsp. pose proof (tiny_pos d) as Hti.
  assert (He0 : (0 < spacing d * M + tiny d)%Q).
  { assert (0 <= spacing d * M)%Q by (apply Qmult_le_0_compat; lra). lra. }
  set (eps := (spacing d * M + tiny d)%Q) in *.
  induction Hsum as [x Hx|k1 k2 S1 T1 S2 T2 s1 s2 H1 IH1 H2 IH2|k X T X' T' s HS HT _ IH];
    intros Hroom.
  - split; [done|]. assert (Hz : (Float.to_Q x - Float.to_Q x == 0)%Q) by ring.
    rewrite Hz. change (Qabs 0) with 0%Q. change (inject_Z (Z.of_nat 0)) with 0%Q. lra.
  - pose proof (summed_magnitude _ _ _ _ H1) as Hm1.
    pose proof (summed_magnitude _ _ _ _ H2) as Hm2.
    pose proof (Qabs_nonneg S1) as Hn1. pose proof (Qabs_nonneg S2) as Hn2.
    rewrite inject_nat_S, inject_nat_add in Hroom |- *.
    pose proof (inject_nat_nonneg k1) as Hk1. pose proof (inject_nat_nonneg k2) as Hk2.
    set (K1 := inject_Z (Z.of_nat k1)) in *. set (K2 := inject_Z (Z.of_nat k2)) in *.
    assert (HK1 : (0 <= K1 * eps)%Q) by (apply Qmult_le_0_compat; lra).
    assert (HK2 : (0 <= K2 * eps)%Q) by (apply Qmult_le_0_compat; lra).
    assert (Hexp : ((K1 + K2 + 1) * eps == K1 * eps + K2 * eps + eps)%Q) by ring.
    rewrite Hexp in Hroom |- *.
    destruct IH1 as [Hr1 He1]; [lra|]. destruct IH2 as [Hr2 He2]; [lra|].
    apply Qabs_le_inv in He1 as [He1 He1'], He2 as [He2 He2'].
    apply Qabs_le_inv in Hm1 as [Hm1 Hm1'], Hm2 as [Hm2 Hm2'].
    assert (Hmag : (Qabs (Float.to_Q s1 + Float.to_Q s2) <= M)%Q) by (apply Qabs_le_of; lra).
    destruct (add_value d s1 s2 Hr1 Hr2) as [Hr Herr]; [lra|].
    split; [done|].
    pose proof (rounding_error_mono d _ _ Hmag) as Hmono. fold eps in Hmono.
    apply Qabs_le_inv in Herr as [Herr Herr'].
    apply Qabs_le_of; lra.
  - rewrite <- HS. apply IH. by rewrite HT.
Qed.

Lemma summed_all_leaves (a : list float) :
  Forall (fun x => representable d x = true) a ->
  summed_all d a 0 (exact_sum a) (abs_sum a).
Proof.
  induction 1 as [|x a Hx Ha IH]; [constructor|].
  simpl exact_sum. simpl abs_sum.
  apply (summed_all_cons d x a 0 0); [by constructor|done].
Qed.

Lemma sum_loop_summed (a : list float) (acc : float) (k : nat) (X T : Q) :
  summed d k X T acc ->
  Forall (fun x => representable d x = true) a ->
  summed d (k + length a) (X + exact_sum a) (T + abs_sum a) (np.sum_loop d acc a).
Proof.
  intros Hacc Ha. revert acc k X T Hacc.
  induction Ha as [|x a Hx Ha IH]; intros acc k X T Hacc.
  - simpl. rewrite Nat.add_0_r. eapply summed_eq; [| |exact Hacc]; ring.
  - unfold np.sum_loop. cbn [fold_left]. fold (np.sum_loop d (Float.add d acc x) a).
    eapply summed_eq; [| |].
    3: { replace (k + length (x :: a)) with (S (k + 0) + length a) by (simpl; lia).
         apply IH. apply summed_add; [exact Hacc|by constructor]. }
    + simpl. ring.
    + simpl. ring.
Qed.

Lemma zip_with_summed (r c : list float) (K : nat) (X T : Q) :
  summed_all d r K X T ->
  Forall (fun x => representable d x = true) c ->
  length c = length r ->
  summed_all d (zip_with (Float.add d) r c) (K + length r)
    (X + exact_sum c) (T + abs_sum c).
Proof.
  intros Hr. revert c.
  induction Hr as [|s rs k K X T X' T' Hs Hrs IH|rs K X T X' T' HS HT Hrs IH];
    intros c Hc Hlen.
  - destruct c; [|done]. simpl. eapply summed_all_eq; [| |constructor]; ring.
  - destruct c as [|x c]; [done|]. apply Forall_cons in Hc as [Hx Hc].
    cbn [zip_with length]. injection Hlen as Hlen.
    eapply summed_all_eq; [| |].
    3: { replace (k + K + S (length rs)) with (S (k + 0) + (K + length rs)) by lia.
         apply summed_all_cons; [|by apply IH].
         apply summed_add; [exact Hs|by constructor]. }
    + simpl. ring.
    + simpl. ring.
  - eapply summed_all_eq; [| |by apply IH].
    + by rewrite HS.
    + by rewrite HT.
Qed.

Lemma summed_all_length_8 (r : list float) (K : nat) (X T : Q) :
  summed_all d r K X T -> length r = 8 ->
  let r_ i := default Float.pos_zero (r !! i) in
  summed d (K + 7) X T
    (Float.add d (Float.add d (Float.add d (r_ 0) (r_ 1)) (Float.add d (r_ 2) (r_ 3)))
                 (Float.add d (Float.add d (r_ 4) (r_ 5)) (Float.add d (r_ 6) (r_ 7)))).
Proof.
  intros Hr Hlen r_.
  assert (Hgen : forall rs K X T, summed_all d rs K X T ->
            match rs with
            | [] => K = 0 /\ X == 0 /\ T == 0
            | s :: rs' => exists k K' S1 T1 S2 T2,
                summed d k S1 T1 s /\ summed_all d rs' K' S2 T2 /\
                K = k + K' /\ X == S1 + S2 /\ T == T1 + T2
            end).
  { clear. intros rs K X T Hrs.
    induction Hrs as [|s rs k K X T X' T' Hs Hrs IH|rs K X T X' T' HS HT Hrs IH].
    - repeat split; reflexivity.
    - exists k, K, X, T, X', T'. repeat split; done || reflexivity.
    - destruct rs as [|s rs].
      + destruct IH as (? & HS0 & HT0). repeat split; [done|by rewrite <- HS|by rewrite <- HT].
      + destruct IH as (k & K' & S1 & T1 & S2 & T2 & ? & ? & ? & HS0 & HT0).
        exists k, K', S1, T1, S2, T2. repeat split; [done|done|done|by rewrite <- HS|by rewrite <- HT]. }
  destruct r as [|r0 [|r1 [|r2 [|r3 [|r4 [|r5 [|r6 [|r7 [|]]]]]]]]]; try done.
  subst r_. cbn [lookup list_lookup default].
  apply Hgen in Hr as (k0 & K0 & S0 & T0 & S0' & T0' & H0 & Hr & -> & HS0 & HT0).
  apply Hgen in Hr as (k1 & K1 & S1 & T1 & S1' & T1' & H1 & Hr & -> & HS1 & HT1).
  apply Hgen in Hr as (k2 & K2 & S2 & T2 & S2' & T2' & H2 & Hr & -> & HS2 & HT2).
  apply Hgen in Hr as (k3 & K3 & S3 & T3 & S3' & T3' & H3 & Hr & -> & HS3 & HT3).
  apply Hgen in Hr as (k4 & K4 & S4 & T4 & S4' & T4' & H4 & Hr & -> & HS4 & HT4).
  apply Hgen in Hr as (k5 & K5 & S5 & T5 & S5' & T5' & H5 & Hr & -> & HS5 & HT5).
  apply Hgen in Hr as (k6 & K6 & S6 & T6 & S6' & T6' & H6 & Hr & -> & HS6 & HT6).
  apply Hgen in Hr as (k7 & K7 & S7 & T7 & S7' & T7' & H7 & Hr & -> & HS7 & HT7).
  apply Hgen in Hr as (-> & HS8 & HT8).
  pose proof (summed_add d _ _ _ _ _ _ _ _
                (summed_add d _ _ _ _ _ _ _ _
                   (summed_add d _ _ _ _ _ _ _ _ H0 H1) (summed_add d _ _ _ _ _ _ _ _ H2 H3))
                (summed_add d _ _ _ _ _ _ _ _
                   (summed_add d _ _ _ _ _ _ _ _ H4 H5) (summed_add d _ _ _ _ _ _ _ _ H6 H7)))
    as Hall.
  eapply summed_eq; [| |].
  3: { replace (k0 + (k1 + (k2 + (k3 + (k4 + (k5 + (k6 + (k7 + 0))))))) + 7)
         with (S (S (S (k0 + k1) + S (k2 + k3)) + S (S (k4 + k5) + S (k6 + k7)))) by lia.
       exact Hall. }
  - rewrite HS0, HS1, HS2, HS3, HS4, HS5, HS6, HS7, HS8. ring.
  - rewrite HT0, HT1, HT2, HT3, HT4, HT5, HT6, HT7, HT8. ring.
Qed.

End Sums.

(** ** The sum NumPy computes *)

Lemma exact_sum_take_drop (a : list float) (n : nat) :
  exact_sum a == (exact_sum (take n a) + exact_sum (drop n a))%Q.
Proof. rewrite <- exact_sum_app, take_drop. reflexivity. Qed.

Lemma abs_sum_take_drop (a : list float) (n : nat) :
  abs_sum a == (abs_sum (take n a) + abs_sum (drop n a))%Q.
Proof. rewrite <- abs_sum_app, take_drop. reflexivity. Qed.

Section PairwiseSums.
Variable d : dtype.

Lemma unrolled_summed (n : nat) (r a : list float) (K : nat) (X T : Q) :
  length r = 8 -> 8 * n <= length a ->
  Forall (fun x => representable d x = true) a ->
  summed_all d r K X T ->
  length (np.unrolled d r a n) = 8 /\
  summed_all d (np.unrolled d r a n) (K + 8 * n)
    (X + (exact_sum a - exact_sum (drop (8 * n) a)))
    (T + (abs_sum a - abs_sum (drop (8 * n) a))).
Proof.
  revert r a K X T. induction n as [|n IH]; intros r a K X T Hlen Hn Ha Hr.
  - cbn [np.unrolled]. split; [done|]. rewrite Nat.mul_0_r, Nat.add_0_r, drop_0.
    eapply summed_all_eq; [| |exact Hr]; ring.
  - cbn [np.unrolled].
    assert (Hlen8 : length (take 8 a) = length r) by (rewrite length_take; lia).
    pose proof (zip_with_summed d r (take 8 a) K X T Hr ltac:(by apply Forall_take) Hlen8) as Hz.
    assert (Hl8 : length (zip_with (Float.add d) r (take 8 a)) = 8)
      by (rewrite length_zip_with_l_eq by done; done).
    assert (Hl8' : 8 * n <= length (drop 8 a)) by (rewrite length_drop; lia).
    destruct (IH (zip_with (Float.add d) r (take 8 a)) (drop 8 a) _ _ _ Hl8 Hl8'
                ltac:(by apply Forall_drop) Hz) as [Hl Hs].
    split; [done|]. rewrite drop_drop in Hs.
    replace (8 + 8 * n) with (8 * S n) in Hs by lia.
    replace (K + length r + 8 * n) with (K + 8 * S n) in Hs by lia.
    eapply summed_all_eq; [| |exact Hs].
    + rewrite (exact_sum_take_drop a 8). ring.
    + rewrite (abs_sum_take_drop a 8). ring.
Qed.

Lemma sum_block_summed (a : list float) :
  8 <= length a ->
  Forall (fun x => representable d x = true) a ->
  summed d (length a - 1) (exact_sum a) (abs_sum a) (np.sum_block d a).
Proof.
  intros Hn Ha. unfold np.sum_block. cbv zeta.
  set (n := length a) in *.
  pose proof (Nat.div_mod_eq n 8) as Hdm.
  pose proof (Nat.mod_upper_bound n 8 ltac:(lia)) as Hmod.
  assert (Hdiv : 1 <= n / 8) by (apply Nat.div_le_lower_bound; lia).
  destruct (unrolled_summed (n / 8 - 1) (take 8 a) (drop 8 a) 0
              (exact_sum (take 8 a)) (abs_sum (take 8 a))) as [Hlen Hr].
  { rewrite length_take. fold n. lia. }
  { rewrite length_drop. fold n. lia. }
  { by apply Forall_drop. }
  { apply summed_all_leaves. by apply Forall_take. }
  pose proof (summed_all_length_8 d _ _ _ _ Hr Hlen) as Hres. cbv zeta in Hres.
  pose proof (sum_loop_summed d (drop (n - n mod 8) a) _ _ _ _ Hres
                ltac:(by apply Forall_drop)) as Hloop.
  rewrite drop_drop in Hloop.
  replace (8 + 8 * (n / 8 - 1)) with (n - n mod 8) in Hloop by lia.
  rewrite length_drop in Hloop. fold n in Hloop.
  replace (0 + 8 * (n / 8 - 1) + 7 + (n - (n - n mod 8))) with (n - 1) in Hloop by lia.
  eapply summed_eq; [| |exact Hloop].
  - rewrite (exact_sum_take_drop a 8). ring.
  - rewrite (abs_sum_take_drop a 8). ring.
Qed.

Lemma pairwise_sum_summed (fuel : nat) (a : list float) :
  Forall (fun x => representable d x = true) a ->
  exists k,
    k <= length a /\ (8 <= length a -> k < length a) /\
    summed d k (exact_sum a) (abs_sum a) (np.pairwise_sum d fuel a).
Proof.
  revert a. induction fuel as [|fuel IH]; intros a Ha.
  - cbn [np.pairwise_sum]. destruct (Nat.ltb_spec (length a) 8) as [Hlt|Hge].
    + exists (length a). split; [lia|]. split; [lia|].
      pose proof (sum_loop_summed d a Float.neg_zero 0 _ _ (summed_leaf d Float.neg_zero eq_refl) Ha) as Hs.
      eapply summed_eq; [| |exact Hs].
      * change (Float.to_Q Float.neg_zero) with 0%Q. ring.
      * change (Qabs (Float.to_Q Float.neg_zero)) with 0%Q. ring.
    + exists (length a - 1). split; [lia|]. split; [lia|].
      destruct (length a <=? 128); by apply sum_block_summed.
  - cbn [np.pairwise_sum]. destruct (Nat.ltb_spec (length a) 8) as [Hlt|Hge].
    + exists (length a). split; [lia|]. split; [lia|].
      pose proof (sum_loop_summed d a Float.neg_zero 0 _ _ (summed_leaf d Float.neg_zero eq_refl) Ha) as Hs.
      eapply summed_eq; [| |exact Hs].
      * change (Float.to_Q Float.neg_zero) with 0%Q. ring.
      * change (Qabs (Float.to_Q Float.neg_zero)) with 0%Q. ring.
    + destruct (Nat.leb_spec (length a) 128) as [Hle|Hgt].
      * exists (length a - 1). split; [lia|]. split; [lia|]. by apply sum_block_summed.
      * set (n := length a) in *. set (n2 := n / 2 - (n / 2) mod 8).
        pose proof (Nat.div_mod_eq n 2) as Hdm.
        pose proof (Nat.mod_upper_bound n 2 ltac:(lia)) as Hm2.
        pose proof (Nat.mod_upper_bound (n / 2) 8 ltac:(lia)) as Hm8.
        assert (Hn2 : 8 <= n2 /\ n2 + 8 <= n) by (unfold n2; lia).
        destruct (IH (take n2 a) ltac:(by apply Forall_take)) as (k1 & _ & Hk1 & H1).
        destruct (IH (drop n2 a) ltac:(by apply Forall_drop)) as (k2 & _ & Hk2 & H2).
        rewrite length_take in Hk1. rewrite length_drop in Hk2. fold n in Hk1, Hk2.
        exists (S (k1 + k2)). split; [lia|]. split; [lia|].
        eapply summed_eq; [| |exact (summed_add d _ _ _ _ _ _ _ _ H1 H2)].
        -- by rewrite <- exact_sum_take_drop.
        -- by rewrite <- abs_sum_take_drop.
Qed.

Lemma add_reduce_summed (a : list float) :
  Forall (fun x => representable d x = true) a ->
  exists k,
    k <= length a + 1 /\
    summed d k (exact_sum a) (abs_sum a) (np.add_reduce d a).
Proof.
  intros Ha. destruct (pairwise_sum_summed (length a) a Ha) as (k & Hk & _ & Hs).
  exists (S (0 + k)). split; [lia|]. unfold np.add_reduce.
  eapply summed_eq; [| |exact (summed_add d _ _ _ _ _ _ _ _ (summed_leaf d Float.pos_zero eq_refl) Hs)].
  - change (Float.to_Q Float.pos_zero) with 0%Q. ring.
  - change (Qabs (Float.to_Q Float.pos_zero)) with 0%Q. ring.
Qed.

(** The sum NumPy computes of [n] numbers of magnitude [A] at most: all
    partial sums stay within [M = 2 (n A + (n+1) tiny)], and the result is
    off the exact sum by [n+1] roundings at that magnitude at most. *)
Lemma add_reduce_value (a : list float) (A : Q) :
  Forall (fun x => representable d x = true /\ (Qabs (Float.to_Q x) <= A)%Q) a ->
  let n := inject_Z (Z.of_nat (length a)) in
  let M := (2 * (n * A + (n + 1) * tiny d))%Q in
  (0 <= A)%Q ->
  ((n + 1) * spacing d <= 1 # 2)%Q ->
  (M <= half_range d)%Q ->
  representable d (np.add_reduce d a) = true /\
  (Qabs (Float.to_Q (np.add_reduce d a) - exact_sum a) <= (n + 1) * (spacing d * M + tiny d))%Q /\
  (Qabs (Float.to_Q (np.add_reduce d a)) <= M)%Q.
Proof.
  intros Ha n M HA Hn HM.
  assert (Hrep : Forall (fun x => representable d x = true) a)
    by (eapply Forall_impl; [exact Ha|]; by intros x [? _]).
  assert (Hmag : Forall (fun x => (Qabs (Float.to_Q x) <= A)%Q) a)
    by (eapply Forall_impl; [exact Ha|]; by intros x [_ ?]).
  destruct (add_reduce_summed a Hrep) as (k & Hk & Hs).
  pose proof (abs_sum_bound a A Hmag) as HT. fold n in HT.
  pose proof (abs_sum_nonneg a) as HT0.
  pose proof (summed_magnitude d _ _ _ _ Hs) as HX.
  pose proof (inject_nat_nonneg (length a)) as Hn0. fold n in Hn0.
  pose proof (inject_nat_nonneg k) as Hk0.
  assert (HkQ : (inject_Z (Z.of_nat k) <= n + 1)%Q).
  { apply inject_nat_le in Hk. rewrite inject_nat_add in Hk. exact Hk. }
  pose proof (spacing_pos d) as Hsp. pose proof (tiny_pos d) as Hti.
  assert (HnA : (0 <= n * A)%Q) by (apply Qmult_le_0_compat; lra).
  assert (Hnt : (0 <= (n + 1) * tiny d)%Q) by (apply Qmult_le_0_compat; lra).
  assert (HM0 : (0 <= M)%Q) by (unfold M; lra).
  assert (HsM : (0 <= spacing d * M)%Q) by (apply Qmult_le_0_compat; lra).
  set (eps := (spacing d * M + tiny d)%Q) in *.
  assert (Hke : (inject_Z (Z.of_nat k) * eps <= (n + 1) * eps)%Q)
    by (apply Qmult_le_r'; unfold eps; lra).
  assert (Hhalf : ((n + 1) * spacing d * M <= (1 # 2) * M)%Q) by (by apply Qmult_le_r').
  assert (Hroom : ((n + 1) * eps <= M - n * A)%Q).
  { unfold eps. assert (Hx : ((n + 1) * (spacing d * M + tiny d) ==
                             (n + 1) * spacing d * M + (n + 1) * tiny d)%Q) by ring.
    rewrite Hx. unfold M in *. lra. }
  destruct (summed_bound d k _ _ _ M Hs HM0 HM) as [Hr Herr].
  { fold eps. lra. }
  fold eps in Herr. split; [done|]. split; [lra|].
  apply Qabs_le_inv in Herr as [He1 He2]. apply Qabs_le_inv in HX as [HX1 HX2].
  apply Qabs_le_of; lra.
Qed.

End PairwiseSums.

(** ** [np.mean] *)

Lemma spacing_le_half (d : dtype) : (spacing d <= 1 # 2)%Q.
Proof. destruct d; vm_compute; discriminate. Qed.

Lemma spacing_float64_le (d : dtype) : (spacing float64 <= spacing d)%Q.
Proof. destruct d; vm_compute; discriminate. Qed.

Lemma tiny_float64_le (d : dtype) : (tiny float64 <= tiny d)%Q.
Proof. unfold tiny. apply Qp2_le. destruct d; vm_compute; discriminate. Qed.

Lemma half_range_le_float64 (d : dtype) : (half_range d <= half_range float64)%Q.
Proof. unfold half_range. apply Qp2_le. destruct d; vm_compute; discriminate. Qed.

Lemma count_small (d : dtype) (n : nat) :
  ((inject_Z (Z.of_nat n) + 1) * spacing d <= 1 # 2)%Q -> (Z.of_nat n < 2 ^ 51)%Z.
Proof.
  intros Hn. pose proof (spacing_float64_le d) as Hsp.
  pose proof (inject_nat_nonneg n) as Hn0.
  assert (H64 : ((inject_Z (Z.of_nat n) + 1) * spacing float64 <= 1 # 2)%Q).
  { eapply Qle_trans; [|exact Hn]. rewrite !(Qmult_comm (inject_Z (Z.of_nat n) + 1)).
    apply Qmult_le_r'; lra. }
  change (spacing float64) with (1 # 4503599627370496)%Q in H64.
  assert (inject_Z (Z.of_nat n) + 1 <= inject_Z (2 ^ 51))%Q.
  { change (inject_Z (2 ^ 51)) with (2251799813685248 # 1)%Q. lra. }
  change 1%Q with (inject_Z 1) in H. rewrite <- inject_Z_plus, <- Zle_Qle in H. lia.
Qed.

Lemma Qabs_div_nat (x : Q) (n : nat) :
  Qabs (x / inject_Z (Z.of_nat n)) == Qabs x / inject_Z (Z.of_nat n).
Proof.
  unfold Qdiv. rewrite Qabs_Qmult, Qabs_Qinv.
  rewrite (Qabs_pos (inject_Z (Z.of_nat n))) by apply inject_nat_nonneg. reflexivity.
Qed.

Section Means.
Variable d : dtype.

(** The quotient of a reduction by the count: correct within four
    roundings at the magnitude of the quotient. *)
Lemma div_count_value (ret : float) (n : nat) (B : Q) :
  representable d ret = true ->
  1 <= n -> (Z.of_nat n < 2 ^ 53)%Z ->
  (Qabs (Float.to_Q ret / inject_Z (Z.of_nat n)) <= B)%Q ->
  (2 * (B + tiny d) <= half_range d)%Q ->
  representable d (np.div_count d ret n) = true /\
  (Qabs (Float.to_Q (np.div_count d ret n) - Float.to_Q ret / inject_Z (Z.of_nat n))
     <= 4 * (spacing d * B + tiny d))%Q.
Proof.
  intros Hret Hn1 Hn HB Hrange. unfold np.div_count.
  destruct (round_to_exact float64 d ret) as [Hr64 Hq64]; [by destruct d|by destruct d|done|].
  destruct (of_Z_exact float64 (Z.of_nat n)) as [Hn64 Hqn]; [cbn [Float.prec]; lia|].
  set (r64 := Float.round_to float64 ret) in *.
  set (n64 := Float.of_Z float64 (Z.of_nat n)) in *.
  set (N := inject_Z (Z.of_nat n)) in *.
  assert (HN : (1 <= N)%Q) by (change 1%Q with (inject_Z 1); apply inject_Z_le; lia).
  assert (Hn0 : ~ Float.to_Q n64 == 0) by (rewrite Hqn; lra).
  assert (Hquot : (Float.to_Q r64 / Float.to_Q n64 == Float.to_Q ret / N)%Q)
    by (by rewrite Hq64, Hqn).
  pose proof (spacing_pos d) as Hsp. pose proof (tiny_pos d) as Hti.
  pose proof (spacing_pos float64) as Hsp64. pose proof (tiny_pos float64) as Hti64.
  pose proof (spacing_le_half d) as Hsph. pose proof (spacing_float64_le d) as Hsple.
  pose proof (tiny_float64_le d) as Htile. pose proof (half_range_le_float64 d) as Hhr.
  pose proof (Qabs_nonneg (Float.to_Q ret / N)) as HB0.
  destruct (div_value float64 r64 n64 Hr64 Hn64 Hn0) as [Hq Herr].
  { rewrite Hquot. lra. }
  rewrite Hquot in Herr. unfold rounding_error in Herr.
  set (q := Float.div float64 r64 n64) in *.
  set (V := (Float.to_Q ret / N)%Q) in *.
  assert (H1 : (spacing float64 * Qabs V <= spacing d * B)%Q).
  { eapply Qle_trans; [apply Qmult_le_r'; [lra|exact Hsple]|].
    rewrite !(Qmult_comm (spacing d)). apply Qmult_le_r'; lra. }
  assert (H2 : (spacing d * B <= (1 # 2) * B)%Q) by (apply Qmult_le_r'; lra).
  apply Qabs_le_inv in Herr as [He1 He2].
  assert (Hqabs : (Qabs (Float.to_Q q) <= 2 * (B + tiny d))%Q).
  { apply Qabs_le_inv in HB as [HB1 HB2]. apply Qabs_le_of; lra. }
  destruct (round_to_value d q (representable_finite _ _ Hq)) as [Hm Herr']; [lra|].
  split; [exact Hm|]. unfold rounding_error in Herr'.
  assert (H3 : (spacing d * Qabs (Float.to_Q q) <= spacing d * (2 * (B + tiny d)))%Q).
  { rewrite !(Qmult_comm (spacing d)). apply Qmult_le_r'; lra. }
  assert (H4 : (spacing d * (2 * (B + tiny d)) == 2 * (spacing d * B) + 2 * (spacing d * tiny d))%Q)
    by ring.
  assert (H5 : (spacing d * tiny d <= (1 # 2) * tiny d)%Q) by (apply Qmult_le_r'; lra).
  apply Qabs_le_inv in Herr' as [He1' He2'].
  set (sB := (spacing d * B)%Q) in *. set (st := (spacing d * tiny d)%Q) in *.
  set (sq := (spacing d * Qabs (Float.to_Q q))%Q) in *.
  set (sV := (spacing float64 * Qabs V)%Q) in *.
  set (x := (spacing d * (2 * (B + tiny d)))%Q) in *.
  apply Qabs_le_of; lra.
Qed.

(** [np.mean] of numbers of the format is their average up to the
    roundings of the sum and of the division. *)
Lemma mean_value (a : list float) (A : Q) :
  a <> [] ->
  Forall (fun x => representable d x = true /\ (Qabs (Float.to_Q x) <= A)%Q) a ->
  mean_in_range d (length a) A ->
  representable d (np.mean d a) = true /\
  (Qabs (Float.to_Q (np.mean d a) - exact_sum a / inject_Z (Z.of_nat (length a)))
     <= mean_error d (length a) A)%Q.
Proof.
  intros Hne Ha (HA & Hcount & Hrange). unfold np.mean, mean_error.
  assert (Hlen : 1 <= length a) by (destruct a; [done|simpl; lia]).
  set (n := inject_Z (Z.of_nat (length a))) in *.
  assert (Hn1 : (1 <= n)%Q) by (change 1%Q with (inject_Z 1); apply inject_Z_le; lia).
  pose proof (spacing_pos d) as Hsp. pose proof (tiny_pos d) as Hti.
  assert (HnA : (A <= n * A)%Q).
  { rewrite <- (Qmult_1_l A) at 1. apply Qmult_le_r'; lra. }
  assert (Hnt : (tiny d <= n * tiny d)%Q).
  { rewrite <- (Qmult_1_l (tiny d)) at 1. apply Qmult_le_r'; lra. }
  assert (Hexp : (4 * n * (A + 3 * tiny d) == 4 * (n * A) + 12 * (n * tiny d))%Q) by ring.
  rewrite Hexp in Hrange.
  set (B := (2 * A + 4 * tiny d)%Q).
  destruct (add_reduce_value d a A Ha HA Hcount) as (Hr & Herr & Hmag).
  { fold n. assert (Hx : (2 * (n * A + (n + 1) * tiny d) == 2 * (n * A) + 2 * (n * tiny d) + 2 * tiny d)%Q)
      by ring. rewrite Hx. lra. }
  fold n in Herr, Hmag. set (M := (2 * (n * A + (n + 1) * tiny d))%Q) in *.
  set (R := Float.to_Q (np.add_reduce d a)) in *.
  assert (HMB : (M <= n * B)%Q).
  { unfold M, B.
    assert (Hx : (2 * (n * A + (n + 1) * tiny d) == 2 * (n * A) + 2 * (n * tiny d) + 2 * tiny d)%Q)
      by ring.
    assert (Hy : (n * (2 * A + 4 * tiny d) == 2 * (n * A) + 4 * (n * tiny d))%Q) by ring.
    rewrite Hx, Hy. lra. }
  assert (HRn : (Qabs (R / n) <= B)%Q).
  { unfold n. rewrite Qabs_div_nat. fold n. apply Qle_shift_div_r; [lra|].
    rewrite Qmult_comm. lra. }
  destruct (div_count_value (np.add_reduce d a) (length a) B Hr Hlen) as [Hm Hdiv].
  { pose proof (count_small d (length a) Hcount). lia. }
  { exact HRn. }
  { unfold B. lra. }
  split; [exact Hm|]. fold n R in Hdiv.
  set (m := Float.to_Q (np.div_count d (np.add_reduce d a) (length a))) in *.
  (* the error of the sum, divided by the count *)
  assert (HM0 : (0 <= M)%Q) by (pose proof (Qabs_nonneg R); lra).
  assert (Hsum : (Qabs (R / n - exact_sum a / n) <= (n + 1) * spacing d * B + 2 * tiny d)%Q).
  { assert (Hx : (R / n - exact_sum a / n == (R - exact_sum a) / n)%Q) by (field; lra).
    rewrite Hx. unfold n. rewrite Qabs_div_nat. fold n.
    apply Qle_shift_div_r; [lra|].
    eapply Qle_trans; [exact Herr|].
    assert (H1 : ((n + 1) * spacing d * M <= (n + 1) * spacing d * (n * B))%Q).
    { rewrite !(Qmult_comm ((n + 1) * spacing d)). apply Qmult_le_r'; [|done].
      apply Qmult_le_0_compat; lra. }
    assert (Hy : ((n + 1) * (spacing d * M + tiny d) ==
                  (n + 1) * spacing d * M + n * tiny d + tiny d)%Q) by ring.
    assert (Hz : (((n + 1) * spacing d * B + 2 * tiny d) * n ==
                  (n + 1) * spacing d * (n * B) + 2 * (n * tiny d))%Q) by ring.
    rewrite Hy, Hz. lra. }
  assert (Hfinal : ((n + 5) * spacing d * B + 6 * tiny d ==
                    4 * (spacing d * B + tiny d) + ((n + 1) * spacing d * B + 2 * tiny d))%Q)
    by ring.
  rewrite Hfinal.
  apply Qabs_le_inv in Hdiv as [Hd1 Hd2]. apply Qabs_le_inv in Hsum as [Hs1 Hs2].
  set (e1 := (4 * (spacing d * B + tiny d))%Q) in *.
  set (e2 := ((n + 1) * spacing d * B + 2 * tiny d)%Q) in *.
  apply Qabs_le_of; lra.
Qed.

End Means.

(** ** The mean, variance and standard deviation of a batch *)

(** Converting a number of the format to the format changes nothing. *)
Lemma round_to_representable (d : dtype) (x : float) :
  representable d x = true -> Float.round_to d x = x.
Proof.
  intros Hx. destruct (representable_inv d x Hx) as [[s ->]|(s & m & e & -> & Hc & Hb)];
    [done|].
  cbn [Float.round_to].
  assert (Hround : binary_round (Float.prec d) (Float.emax d) s m e = S754_finite s m e).
  { unfold binary_round. change (Z.pos (digits2_pos m)) with (Zdigits2 (Z.pos m)).
    rewrite Hc. unfold shl_align. rewrite Z.sub_diag.
    unfold binary_round_aux, shr_fexp. rewrite Hc, Z.sub_diag. cbn [shr shr_record_of_loc shr_m loc_of_shr_record round_nearest_even].
    rewrite Hc, Z.sub_diag. cbn [shr shr_record_of_loc shr_m].
    apply Z.leb_le in Hb. by rewrite Hb. }
  destruct s; cbn [cond_Zopp Z.opp binary_normalize]; exact Hround.
Qed.

Lemma array_representable (d : dtype) (l : list float) :
  Forall (fun x => representable d x = true) l -> np.array d l = l.
Proof.
  induction 1 as [|x l Hx Hl IH]; [done|].
  unfold np.array in *. cbn [fmap list_fmap]. cbn [fmap list_fmap] in IH.
  by rewrite round_to_representable, IH.
Qed.

Lemma tiny_le_1 (d : dtype) : (tiny d <= 1)%Q.
Proof. change 1%Q with (2 ^ 0)%Q. unfold tiny. apply Qp2_le. destruct d; vm_compute; discriminate. Qed.

Lemma within_weaken (d : dtype) (A B : Q) (x : float) :
  (A <= B)%Q -> within d A x -> within d B x.
Proof. intros HAB [Hr Hx]. split; [done|lra]. Qed.

Lemma exact_sum_abs (l : list float) : (Qabs (exact_sum l) <= abs_sum l)%Q.
Proof.
  induction l as [|x l IH]; [vm_compute; discriminate|]. cbn [exact_sum abs_sum fold_right].
  fold (exact_sum l). fold (abs_sum l).
  pose proof (Qabs_triangle (Float.to_Q x) (exact_sum l)). lra.
Qed.

Section BatchMetricsFinite.
Variable d : dtype.

Lemma batch_in_range_mean (n : nat) (A : Q) :
  1 <= n -> batch_in_range d n A -> mean_in_range d n A.
Proof.
  intros Hn (HA & Hcount & Hrange). unfold mean_in_range.
  set (N := inject_Z (Z.of_nat n)) in *.
  assert (HN : (1 <= N)%Q) by (change 1%Q with (inject_Z 1); apply inject_Z_le; lia).
  pose proof (spacing_pos d) as Hsp. pose proof (tiny_pos d) as Hti.
  pose proof (tiny_le_1 d) as Ht1.
  split; [lra|]. split.
  - assert (Hx : ((N + 5) * spacing d == (N + 1) * spacing d + 4 * spacing d)%Q) by ring.
    rewrite Hx in Hcount. lra.
  - assert (HAA : (A <= A * A)%Q).
    { rewrite <- (Qmult_1_l A) at 1. apply Qmult_le_r'; lra. }
    assert (HNA : (N * (A + 3 * tiny d) <= N * (4 * (A * A)))%Q).
    { rewrite !(Qmult_comm N). apply Qmult_le_r'; lra. }
    assert (Hy : (4 * N * (A + 3 * tiny d) == 4 * (N * (A + 3 * tiny d)))%Q) by ring.
    assert (Hz : (4096 * N * (A * A) == 256 * (4 * (N * (4 * (A * A)))))%Q) by ring.
    rewrite Hy. rewrite Hz in Hrange.
    assert (0 <= N * (A + 3 * tiny d))%Q by (apply Qmult_le_0_compat; lra).
    lra.
Qed.

Lemma mean_error_le (n : nat) (A : Q) :
  batch_in_range d n A -> (mean_error d n A <= 9 * A)%Q.
Proof.
  intros (HA & Hcount & _). unfold mean_error.
  pose proof (tiny_pos d) as Hti. pose proof (tiny_le_1 d) as Ht1.
  assert (H1 : ((inject_Z (Z.of_nat n) + 5) * spacing d * (2 * A + 4 * tiny d)
                <= (1 # 2) * (2 * A + 4 * tiny d))%Q) by (apply Qmult_le_r'; lra).
  lra.
Qed.

(** The mean, the variance and the standard deviation NumPy computes of
    a batch in range are numbers of the format. *)
Lemma batch_metrics_representable (a : list float) (A : Q) :
  a <> [] ->
  Forall (within d A) a ->
  batch_in_range d (length a) A ->
  representable d (np.mean d a) = true /\
  representable d (np.var d a) = true /\
  representable d (np.std d a) = true.
Proof.
  intros Hne Ha Hin. pose proof Hin as (HA & Hcount & Hrange).
  assert (Hlen : 1 <= length a) by (destruct a; [done|simpl; lia]).
  set (N := inject_Z (Z.of_nat (length a))) in *.
  assert (HN : (1 <= N)%Q) by (change 1%Q with (inject_Z 1); apply inject_Z_le; lia).
  pose proof (spacing_pos d) as Hsp. pose proof (tiny_pos d) as Hti.
  pose proof (tiny_le_1 d) as Ht1. pose proof (spacing_le_half d) as Hsph.
  assert (HAA : (A <= A * A)%Q).
  { rewrite <- (Qmult_1_l A) at 1. apply Qmult_le_r'; lra. }
  assert (HNAA : (A * A <= N * (A * A))%Q).
  { rewrite <- (Qmult_1_l (A * A)) at 1. apply Qmult_le_r'; lra. }
  assert (Hz : (4096 * N * (A * A) == 4096 * (N * (A * A)))%Q) by ring.
  rewrite Hz in Hrange.
  (* the mean *)
  destruct (mean_value d a A Hne Ha (batch_in_range_mean _ _ Hlen Hin)) as [Hmean Hmerr].
  fold N in Hmerr. pose proof (mean_error_le _ _ Hin) as Hme.
  assert (Havg : (Qabs (exact_sum a / N) <= A)%Q).
  { unfold N. rewrite Qabs_div_nat. fold N. apply Qle_shift_div_r; [lra|].
    pose proof (exact_sum_abs a). 
    assert (abs_sum a <= N * A)%Q.
    { apply abs_sum_bound. eapply Forall_impl; [exact Ha|]. by intros x [_ ?]. }
    rewrite (Qmult_comm A). lra. }
  assert (Hmabs : (Qabs (Float.to_Q (np.mean d a)) <= 10 * A)%Q).
  { apply Qabs_le_inv in Hmerr as [? ?], Havg as [? ?]. apply Qabs_le_of; lra. }
  split; [exact Hmean|].
  (* the squared deviations *)
  set (m := np.mean d a) in *.
  assert (Hsq : Forall (within d (512 * (A * A)))
                  ((fun v => Float.mul d v v) <$> ((fun v => Float.sub d v m) <$> a))).
  { rewrite <- list_fmap_compose. apply Forall_fmap. eapply Forall_impl; [exact Ha|].
    intros x [Hx HxA]. cbn.
    assert (Hdiff : (Qabs (Float.to_Q x - Float.to_Q m) <= 11 * A)%Q).
    { apply Qabs_le_inv in HxA as [? ?], Hmabs as [? ?]. apply Qabs_le_of; lra. }
    destruct (sub_value d x m Hx Hmean) as [Hdev Hdeverr]; [lra|].
    assert (Hdevabs : (Qabs (Float.to_Q (Float.sub d x m)) <= 18 * A)%Q).
    { pose proof (rounding_error_mono d _ _ Hdiff) as Hmono.
      assert (spacing d * (11 * A) <= (1 # 2) * (11 * A))%Q by (apply Qmult_le_r'; lra).
      apply Qabs_le_inv in Hdeverr as [? ?], Hdiff as [? ?]. apply Qabs_le_of; lra. }
    set (v := Float.sub d x m) in *.
    assert (Hprod : (Qabs (Float.to_Q v * Float.to_Q v) <= 324 * (A * A))%Q).
    { rewrite Qabs_Qmult. pose proof (Qabs_nonneg (Float.to_Q v)) as Hv0.
      assert (Qabs (Float.to_Q v) * Qabs (Float.to_Q v) <= 18 * A * (18 * A))%Q
        by (apply Qmult_le_compat_nonneg; split; lra).
      assert (18 * A * (18 * A) == 324 * (A * A))%Q by ring. lra. }
    destruct (mul_value d v v Hdev Hdev) as [Hs Hserr]; [lra|].
    split; [exact Hs|].
    pose proof (rounding_error_mono d _ _ Hprod) as Hmono.
    assert (spacing d * (324 * (A * A)) <= (1 # 2) * (324 * (A * A)))%Q
      by (apply Qmult_le_r'; lra).
    apply Qabs_le_inv in Hserr as [? ?], Hprod as [? ?]. apply Qabs_le_of; lra. }
  (* their mean *)
  set (x2 := (fun v => Float.mul d v v) <$> ((fun v => Float.sub d v m) <$> a)) in *.
  assert (Hlen2 : length x2 = length a) by (unfold x2; by rewrite !length_fmap).
  assert (Hvar : np.var d a = np.mean d x2).
  { unfold np.var, np.mean. cbv zeta. fold m. fold x2. by rewrite Hlen2. }
  assert (Hne2 : x2 <> []) by (intros Hnil; rewrite Hnil in Hlen2; simpl in Hlen2; lia).
  destruct (mean_value d x2 (512 * (A * A)) Hne2 Hsq) as [Hv _].
  { rewrite Hlen2. unfold mean_in_range. fold N. split; [lra|]. split.
    - assert (Hx : ((N + 5) * spacing d == (N + 1) * spacing d + 4 * spacing d)%Q) by ring.
      rewrite Hx in Hcount. lra.
    - assert (Hy : (4 * N * (512 * (A * A) + 3 * tiny d) ==
                    2048 * (N * (A * A)) + 12 * (N * tiny d))%Q) by ring.
      assert (N * tiny d <= N * (A * A))%Q.
      { rewrite !(Qmult_comm N). apply Qmult_le_r'; lra. }
      rewrite Hy. lra. }
  rewrite <- Hvar in Hv. split; [exact Hv|].
  unfold np.std. apply sqrt_representable; [exact Hv|apply var_sign].
Qed.

End BatchMetricsFinite.

(** ** The aggregate metrics, up to rounding *)

Lemma within_not_nan (d : dtype) (A : Q) (l : list float) :
  Forall (within d A) l -> Forall (fun y => Float.isnan y = false) l.
Proof.
  intros Hl. eapply Forall_impl; [exact Hl|]. intros x [Hx _].
  apply representable_finite in Hx. by destruct x.
Qed.

Lemma within_finite (d : dtype) (A : Q) (l : list float) :
  Forall (within d A) l -> Forall (fun y => Float.isfinite y = true) l.
Proof.
  intros Hl. eapply Forall_impl; [exact Hl|]. intros x [Hx _].
  by apply representable_finite in Hx.
Qed.

Lemma within_array (d : dtype) (A : Q) (l : list float) :
  Forall (within d A) l -> np.array d l = l.
Proof.
  intros Hl. apply array_representable. eapply Forall_impl; [exact Hl|]. by intros x [? _].
Qed.

(** The entries [compute_aggregate_metrics] returns for batches whose
    means are numbers of the dtype. *)
Lemma aggregate_metrics_values (cfg : SimulationConfig) (batches : list BatchMetrics) (A : Q) :
  let d := config_dtype cfg in
  let means := bm_mean <$> batches in
  let stds := np.array d (bm_std <$> batches) in
  batches <> [] ->
  Forall (within d A) means ->
  mean_in_range d (length batches) A ->
  exists mn mx,
    compute_aggregate_metrics (mk_Analyzer (BatchMetrics_dict <$> batches) cfg) =
      Ok (aggregate_dict (np.mean d means) (np.mean d stds) mn mx) /\
    is_minimum mn means /\ is_maximum mx means /\
    Float.isfinite mn = true /\ Float.isfinite mx = true /\
    (Float.to_Q mn <= arithmetic_mean means <= Float.to_Q mx)%Q /\
    representable d (np.mean d means) = true /\
    (Qabs (Float.to_Q (np.mean d means) - arithmetic_mean means)
       <= mean_error d (length batches) A)%Q.
Proof.
  intros d means stds Hne Hmeans Hrange.
  rewrite compute_aggregate_metrics_BatchMetrics. fold d. fold means. fold stds.
  rewrite (within_array d A means Hmeans).
  assert (Hlm : length means = length batches) by (unfold means; apply length_fmap).
  pose proof (within_not_nan d A means Hmeans) as Hnan.
  pose proof (within_finite d A means Hmeans) as Hfin.
  destruct means as [|x l] eqn:Hl.
  { by destruct batches. }
  cbn [np.amin np.amax].
  destruct (fold_minimum_spec l x Hnan) as (Hmin_in & _ & Hmin).
  destruct (fold_maximum_spec l x Hnan) as (Hmax_in & _ & Hmax).
  set (mn := fold_left np.minimum l x) in *. set (mx := fold_left np.maximum l x) in *.
  exists mn, mx. split; [reflexivity|].
  split; [done|]. split; [done|].
  assert (Hmn : Float.isfinite mn = true).
  { eapply Forall_forall in Hfin; [exact Hfin|exact Hmin_in]. }
  assert (Hmx : Float.isfinite mx = true).
  { eapply Forall_forall in Hfin; [exact Hfin|exact Hmax_in]. }
  split; [done|]. split; [done|].
  pose proof (inject_Z_length_pos x l) as Hpos.
  split.
  { unfold arithmetic_mean. split.
    - apply Qle_shift_div_l; [done|]. rewrite Qmult_comm. apply exact_sum_lower.
      apply Forall_forall. intros m Hm. apply leb_to_Q; [done| |].
      + eapply Forall_forall in Hfin; [exact Hfin|exact Hm].
      + eapply Forall_forall in Hmin; [exact Hmin|exact Hm].
    - apply Qle_shift_div_r; [done|]. rewrite Qmult_comm. apply exact_sum_upper.
      apply Forall_forall. intros m Hm. apply leb_to_Q; [|done|].
      + eapply Forall_forall in Hfin; [exact Hfin|exact Hm].
      + eapply Forall_forall in Hmax; [exact Hmax|exact Hm]. }
  rewrite <- Hlm in Hrange |- *.
  exact (mean_value d (x :: l) A ltac:(done) Hmeans Hrange).
Qed.

(** C3, as stated, fails.  The mean of three per-batch means that are all
    the float32 number 1.7500002384185791015625 is that number, but the
    float32 sum of the three rounds up and [overall_mean] is the next
    float32 number, 1.75000035762786865234375. *)
Lemma overall_mean_not_the_mean :
  ~ aggregate_metrics_claim SimulationConfig_init three_equal_batches.
Proof.
  intros (om & os & mn & mx & Hrun & _ & Hom & _).
  rewrite compute_aggregate_metrics_BatchMetrics in Hrun.
  cbv zeta in Hrun. change (config_dtype SimulationConfig_init) with float32 in Hrun.
  set (means := np.array float32 (bm_mean <$> three_equal_batches)) in Hrun.
  set (stds := np.array float32 (bm_std <$> three_equal_batches)) in Hrun.
  assert (np.amin means = Some mean_1_75) as Hmin by (vm_compute; reflexivity).
  assert (np.amax means = Some mean_1_75) as Hmax by (vm_compute; reflexivity).
  assert (np.mean float32 means = S754_finite false 14680067 (-23)) as Hmean
    by (vm_compute; reflexivity).
  clearbody means stds. rewrite Hmin, Hmax in Hrun.
  apply (f_equal (fun r : result dict =>
                    match r with Ok m => m !! "overall_mean" | Error _ => None end)) in Hrun.
  cbv beta iota in Hrun. unfold aggregate_metrics_spec, aggregate_dict in Hrun.
  rewrite !lookup_insert_eq, Hmean in Hrun. injection Hrun as <-.
  vm_compute in Hom. discriminate.
Qed.

(** C3, amended.  For a non-empty list of BatchMetrics whose means and
    standard deviations are numbers of the dtype of magnitude [A] at most
    (with [A] and the length of the list in the range of [mean_in_range]),
    [compute_aggregate_metrics] returns the dict of four entries:
    [overall_mean], a finite number within [mean_error] of the arithmetic
    mean of the per-batch means; [overall_std], a finite number within
    [mean_error] of the arithmetic mean of the per-batch standard deviations
    (no standard deviation of pooled data); [min_value] and [max_value], the
    least and the greatest of the per-batch means. *)
Theorem aggregate_metrics_rounded (cfg : SimulationConfig) (batches : list BatchMetrics)
    (A : Q) :
  let d := config_dtype cfg in
  let means := bm_mean <$> batches in
  let stds := bm_std <$> batches in
  batches <> [] ->
  Forall (within d A) means ->
  Forall (within d A) stds ->
  mean_in_range d (length batches) A ->
  exists overall_mean overall_std min_value max_value,
    compute_aggregate_metrics (mk_Analyzer (BatchMetrics_dict <$> batches) cfg) =
      Ok (aggregate_dict overall_mean overall_std min_value max_value) /\
    Float.isfinite overall_mean = true /\
    (Qabs (Float.to_Q overall_mean - arithmetic_mean means)
       <= mean_error d (length batches) A)%Q /\
    Float.isfinite overall_std = true /\
    (Qabs (Float.to_Q overall_std - arithmetic_mean stds)
       <= mean_error d (length batches) A)%Q /\
    is_minimum min_value means /\
    is_maximum max_value means.
Proof.
  intros d means stds Hne Hmeans Hstds Hrange.
  destruct (aggregate_metrics_values cfg batches A Hne Hmeans Hrange)
    as (mn & mx & Hrun & Hmin & Hmax & _ & _ & _ & Hr1 & He1).
  fold d means in Hrun, Hmin, Hmax, Hr1, He1. fold stds in Hrun.
  rewrite (within_array d A stds Hstds) in Hrun.
  assert (Hls : length stds = length batches) by (unfold stds; apply length_fmap).
  assert (Hnes : stds <> []).
  { intros Hnil. rewrite Hnil in Hls. destruct batches; done. }
  rewrite <- Hls in Hrange.
  destruct (mean_value d stds A Hnes Hstds Hrange) as [Hr2 He2].
  fold (arithmetic_mean stds) in He2. rewrite Hls in He2.
  exists (np.mean d means), (np.mean d stds), mn, mx.
  split; [exact Hrun|].
  split; [by eapply representable_finite|]. split; [exact He1|].
  split; [by eapply representable_finite|]. split; [exact He2|].
  split; [exact Hmin|exact Hmax].
Qed.

Lemma three_equal_batches_within :
  Forall (within float32 2) (bm_mean <$> three_equal_batches) /\
  Forall (within float32 2) (bm_std <$> three_equal_batches) /\
  mean_in_range float32 (length three_equal_batches) 2.
Proof.
  split; [|split].
  - repeat constructor; by vm_compute.
  - repeat constructor; by vm_compute.
  - repeat split; by vm_compute.
Qed.

Lemma aggregate_metrics_rounded_witness :
  exists overall_mean overall_std min_value max_value,
    compute_aggregate_metrics
      (mk_Analyzer (BatchMetrics_dict <$> three_equal_batches) SimulationConfig_init) =
      Ok (aggregate_dict overall_mean overall_std min_value max_value) /\
    Float.isfinite overall_mean = true /\
    (Qabs (Float.to_Q overall_mean - arithmetic_mean (bm_mean <$> three_equal_batches))
       <= mean_error float32 3 2)%Q /\
    is_minimum min_value (bm_mean <$> three_equal_batches).
Proof.
  destruct three_equal_batches_within as (Hmeans & Hstds & Hrange).
  destruct (aggregate_metrics_rounded SimulationConfig_init three_equal_batches 2)
    as (om & os & mn & mx & Hrun & Hfin & Herr & _ & _ & Hmin & _).
  - discriminate.
  - exact Hmeans.
  - exact Hstds.
  - exact Hrange.
  - exists om, os, mn, mx.
    split; [exact Hrun|]. split; [exact Hfin|]. split; [exact Herr|exact Hmin].
Defined.

(** C6, amended.  For a non-empty list of BatchMetrics whose means are
    numbers of the dtype of magnitude [A] at most (with [A] and the length
    of the list in the range of [mean_in_range]): [min_value] and
    [max_value] are per-batch means, every per-batch mean lies between them,
    so [min_value <= max_value] and the arithmetic mean of the per-batch means
    lies between them; [overall_mean] is finite and within [mean_error] of
    that arithmetic mean, hence
    [min_value - mean_error <= overall_mean <= max_value + mean_error]. *)
Theorem min_max_bracket_means (cfg : SimulationConfig) (batches : list BatchMetrics)
    (A : Q) :
  let d := config_dtype cfg in
  let means := bm_mean <$> batches in
  let err := mean_error d (length batches) A in
  batches <> [] ->
  Forall (within d A) means ->
  mean_in_range d (length batches) A ->
  exists metrics mn m mx,
    compute_aggregate_metrics (mk_Analyzer (BatchMetrics_dict <$> batches) cfg) = Ok metrics /\
    metrics !! "min_value" = Some mn /\
    metrics !! "overall_mean" = Some m /\
    metrics !! "max_value" = Some mx /\
    mn ∈ means /\ mx ∈ means /\
    Forall (fun x => Float.leb mn x = true /\ Float.leb x mx = true) means /\
    Float.leb mn mx = true /\
    (Float.to_Q mn <= arithmetic_mean means <= Float.to_Q mx)%Q /\
    Float.isfinite m = true /\
    (Qabs (Float.to_Q m - arithmetic_mean means) <= err)%Q /\
    (Float.to_Q mn - err <= Float.to_Q m <= Float.to_Q mx + err)%Q.
Proof.
  intros d means err Hne Hmeans Hrange.
  destruct (aggregate_metrics_values cfg batches A Hne Hmeans Hrange)
    as (mn & mx & Hrun & [Hmin_in Hmin] & [Hmax_in Hmax] & Hmn & Hmx & Havg & Hr1 & He1).
  fold d means err in Hrun, Hmin_in, Hmin, Hmax_in, Hmax, Havg, Hr1, He1.
  eexists _, mn, (np.mean d means), mx. split; [exact Hrun|].
  unfold aggregate_dict.
  split; [by rewrite !lookup_insert_ne, lookup_insert_eq by done|].
  split; [by rewrite lookup_insert_eq|].
  split; [by rewrite !lookup_insert_ne, lookup_insert_eq by done|].
  split; [done|]. split; [done|].
  split; [by apply Forall_and|].
  split.
  { eapply Forall_forall in Hmin; [|exact Hmax_in]. exact Hmin. }
  split; [exact Havg|].
  split; [by eapply representable_finite|].
  split; [exact He1|].
  apply Qabs_le_inv in He1 as [He1 He2]. destruct Havg as [Ha1 Ha2].
  split; lra.
Qed.

Lemma min_max_bracket_means_witness :
  exists metrics mn m mx,
    compute_aggregate_metrics
      (mk_Analyzer (BatchMetrics_dict <$> three_equal_batches) SimulationConfig_init)
    = Ok metrics /\
    metrics !! "min_value" = Some mn /\
    metrics !! "overall_mean" = Some m /\
    metrics !! "max_value" = Some mx /\
    Float.leb mn mx = true /\
    (Float.to_Q mn - mean_error float32 3 2 <= Float.to_Q m
       <= Float.to_Q mx + mean_error float32 3 2)%Q.
Proof.
  destruct three_equal_batches_within as (Hmeans & Hstds & Hrange).
  destruct (min_max_bracket_means SimulationConfig_init three_equal_batches 2)
    as (metrics & mn & m & mx & Hcall & Hmn & Hm & Hmx & _ & _ & _ & Hle & _ & _ & _ & Hbr).
  - discriminate.
  - exact Hmeans.
  - exact Hrange.
  - exists metrics, mn, m, mx.
    split; [exact Hcall|]. split; [exact Hmn|]. split; [exact Hm|]. split; [exact Hmx|].
    split; [exact Hle|exact Hbr].
Defined.

(** ** The metrics of a run are finite *)

Lemma process_batch_finite (d : dtype) (b : ndarray float) (A : Q) :
  data b <> [] ->
  Forall (within d A) (data b) ->
  batch_in_range d (length (data b)) A ->
  finite_metrics (_process_batch d b).
Proof.
  intros Hne Hb Hrange.
  destruct (batch_metrics_representable d (data b) A Hne Hb Hrange) as (Hm & Hv & Hs).
  apply representable_finite in Hm, Hv, Hs.
  intros key Hkey. unfold _process_batch, Float.py_float.
  apply elem_of_cons in Hkey as [->|Hkey]; [eexists; split; [apply lookup_insert_eq|done]|].
  apply elem_of_cons in Hkey as [->|Hkey].
  { eexists. split; [by rewrite lookup_insert_ne, lookup_insert_eq by done|done]. }
  apply elem_of_cons in Hkey as [->|Hkey]; [|by apply elem_of_nil in Hkey].
  eexists. split; [by rewrite !lookup_insert_ne, lookup_insert_eq by done|done].
Qed.


Lemma table_draw_cases (k : Z) :
  exists j : Z, (0 <= j < 5)%Z /\ CounterRng.table_draw k = CounterRng.table_draw j.
Proof.
  exists (k mod 5)%Z. split; [apply Z.mod_pos_bound; lia|].
  unfold CounterRng.table_draw. by rewrite Z.mod_mod.
Qed.

Lemma counter_rng_parameters (g g' : Z) :
  counter_parameters
    (normal1 (Float.of_Z float64 0) (Float.of_Z float64 1) g).1
    (uniform (Float.div float64 (Float.of_Z float64 1) (Float.of_Z float64 2))
       (Float.of_Z float64 2) g').1.
Proof.
  split; [|reflexivity]. cbn [normal1 CounterRng.counter_rng fst].
  destruct (table_draw_cases g) as (j & Hj & Heq).
  exists j. split; [done|]. unfold CounterRng.draw. by rewrite Heq.
Qed.

Lemma counter_rng_draws (mu sigma : float) (n : nat) (g : Z) :
  counter_parameters mu sigma ->
  Forall (within float32 4) (np.astype float32 (normal mu sigma n g).1).
Proof.
  intros [(k & Hk & ->) ->]. cbn [normal CounterRng.counter_rng CounterRng.draws fst].
  unfold np.astype. rewrite <- list_fmap_compose. apply Forall_fmap, Forall_forall.
  intros i _. cbn. unfold CounterRng.draw at 1.
  destruct (table_draw_cases (g + Z.of_nat i)) as (j & Hj & ->).
  assert (Hk' : (k = 0 \/ k = 1 \/ k = 2 \/ k = 3 \/ k = 4)%Z) by lia.
  assert (Hj' : (j = 0 \/ j = 1 \/ j = 2 \/ j = 3 \/ j = 4)%Z) by lia.
  destruct Hk' as [->|[->|[->|[->| ->]]]]; destruct Hj' as [->|[->|[->|[->| ->]]]];
    split; by vm_compute.
Qed.


(** The bound on the draws cannot be dropped: two draws of 2^127, both
    finite, have no finite float32 sum, and the mean of the batch they make
    is infinite. *)
Lemma run_simulation_huge_draws :
  ~ run_simulation_claim unit (config_with 2 2 1).
Proof.
  intros (evs & metrics & self' & Hrun & _ & Hfin).
  vm_compute in Hrun. injection Hrun as _ <- _.
  apply Forall_cons in Hfin as [Hfin _].
  destruct (Hfin "mean") as (v & Hv & Hfinite); [apply list_elem_of_here|].
  vm_compute in Hv. injection Hv as <-. discriminate.
Qed.
